(** * In-memory relation linking of js-data: the BelongsTo and HasOne link
    fields and the DataStore that installs them.

    Sources embedded here:
    - [src/Relation/BelongsTo.js]: [BelongsToRelation.createChildRecord],
      [getForeignKey], [_setForeignKey] and [findExistingLinksFor], the
      link-field setter built by [createDescriptor] and the foreign-key
      accessor it installs;
    - [src/Relation/HasOne.js]: the link-field setter built by
      [createDescriptor];
    - the DataStore source: the constructor and its defaults,
      [defineMapper], [destroy], [destroyAll] and
      [registerRelationshipType].

    [utils], [Record], [Relation], [HasMany], [SimpleStore] and the
    collection classes are not among the sources. What the embedded code
    needs of them is either a parameter of the definitions or a definition
    marked as modelled from the spec.

    Records are objects with identity: a record is a location, its scalar
    fields and its link fields live in two field-addressed maps. *)

From Stdlib Require Import ZArith String List.
From stdpp Require Import base option gmap strings list.

Open Scope string_scope.
Open Scope list_scope.
Open Scope nat_scope.

(** ** Values and the store *)

Abbreviation loc := positive (only parsing).
Abbreviation key := (Z + string)%type (only parsing).

(** JavaScript values as far as the linking code looks at them. A to-many
    link field holds its array by value: every such slot owns its array. *)
Inductive value : Type :=
  | VUndef
  | VNull
  | VBool (b : bool)
  | VNum (n : Z)
  | VStr (s : string)
  | VRef (l : loc)
  | VArr (ls : list loc).

Global Instance value_eq_dec : EqDecision value.
Proof. solve_decision. Defined.

(** [if (v)] *)
Definition truthy (v : value) : bool :=
  match v with
  | VUndef | VNull => false
  | VBool b => b
  | VNum n => negb (n =? 0)%Z
  | VStr s => negb (String.eqb s EmptyString)
  | VRef _ | VArr _ => true
  end.

(** [a || b] *)
Definition js_or (a b : value) : value := if truthy a then a else b.

(** An identifier usable as a collection key. *)
Definition to_key (v : value) : option key :=
  match v with
  | VNum n => Some (inl n)
  | VStr s => Some (inr s)
  | _ => None
  end.

(** A secondary index: buckets of records, one per field value, in
    insertion order. *)
Abbreviation index := (list (value * list loc)) (only parsing).

Record store : Type := Store {
  props : gmap (loc * string) value;        (* [_get('props.f')] *)
  links : gmap (loc * string) value;        (* [_get('links.f')] *)
  added : gset loc;                         (* records whose [_get('$')] is set *)
  collections : gmap string (gmap key loc); (* [store._collections] *)
  indexes : gmap (string * string) index    (* [collection.indexes[f]] *)
}.

Definition with_props (f : gmap (loc * string) value → gmap (loc * string) value)
    (s : store) : store :=
  Store (f (props s)) (links s) (added s) (collections s) (indexes s).

Definition with_links (f : gmap (loc * string) value → gmap (loc * string) value)
    (s : store) : store :=
  Store (props s) (f (links s)) (added s) (collections s) (indexes s).

Definition with_indexes (f : gmap (string * string) index → gmap (string * string) index)
    (s : store) : store :=
  Store (props s) (links s) (added s) (collections s) (f (indexes s)).

(** ** Operations that can throw

    A JavaScript call either returns a value or throws; the heap it leaves
    behind is the one reached at that point in both cases. *)

Inductive error : Type :=
  | Error (message : string)          (* [throw new Error(message)] *)
  | TypeError (message : string).     (* raised by the language itself *)

Inductive result (A : Type) : Type :=
  | Ok (a : A) (s : store)
  | Throw (e : error) (s : store).
Arguments Ok {A} a s.
Arguments Throw {A} e s.

(** A computation over the store. *)
Definition M (A : Type) : Type := store → result A.

Global Instance M_ret : MRet M := λ A a s, Ok a s.

Global Instance M_bind : MBind M := λ A B k m s,
  match m s with
  | Ok a s' => k a s'
  | Throw e s' => Throw e s'
  end.

Definition throw {A : Type} (e : error) : M A := λ s, Throw e s.

(** A step that cannot throw. *)
Definition lift (f : store → store) : M unit := λ s, Ok tt (f s).

(** The heap a call leaves behind. *)
Definition final_store {A : Type} (r : result A) : store :=
  match r with Ok _ s => s | Throw _ s => s end.

Definition dquote : string := String (Ascii.ascii_of_nat 34) EmptyString.

(** ** Schema *)

Definition belongsToType : string := "belongsTo".
Definition hasOneType : string := "hasOne".
Definition hasManyType : string := "hasMany".

(** A relation definition ([def] in the sources). [def_get], [def_set] and
    [enumerable] are the optional [def.get], [def.set] and [def.enumerable]
    that [defineMapper] looks at. *)
Record Relation : Type := {
  type : string;
  relation : string;
  foreignKey : string;
  localField : string;
  enumerable : option bool;
  def_get : option (loc → (store → value) → store → value);
  def_set : option (loc → value → (value → M value) → M value)
}.

Record Mapper : Type := {
  idAttribute : string;
  relationList : list Relation
}.

(** A property descriptor and the accessors a record class carries on its
    prototype ([mapper.recordClass.prototype]). [d_configurable] is the
    [configurable] of the descriptor, if it has one; a property defined
    without it cannot be redefined. Properties that hold a value instead of
    accessors are not modelled. *)
Record Descriptor : Type := {
  d_get : option (loc → store → value);
  d_set : option (loc → value → M value);
  d_enumerable : bool;
  d_configurable : option bool
}.

Abbreviation Prototype := (gmap string Descriptor) (only parsing).

(** Whether the language lets a property be redefined. *)
Definition configurable (d : Descriptor) : bool := default false (d_configurable d).

(** What a descriptor gives, or else what the property has. *)
Definition given {A : Type} (x current : option A) : option A :=
  match x with Some _ => x | None => current end.

(** [Object.defineProperty(prototype, key, descriptor)] as the language has
    it, for a descriptor whose accessors are functions made for it: a
    property of that name that is not configurable cannot be redefined,
    which is a [TypeError]; one that is configurable takes what the
    descriptor gives and keeps the rest; a new property is as the
    descriptor says. [enumerable] is given at both places of the sources
    that define a property. *)
Definition defineProperty (prototype : gmap string Descriptor) (key : string)
    (descriptor : Descriptor) : M (gmap string Descriptor) :=
  match prototype !! key with
  | None => mret (<[key := descriptor]> prototype)
  | Some current =>
      if configurable current then
        mret (<[key := {| d_get := given (d_get descriptor) (d_get current);
                          d_set := given (d_set descriptor) (d_set current);
                          d_enumerable := d_enumerable descriptor;
                          d_configurable :=
                            given (d_configurable descriptor) (d_configurable current) |}]>
                prototype)
      else throw (TypeError ("Cannot redefine property: " ++ key)%string)
  end.

(** [createDescriptor (mapper, def, name, store)]: may add accessors to
    the prototype and change the store, and yields the link-field
    descriptor, if any. *)
Abbreviation CreateDescriptor :=
  (Mapper → Relation → string → gmap string Descriptor →
   M (option Descriptor * gmap string Descriptor)) (only parsing).

(** ** Record and utility primitives *)

(** Modelled from the spec: [Record#_get('links.' + f)], the stored slot
    behind a computed link field ("backed by a plain stored slot for the
    resolved value"); an unset slot reads as [undefined]. *)
Definition _get_link (s : store) (l : loc) (f : string) : value :=
  default VUndef (links s !! (l, f)).

(** Modelled from the spec: a stored scalar field of a record (the
    identifier, a foreign key), as [utils.get] and
    [Record#_get('props.' + f)] read it. *)
Definition _get_prop (s : store) (l : loc) (f : string) : value :=
  default VUndef (props s !! (l, f)).

(** Modelled from the spec: [Record#_get] is not among the sources. The
    setters only test [this._get('$')] for truth; it is kept as the set of
    records for which it is set, the records "the owning store" holds
    (section 4.3). *)
Definition _get_added (s : store) (l : loc) : bool :=
  bool_decide (l ∈ added s).

(** Modelled from the spec: [utils.get(object, field)] on a scalar field;
    a value that is no record has no fields. *)
Definition utils_get (s : store) (object : value) (f : string) : value :=
  match object with
  | VRef l => _get_prop s l f
  | _ => VUndef
  end.

(** Modelled from the spec: [utils.safeSetLink(record, field, value)]
    writes the stored slot of a link field without running its setter. *)
Definition safeSetLink (record : value) (f : string) (v : value) (s : store) : store :=
  match record with
  | VRef l => with_links <[(l, f) := v]> s
  | _ => s
  end.

(** Modelled from the spec: [utils.safeSetProp(record, field, value)]
    writes a stored scalar field without running its setter. *)
Definition safeSetProp (record : value) (f : string) (v : value) (s : store) : store :=
  match record with
  | VRef l => with_props <[(l, f) := v]> s
  | _ => s
  end.

(** *** Collections and their secondary indexes *)

(** Modelled from the spec: the two halves of repositioning a record in an
    index, "remove from old bucket if present" and "insert into new bucket
    keyed by current field value"; a bucket is an ordered sequence. *)
Definition removeRecord (l : loc) (ix : index) : index :=
  map (λ kb, (kb.1, filter (λ x, x ≠ l) kb.2)) ix.

Fixpoint insertRecord (k : value) (l : loc) (ix : index) : index :=
  match ix with
  | [] => [(k, [l])]
  | (k', b) :: rest =>
      if decide (k = k') then (k', b ++ [l]) :: rest
      else (k', b) :: insertRecord k l rest
  end.

(** Modelled from the spec: [collection.updateIndex(record, {index: f})]
    "repositions the record within that one index's buckets (remove from old
    bucket if present, insert into new bucket keyed by current field
    value)"; a collection or index that does not exist is skipped. *)
Definition updateIndex (name : string) (record : value) (f : string) (s : store) : store :=
  match record with
  | VRef l =>
      match indexes s !! (name, f) with
      | Some ix =>
          with_indexes
            <[(name, f) := insertRecord (_get_prop s l f) l (removeRecord l ix)]> s
      | None => s
      end
  | _ => s
  end.

(** Modelled from the spec: [collection.createIndex(f)] "builds a new
    secondary index lazily, scanning current members once". *)
Definition createIndex (name : string) (f : string) (s : store) : store :=
  let members := (map_to_list (default ∅ (collections s !! name))).*2 in
  with_indexes
    <[(name, f) := foldl (λ ix l, insertRecord (_get_prop s l f) l ix) [] members]> s.

(** Modelled from the spec: [store.get(name, id)], the record stored under
    that identifier in the named collection, [undefined] when there is none. *)
Definition store_get (s : store) (name : string) (id : value) : value :=
  match to_key id with
  | Some k =>
      match collections s !! name with
      | Some c => match c !! k with Some l => VRef l | None => VUndef end
      | None => VUndef
      end
  | None => VUndef
  end.

(** Modelled from the spec: [utils.remove(array, fn)] takes out the member
    selected by [fn], the first one in order. *)
Fixpoint utils_remove (fn : loc → bool) (array : list loc) : list loc :=
  match array with
  | [] => []
  | x :: rest => if fn x then rest else x :: utils_remove fn rest
  end.

(** Modelled from the spec: [utils.noDupeAdd(array, record, fn)] appends
    [record] unless a member selected by [fn] is there already. *)
Definition utils_noDupeAdd (record : loc) (fn : loc → bool) (array : list loc) : list loc :=
  if existsb fn array then array else array ++ [record].

(** Modelled from the spec: reading a to-many link field of [parent] and
    changing the array it yields in place. The read yields the ordered
    collection of the slot, an empty one when the slot holds none yet
    (scenario of section 8: [post1.comments] contains [comment1] after the
    first [comment1.post = post1]). *)
Definition update_children (parent : value) (f : string)
    (op : list loc → list loc) (s : store) : store :=
  match parent with
  | VRef p =>
      match _get_link s p f with
      | VArr a => with_links <[(p, f) := VArr (op a)]> s
      | v => if truthy v then s else with_links <[(p, f) := VArr (op [])]> s
      end
  | _ => s
  end.

(** The membership test shared by teardown and attach
    (BelongsTo.js 140-144): the child itself, or a member with the child's
    identifier when that is known. *)
Definition same_child (s : store) (this : loc) (id : value) (idAttr : string)
    (child : loc) : bool :=
  if decide (id = VUndef) then bool_decide (child = this)
  else bool_decide (child = this) || bool_decide (id = utils_get s (VRef child) idAttr).

(** ** BelongsTo (src/Relation/BelongsTo.js) *)

Module BelongsTo.

Section Descriptor.

(** [def.getInverse(mapper)] and [def.getRelation()] resolve against the
    schema of the related type ([Relation.js], not among the sources):
    the inverse definition may be absent, the related mapper supplies the
    related identifier field. *)
Variable getInverse : Relation → Mapper → option Relation.
Variable getRelation : Relation → Mapper.

(** The arguments of [createDescriptor (mapper, def, name, store)]; the
    store is the state threaded through the setters. *)
Variable mapper : Mapper.
Variable def : Relation.
Variable name : string.

(** Modelled from the spec: [Record#removeInverseRelation] is not among
    the sources; section 4.3 has the foreign-key setter tear the old
    inverse link down "exactly as in step 3", so the body is the inline
    teardown of [foreignKeyDescriptor.set] (BelongsTo.js 136-145). *)
Definition removeInverseRelation (this : loc) (currentParent : value) (id : value)
    (inverseDef : Relation) (idAttr : string) (s : store) : store :=
  if decide (type inverseDef = hasOneType) then
    safeSetLink currentParent (localField inverseDef) VUndef s
  else if decide (type inverseDef = hasManyType) then
    update_children currentParent (localField inverseDef)
      (utils_remove (same_child s this id idAttr)) s
  else s.

(** Modelled from the spec: [Record#setupInverseRelation] is not among
    the sources: "insert child into new parent's inverse
    slot/collection", a collection taking the child unless it holds it
    already by the membership test of the teardown. *)
Definition setupInverseRelation (this : loc) (record : value) (id : value)
    (inverseDef : Relation) (idAttr : string) (s : store) : store :=
  if decide (type inverseDef = hasOneType) then
    safeSetLink record (localField inverseDef) (VRef this) s
  else if decide (type inverseDef = hasManyType) then
    update_children record (localField inverseDef)
      (utils_noDupeAdd this (same_child s this id idAttr)) s
  else s.

(** Lines 79-81 of [descriptor.set]: the teardown of the old inverse link. *)
Definition set_teardown (this : loc) (currentParent id : value) (s : store) : store :=
  match getInverse def mapper with
  | Some inverseDef =>
      if truthy currentParent
      then removeInverseRelation this currentParent id inverseDef (idAttribute mapper) s
      else s
  | None => s
  end.

(** Lines 84-90: the record the link will hold, the store's own record
    preferred. *)
Definition prefer_store_record (this : loc) (record : value) (s : store) : value :=
  let relatedId := utils_get s record (idAttribute (getRelation def)) in
  if bool_decide (relatedId ≠ VUndef) && _get_added s this
  then js_or (store_get s (relation def) relatedId) record
  else record.

(** Lines 82-107: attach to the new parent, or unset the link. *)
Definition set_attach (this : loc) (record id : value) (s : store) : value * store :=
  if truthy record then
    let relatedId := utils_get s record (idAttribute (getRelation def)) in
    let record := prefer_store_record this record s in
    let s := safeSetLink (VRef this) (localField def) record s in
    let s := safeSetProp (VRef this) (foreignKey def) relatedId s in
    let s := updateIndex name (VRef this) (foreignKey def) s in
    let s :=
      match getInverse def mapper with
      | Some inverseDef =>
          setupInverseRelation this record id inverseDef (idAttribute mapper) s
      | None => s
      end in
    (record, s)
  else
    (record, safeSetLink (VRef this) (localField def) VUndef s).

(** [descriptor.set], the link-field setter ([comment.post = somePost]). *)
Definition set (this : loc) (record : value) (s : store) : value * store :=
  let currentParent := _get_link s this (localField def) in
  if decide (record = currentParent) then (currentParent, s)
  else
    let id := utils_get s (VRef this) (idAttribute mapper) in
    let s := set_teardown this currentParent id s in
    set_attach this record id s.

(** [utils.get(this, localField)] reads the link field of the record,
    which runs the getter [defineMapper] gives the field (DataStore source,
    lines 104 and 113-123): [this._get(path)], handed to [def.get] when the
    definition has one. *)
Definition utils_get_link (this : loc) (s : store) : value :=
  let getter : store → value := λ s, _get_link s this (localField def) in
  match def_get def with
  | Some hook => hook this getter s
  | None => getter s
  end.

(** [utils.set(this, localField, value)] assigns the link field of the
    record, which runs the setter [defineMapper] gives the field (lines
    124-129): [descriptor.set], handed to [def.set] when the definition has
    one, the callback passing on the record assigned when it is called
    with [undefined]. *)
Definition utils_set_link (this : loc) (v : value) : M unit :=
  let origSet : value → M value :=
    λ record s, let r := set this record s in Ok r.1 r.2 in
  match def_set def with
  | Some hook =>
      hook this v (λ value, origSet (if decide (value = VUndef) then v else value)) ;;
      mret tt
  | None => origSet v ;; mret tt
  end.

(** [foreignKeyDescriptor.get]: an accessor found on the prototype
    ([originalGet]) is asked first. *)
Definition foreignKey_get (originalGet : option (loc → store → value))
    (this : loc) (s : store) : value :=
  match originalGet with
  | Some g => g this s
  | None => _get_prop s this (foreignKey def)
  end.

(** Lines 130-161 of [foreignKeyDescriptor.set]: what follows the call
    of the accessor found on the prototype. The link field is read and
    assigned through its accessor, so [def.get] and [def.set] run, and
    what they throw is thrown here. *)
Definition foreignKey_assign (this : loc) (v : value) : M unit := λ s,
  let currentParent := utils_get_link this s in
  let id := utils_get s (VRef this) (idAttribute mapper) in
  let inverseDef := getInverse def mapper in
  let currentParentId :=
    if truthy currentParent
    then utils_get s currentParent (idAttribute (getRelation def))
    else VUndef in
  let s :=
    match inverseDef with
    | Some inverseDef =>
        if truthy currentParent && bool_decide (currentParentId ≠ VUndef)
           && bool_decide (currentParentId ≠ v)
        then
          if decide (type inverseDef = hasOneType) then
            safeSetLink currentParent (localField inverseDef) VUndef s
          else if decide (type inverseDef = hasManyType) then
            update_children currentParent (localField inverseDef)
              (utils_remove (same_child s this id (idAttribute mapper))) s
          else s
        else s
    | None => s
    end in
  let s := safeSetProp (VRef this) (foreignKey def) v s in
  let s := updateIndex name (VRef this) (foreignKey def) s in
  if bool_decide (v = VUndef) || bool_decide (v = VNull) then
    if bool_decide (currentParentId ≠ VUndef)
    then utils_set_link this VUndef s
    else Ok tt s
  else if _get_added s this then
    let storeRecord := store_get s (relation def) v in
    if truthy storeRecord then utils_set_link this storeRecord s else Ok tt s
  else Ok tt s.

(** [foreignKeyDescriptor.set], run when the scalar foreign key is
    assigned ([comment.postId = 5]). *)
Definition foreignKey_set (originalSet : option (loc → value → M value))
    (this : loc) (v : value) : M value :=
  match originalSet with
  | Some f => f this v ;; foreignKey_assign this v ;; mret VUndef
  | None => foreignKey_assign this v ;; mret VUndef
  end.

(** [createDescriptor]: makes sure the children's collection indexes
    the foreign key, wraps the foreign-key accessor of the prototype and
    yields the link-field descriptor. The descriptor of the foreign key is
    the one the property has, [configurable] included, or a new one that
    says [enumerable] only; defining it (line 163) is a [TypeError] when
    the property exists and is not configurable, as it is after an earlier
    call for the same foreign key. *)
Definition createDescriptor (prototype : gmap string Descriptor)
    : M (option Descriptor * gmap string Descriptor) :=
  lift (λ s,
    match indexes s !! (name, foreignKey def) with
    | Some _ => s
    | None => createIndex name (foreignKey def) s
    end) ;;
  let descriptor :=
    {| d_get := None;
       d_set := Some (λ this record s, let r := set this record s in Ok r.1 r.2);
       d_enumerable := false;
       d_configurable := None |} in
  let foreignKeyDescriptor :=
    default {| d_get := None; d_set := None; d_enumerable := true;
               d_configurable := None |}
            (prototype !! foreignKey def) in
  let foreignKeyDescriptor :=
    {| d_get := Some (foreignKey_get (d_get foreignKeyDescriptor));
       d_set := Some (foreignKey_set (d_set foreignKeyDescriptor));
       d_enumerable := d_enumerable foreignKeyDescriptor;
       d_configurable := d_configurable foreignKeyDescriptor |} in
  prototype ← defineProperty prototype (foreignKey def) foreignKeyDescriptor;
  mret (Some descriptor, prototype).

(** [BelongsToRelation.createChildRecord]: always throws, whatever it
    is called with. *)
Definition createChildRecord {A : Type} : M A :=
  throw (Error (dquote ++ "BelongsTo" ++ dquote ++
    " relation does not support child creation as it cannot have children.")%string).

End Descriptor.

End BelongsTo.

(** ** HasOne (src/Relation/HasOne.js) *)

Module HasOne.

Section Descriptor.

Variable getInverse : Relation → Mapper → option Relation.
Variable getRelation : Relation → Mapper.
Variable mapper : Mapper.
Variable def : Relation.

(** Lines 45-50: unset the inverse relation of the current child. *)
Definition unset_inverse (current : value) (inverseLocalField : string)
    (s : store) : store :=
  if truthy current then
    let s := safeSetProp current (foreignKey def) VUndef s in
    let s := updateIndex (relation def) current (foreignKey def) s in
    safeSetLink current inverseLocalField VUndef s
  else s.

(** The link-field setter ([user.profile = someProfile]). Reading
    [.localField] of an inverse definition that does not exist is a
    [TypeError]. *)
Definition set (this : loc) (record : value) : M value := λ s,
  let current := _get_link s this (localField def) in
  if decide (record = current) then Ok current s
  else
    match getInverse def mapper with
    | None => Throw (TypeError "Cannot read property 'localField' of undefined") s
    | Some inverseDef =>
        let inverseLocalField := localField inverseDef in
        let s := unset_inverse current inverseLocalField s in
        if truthy record then
          let relatedId := utils_get s record (idAttribute (getRelation def)) in
          let record :=
            if bool_decide (relatedId ≠ VUndef)
            then js_or (store_get s (relation def) relatedId) record
            else record in
          let s := safeSetLink (VRef this) (localField def) record s in
          let s := safeSetProp record (foreignKey def)
                     (utils_get s (VRef this) (idAttribute mapper)) s in
          let s := updateIndex (relation def) record (foreignKey def) s in
          let s := safeSetLink record inverseLocalField (VRef this) s in
          Ok record s
        else
          Ok record (safeSetLink (VRef this) (localField def) VUndef s)
    end.

(** [createDescriptor]: indexes the foreign key on the related
    collection when that collection exists already. *)
Definition createDescriptor (name : string) (prototype : gmap string Descriptor)
    : M (option Descriptor * gmap string Descriptor) := λ s,
  let s :=
    match collections s !! relation def, indexes s !! (relation def, foreignKey def) with
    | Some _, None =>
        if negb (String.eqb (foreignKey def) EmptyString)
        then createIndex (relation def) (foreignKey def) s
        else s
    | _, _ => s
    end in
  Ok (Some {| d_get := None; d_set := Some set; d_enumerable := false;
              d_configurable := None |}, prototype) s.

End Descriptor.

End HasOne.

(** ** DataStore (src/DataStore.js) *)

Module DataStore.

(** An entry of [this.relationshipTypes]; the relation class is kept by
    its [TYPE_NAME]. *)
Record RelationshipType : Type := {
  RelationshipClass : string;
  createDescriptor : CreateDescriptor
}.

(** The store object as far as these methods read it. *)
Record t : Type := {
  unlinkOnDestroy : value;
  relationshipTypes : gmap string RelationshipType
}.

Definition DATASTORE_DEFAULTS : gmap string value :=
  {[ "unlinkOnDestroy" := VBool true ]}.

(** Modelled from the spec: [utils.fillIn(dest, src)], "Fill in any missing
    options with the defaults" as the constructor says of it; an option
    given as [undefined] counts as missing. *)
Definition fillIn (dest src : gmap string value) : gmap string value :=
  merge (λ d s,
    match d with
    | Some VUndef | None => match s with Some v => Some v | None => d end
    | Some _ => d
    end) dest src.

(** [registerRelationshipType (type, relationshipClass, descriptor)] *)
Definition registerRelationshipType (type : string) (relationshipClass : string)
    (descriptor : CreateDescriptor) (self : t) : t :=
  {| unlinkOnDestroy := unlinkOnDestroy self;
     relationshipTypes :=
       <[type := {| RelationshipClass := relationshipClass;
                    createDescriptor := descriptor |}]> (relationshipTypes self) |}.

(** Modelled from the spec: [utils.set(record, field, value)] assigns the
    field of the record. A computed field ("field that is really a method",
    with its "read/write intercept") runs the setter its record class
    carries: the foreign-key setter relies on it when it sets the link
    field through [utils.set(this, localField, storeRecord)]. Any other
    field is stored. Assigning an accessor that has no setter is a
    [TypeError] in strict code. *)
Definition utils_set (prototype : gmap string Descriptor) (record : value)
    (field : string) (v : value) : M unit :=
  match record with
  | VRef l =>
      match prototype !! field with
      | Some d =>
          match d_set d with
          | Some f => f l v ;; mret tt
          | None => throw (TypeError "Cannot set property which has only a getter")
          end
      | None => lift (with_props <[(l, field) := v]>)
      end
  | _ => mret tt
  end.

(** [array.forEach(fn)] with a callback that may throw. *)
Fixpoint forEach {A : Type} (fn : A → M unit) (array : list A) : M unit :=
  match array with
  | [] => mret tt
  | x :: rest => fn x ;; forEach fn rest
  end.

(** Modelled from the spec: [utils.forEachRelation(mapper, opts, fn)] with
    [opts.withAll] set calls [fn] "for every Relation Definition on the
    mapper", in the order of the relation list. *)
Definition forEachRelation (mapper : Mapper) (fn : Relation → M unit) : M unit :=
  forEach fn (relationList mapper).

Section Methods.

Variable getInverse : Relation → Mapper → option Relation.
Variable getRelation : Relation → Mapper.

(** [HasMany.js] is not among the sources: its descriptor factory is
    whatever the constructor registers under [hasManyType]. *)
Variable createHasManyDescriptor : CreateDescriptor.

(** The methods of [SimpleStore] that [DataStore] extends, not among the
    sources: [newMapper] builds the mapper of a name from its options and
    yields it with the prototype of its record class; the destroy calls
    yield their result once the persistence call has resolved, or fail;
    [getMapper] and [recordClass_prototype] give the mapper of a name and
    the prototype of its record class. *)
Variable MapperOpts : Type.
Variable newMapper : string → MapperOpts → M (Mapper * gmap string Descriptor).
Variable SimpleStore_destroy : string → value → gmap string value → M value.
Variable SimpleStore_destroyAll : string → value → gmap string value → M value.
Variable getMapper : string → Mapper.
Variable recordClass_prototype : string → gmap string Descriptor.

(** The constructor. [this.relationshipTypes] may have been filled by a
    subclass before. Modelled from the spec: [SimpleStore.call(this,
    opts)] keeps the filled-in options on the store, so that
    [this.unlinkOnDestroy] reads [opts.unlinkOnDestroy]
    ("[opts.unlinkOnDestroy=true] See DataStore#unlinkOnDestroy"). *)
Definition DataStore (this_relationshipTypes : option (gmap string RelationshipType))
    (opts : option (gmap string value)) : t :=
  let opts := default ∅ opts in
  let opts := fillIn opts DATASTORE_DEFAULTS in
  let this :=
    {| unlinkOnDestroy := default VUndef (opts !! "unlinkOnDestroy");
       relationshipTypes := default ∅ this_relationshipTypes |} in
  let this :=
    registerRelationshipType belongsToType belongsToType
      (BelongsTo.createDescriptor getInverse getRelation) this in
  let this :=
    registerRelationshipType hasManyType hasManyType createHasManyDescriptor this in
  registerRelationshipType hasOneType hasOneType
    (HasOne.createDescriptor getInverse getRelation) this.

(** Modelled from the spec: [SimpleStore.prototype.defineMapper], which
    is handed the registry in [opts._relationshipTypes] "so that
    instantiator functions can be bound to the mapper inside its
    constructor" (lines 96-100). The kind of every relation of the mapper
    is looked up there, and "[lookup(kind)] fails with an
    UnknownRelationKind error if the kind was never registered"
    (section 4.1), the "unregistered relation kind" among the
    configuration errors of section 6. *)
Definition SimpleStore_defineMapper (name : string) (opts : MapperOpts)
    (_relationshipTypes : gmap string RelationshipType)
    : M (Mapper * gmap string Descriptor) :=
  mp ← newMapper name opts;
  forEach (λ def,
    match _relationshipTypes !! type def with
    | Some _ => mret tt
    | None => throw (Error ("UnknownRelationKind: " ++ type def)%string)
    end) (relationList mp.1) ;;
  mret mp.

(** The body of the loop of [defineMapper] (lines 101-131) for one
    relation definition. Defining the link field (line 130) is a
    [TypeError] when the prototype has a property of that name that is not
    configurable. *)
Definition install (self : t) (mapper : Mapper) (name : string) (def : Relation)
    (prototype : gmap string Descriptor) : M (gmap string Descriptor) :=
  let getter : loc → store → value := λ this s, _get_link s this (localField def) in
  r ← match relationshipTypes self !! type def with
      | Some rt => createDescriptor rt mapper def name prototype
      | None => mret (None, prototype)
      end;
  match r.1 with
  | Some descriptor =>
      let get := default getter (d_get descriptor) in
      let get :=
        match def_get def with
        | Some hook => λ this, hook this (get this)
        | None => get
        end in
      let origSet : loc → value → M value :=
        match d_set descriptor with
        | Some f => f
        | None => λ _ _, throw (TypeError "origSet is undefined")
        end in
      let set :=
        match def_set def with
        | Some hook =>
            Some (λ this related,
              hook this related
                (λ v, origSet this (if decide (v = VUndef) then related else v)))
        | None => d_set descriptor
        end in
      defineProperty r.2 (localField def)
        {| d_get := Some get; d_set := set;
           d_enumerable := default false (enumerable def);
           d_configurable := d_configurable descriptor |}
  | None => mret r.2
  end.

Fixpoint install_all (self : t) (mapper : Mapper) (name : string)
    (defs : list Relation) (prototype : gmap string Descriptor)
    : M (gmap string Descriptor) :=
  match defs with
  | [] => mret prototype
  | def :: rest =>
      prototype ← install self mapper name def prototype;
      install_all self mapper name rest prototype
  end.

(** [defineMapper (name, opts)]; [registry] is [opts._relationshipTypes]
    when the caller passed one. *)
Definition defineMapper (self : t) (name : string) (opts : MapperOpts)
    (registry : option (gmap string RelationshipType))
    : M (Mapper * gmap string Descriptor) :=
  let _relationshipTypes := default (relationshipTypes self) registry in
  mp ← SimpleStore_defineMapper name opts _relationshipTypes;
  prototype ← install_all self mp.1 name (relationList mp.1) mp.2;
  mret (mp.1, prototype).

(** The unlink pass of [destroy] (lines 147-153). *)
Definition unlink (self : t) (name : string) (record : value) : M unit :=
  if truthy record && truthy (unlinkOnDestroy self) then
    forEachRelation (getMapper name) (λ def,
      utils_set (recordClass_prototype name) record (localField def) VUndef)
  else mret tt.

(** [destroy (name, id, opts)] *)
Definition destroy (self : t) (name : string) (id : value)
    (opts : option (gmap string value)) : M value :=
  let opts := default ∅ opts in
  result ← SimpleStore_destroy name id opts;
  record ← (λ s,
    Ok (if truthy (default VUndef (opts !! "raw"))
        then utils_get s result "data" else result) s);
  unlink self name record ;;
  mret result.

(** The unlink pass of [destroyAll] (lines 168-176); [records.length] of
    anything but an array is [undefined]. *)
Definition unlinkAll (self : t) (name : string) (records : value) : M unit :=
  match records with
  | VArr rs =>
      if negb (length rs =? 0)%nat && truthy (unlinkOnDestroy self) then
        forEachRelation (getMapper name) (λ def,
          forEach (λ record,
            utils_set (recordClass_prototype name) (VRef record)
              (localField def) VUndef) rs)
      else mret tt
  | _ => mret tt
  end.

(** [destroyAll (name, query, opts)] *)
Definition destroyAll (self : t) (name : string) (query : value)
    (opts : option (gmap string value)) : M value :=
  let opts := default ∅ opts in
  result ← SimpleStore_destroyAll name query opts;
  records ← (λ s,
    Ok (if truthy (default VUndef (opts !! "raw"))
        then utils_get s result "data" else result) s);
  unlinkAll self name records ;;
  mret result.

End Methods.

End DataStore.

(** ** The methods of the BelongsTo relation class
    (src/Relation/BelongsTo.js 8-48)

    [this] is the relation definition the method is called on. *)

Module BelongsToRelation.

Section Methods.

Variable getRelation : Relation → Mapper.
Variable this : Relation.

(** [getForeignKey (record)] *)
Definition getForeignKey (record : value) (s : store) : value :=
  utils_get s record (foreignKey this).

(** [_setForeignKey (record, relatedRecord)]: the foreign key is assigned
    through [utils.set], so the accessor the record class carries for it
    runs. *)
Definition _setForeignKey (prototype : gmap string Descriptor)
    (record relatedRecord : value) : M unit := λ s,
  DataStore.utils_set prototype record (foreignKey this)
    (utils_get s relatedRecord (idAttribute (getRelation this))) s.

(** Modelled from the spec: [this.relatedCollection] is the Collection of
    the related entity type, whose [get(id)] yields "Record or undefined"
    (section 4.2). *)
Definition relatedCollection_get (id : value) (s : store) : value :=
  store_get s (relation this) id.

(** [findExistingLinksFor (record)]: the parent the foreign key of the
    record designates, if the related collection holds it. *)
Definition findExistingLinksFor (record : value) (s : store) : value :=
  if negb (truthy record) then VUndef
  else
    let relatedId := utils_get s record (foreignKey this) in
    if bool_decide (relatedId ≠ VUndef) && bool_decide (relatedId ≠ VNull)
    then relatedCollection_get relatedId s
    else VUndef.

End Methods.

End BelongsToRelation.

(** ** The schema of section 8: comments that belong to posts

    [comment] belongsTo [post] through [postId], with the inverse hasMany
    [comments] on [post]. Posts 1 and 2 and comment 10 are in the store;
    comment 11 is a record the store does not hold, and so is object 3, a
    copy of post 1 with the same identifier. *)

Module Scenario.

Definition commentPost : Relation :=
  {| type := belongsToType; relation := "post"; foreignKey := "postId";
     localField := "post"; enumerable := None; def_get := None; def_set := None |}.

Definition postComments : Relation :=
  {| type := hasManyType; relation := "comment"; foreignKey := "postId";
     localField := "comments"; enumerable := None; def_get := None; def_set := None |}.

(** A user has one profile, which belongs to the user through [userId]. *)
Definition userProfile : Relation :=
  {| type := hasOneType; relation := "profile"; foreignKey := "userId";
     localField := "profile"; enumerable := None; def_get := None; def_set := None |}.

Definition profileUser : Relation :=
  {| type := belongsToType; relation := "user"; foreignKey := "userId";
     localField := "user"; enumerable := None; def_get := None; def_set := None |}.

(** A relation of a kind nobody registered. *)
Definition postTags : Relation :=
  {| type := "manyToMany"; relation := "tag"; foreignKey := "tagIds";
     localField := "tags"; enumerable := None; def_get := None; def_set := None |}.

Definition Comment : Mapper := {| idAttribute := "id"; relationList := [commentPost] |}.
Definition Post : Mapper := {| idAttribute := "id"; relationList := [postComments] |}.
Definition User : Mapper := {| idAttribute := "id"; relationList := [userProfile] |}.
Definition Profile : Mapper := {| idAttribute := "id"; relationList := [profileUser] |}.
Definition TaggedPost : Mapper :=
  {| idAttribute := "id"; relationList := [postTags; postComments] |}.

Definition getMapper (name : string) : Mapper :=
  if decide (name = "post") then Post
  else if decide (name = "comment") then Comment
  else if decide (name = "user") then User
  else Profile.

Definition getRelation (def : Relation) : Mapper := getMapper (relation def).

Definition getInverse (def : Relation) (m : Mapper) : option Relation :=
  if decide (localField def = "post") then Some postComments
  else if decide (localField def = "comments") then Some commentPost
  else if decide (localField def = "profile") then Some profileUser
  else if decide (localField def = "user") then Some userProfile
  else None.

(** The schema without any inverse declared. *)
Definition noInverse (def : Relation) (m : Mapper) : option Relation := None.

Definition post1 : loc := 1%positive.
Definition post2 : loc := 2%positive.
Definition post1_copy : loc := 3%positive.
Definition comment1 : loc := 10%positive.
Definition comment2 : loc := 11%positive.
Definition user1 : loc := 20%positive.
Definition profile1 : loc := 21%positive.

Definition s0 : store :=
  {| props := {[ (post1, "id") := VNum 1; (post2, "id") := VNum 2;
                 (post1_copy, "id") := VNum 1;
                 (comment1, "id") := VNum 10; (comment2, "id") := VNum 11;
                 (user1, "id") := VNum 5; (profile1, "id") := VNum 7 ]};
     links := ∅;
     added := {[ post1; post2; comment1; user1; profile1 ]};
     collections := {[ "post" := {[ inl 1%Z := post1; inl 2%Z := post2 ]};
                       "comment" := {[ inl 10%Z := comment1 ]};
                       "user" := {[ inl 5%Z := user1 ]};
                       "profile" := {[ inl 7%Z := profile1 ]} ]};
     indexes := {[ ("comment", "postId") := [(VUndef, [comment1])];
                   ("profile", "userId") := [(VUndef, [profile1])] ]} |}.

(** [comment.post = record] and [comment.postId = v] *)
Definition setLink (comment : loc) (record : value) (s : store) : store :=
  (BelongsTo.set getInverse getRelation Comment commentPost "comment" comment record s).2.

Definition setForeignKey (comment : loc) (v : value) (s : store) : store :=
  final_store
    (BelongsTo.foreignKey_set getInverse getRelation Comment commentPost "comment"
       None comment v s).

(** [user.profile = record] *)
Definition setProfile (user : loc) (record : value) : M value :=
  HasOne.set getInverse getRelation User userProfile user record.

(** Stand-ins for what is not among the sources: a descriptor factory for
    [hasMany] that yields no descriptor, a mapper construction that takes
    the mapper as its options and starts from an empty prototype, and
    destroy calls that take the record out of its collection and yield it. *)
Definition createHasManyDescriptor (mapper : Mapper) (def : Relation) (name : string)
    (prototype : gmap string Descriptor)
    : M (option Descriptor * gmap string Descriptor) :=
  mret (None, prototype).

Definition newMapper (name : string) (opts : Mapper)
    : M (Mapper * gmap string Descriptor) :=
  mret (opts, ∅).

Definition SimpleStore_destroy (name : string) (id : value) (opts : gmap string value)
    : M value := λ s,
  match store_get s name id, to_key id with
  | VRef l, Some k =>
      Ok (VRef l)
        (Store (props s) (links s) (added s ∖ {[l]})
           (alter (delete k) name (collections s)) (indexes s))
  | _, _ => Ok VUndef s
  end.

Definition SimpleStore_destroyAll (name : string) (query : value)
    (opts : gmap string value) : M value :=
  mret (VArr []).

(** The link field [user.profile] as [defineMapper] installs it. *)
Definition prototypes (name : string) : gmap string Descriptor :=
  if decide (name = "user") then
    {[ "profile" :=
         {| d_get := Some (λ this s, _get_link s this "profile");
            d_set := Some (HasOne.set getInverse getRelation User userProfile);
            d_enumerable := false;
            d_configurable := None |} ]}
  else ∅.

Definition theStore : DataStore.t :=
  DataStore.DataStore getInverse getRelation createHasManyDescriptor None None.

Definition destroy (name : string) (id : value) : M value :=
  DataStore.destroy SimpleStore_destroy getMapper prototypes theStore name id None.

End Scenario.

(** * Vocabulary of the properties *)

(** ** The maps the primitives write *)

(** The link map written by [safeSetLink] and by [update_children]. *)
Definition link_write (r : value) (f : string) (v : value)
    (m : gmap (loc * string) value) : gmap (loc * string) value :=
  match r with VRef l => <[(l, f) := v]> m | _ => m end.

Definition children_write (r : value) (f : string) (op : list loc → list loc)
    (m : gmap (loc * string) value) : gmap (loc * string) value :=
  match r with
  | VRef p =>
      match default VUndef (m !! (p, f)) with
      | VArr a => <[(p, f) := VArr (op a)]> m
      | v => if truthy v then m else <[(p, f) := VArr (op [])]> m
      end
  | _ => m
  end.

(** The index written by [updateIndex]. *)
Definition index_write (n : string) (r : value) (f : string) (k : value)
    (m : gmap (string * string) (list (value * list loc)))
    : gmap (string * string) (list (value * list loc)) :=
  match r with
  | VRef l =>
      match m !! (n, f) with
      | Some ix => <[(n, f) := insertRecord k l (removeRecord l ix)]> m
      | None => m
      end
  | _ => m
  end.

Arguments link_write : simpl never.
Arguments children_write : simpl never.
Arguments index_write : simpl never.

(** The membership test in terms of the scalar fields it reads. *)
Definition child_test (ps : gmap (loc * string) value) (this : loc) (id : value)
    (idAttr : string) (child : loc) : bool :=
  if decide (id = VUndef) then bool_decide (child = this)
  else bool_decide (child = this)
       || bool_decide (id = default VUndef (ps !! (child, idAttr))).

(** ** What an inverse slot or collection contains *)

(** How often [C] occurs in the inverse link field [f] of [P]: a to-one
    slot holds it once or not at all, a collection is counted. *)
Definition occurrences (s : store) (f : string) (P C : loc) : nat :=
  match _get_link s P f with
  | VRef c => if decide (c = C) then 1 else 0
  | VArr a => count_occ Pos.eq_dec a C
  | _ => 0
  end.

(** The collection a to-many link field reads as, if it is one. *)
Definition children (s : store) (P : loc) (f : string) : option (list loc) :=
  match _get_link s P f with
  | VArr a => Some a
  | v => if truthy v then None else Some []
  end.

(** The data-model invariant on the inverse field of parent [P] as far as
    child [C] is concerned: the inverse is to-one, or it is a collection
    that holds [C] at most once and in which only [C] itself passes the
    membership test for [C] (identifiers are unique). *)
Definition inverse_ok (s : store) (idAttr : string) (inv : Relation) (C P : loc) : Prop :=
  type inv = hasOneType
  ∨ (type inv = hasManyType
     ∧ ∃ a, children s P (localField inv) = Some a
          ∧ count_occ Pos.eq_dec a C ≤ 1
          ∧ ∀ x, In x a →
              child_test (props s) C (utils_get s (VRef C) idAttr) idAttr x = true →
              x = C).

(** The same, read from the link map. *)
Definition view (m : gmap (loc * string) value) (P : loc) (f : string)
    : option (list loc) :=
  match default VUndef (m !! (P, f)) with
  | VArr a => Some a
  | v => if truthy v then None else Some []
  end.

Definition occ (m : gmap (loc * string) value) (f : string) (P C : loc) : nat :=
  match default VUndef (m !! (P, f)) with
  | VRef c => if decide (c = C) then 1 else 0
  | VArr a => count_occ Pos.eq_dec a C
  | _ => 0
  end.

(** ** The BelongsTo setters and their invariant *)

Section BelongsToVocabulary.

Variable getInverse : Relation → Mapper → option Relation.
Variable getRelation : Relation → Mapper.
Variable mapper : Mapper.
Variable def : Relation.

Local Abbreviation rid := (idAttribute (getRelation def)).
Local Abbreviation L := (localField def).
Local Abbreviation FK := (foreignKey def).

(** The links after the teardown and after the attach, as functions of
    the links before. *)
Definition teardown_links (pred : loc → bool) (cur : value)
    (m : gmap (loc * string) value) : gmap (loc * string) value :=
  match getInverse def mapper with
  | Some inv =>
      if truthy cur then
        if decide (type inv = hasOneType) then link_write cur (localField inv) VUndef m
        else if decide (type inv = hasManyType) then
          children_write cur (localField inv) (utils_remove pred) m
        else m
      else m
  | None => m
  end.

Definition attach_links (pred : loc → bool) (this : loc) (record : value)
    (m : gmap (loc * string) value) : gmap (loc * string) value :=
  match getInverse def mapper with
  | Some inv =>
      if decide (type inv = hasOneType) then
        link_write record (localField inv) (VRef this) m
      else if decide (type inv = hasManyType) then
        children_write record (localField inv) (utils_noDupeAdd this pred) m
      else m
  | None => m
  end.

(** The foreign-key setter of a relation that has neither [def.get] nor
    [def.set]: the accessor of the link field then reads the stored slot
    and assigns through [descriptor.set], nothing throws, and the setter
    is a function on the store. *)
Definition plain_set_link (name : string) (this : loc) (v : value) (s : store) : store :=
  (BelongsTo.set getInverse getRelation mapper def name this v s).2.

Definition plain_assign (name : string) (this : loc) (v : value) (s : store) : store :=
  let currentParent := _get_link s this (localField def) in
  let id := utils_get s (VRef this) (idAttribute mapper) in
  let inverseDef := getInverse def mapper in
  let currentParentId :=
    if truthy currentParent
    then utils_get s currentParent (idAttribute (getRelation def))
    else VUndef in
  let s :=
    match inverseDef with
    | Some inverseDef =>
        if truthy currentParent && bool_decide (currentParentId ≠ VUndef)
           && bool_decide (currentParentId ≠ v)
        then
          if decide (type inverseDef = hasOneType) then
            safeSetLink currentParent (localField inverseDef) VUndef s
          else if decide (type inverseDef = hasManyType) then
            update_children currentParent (localField inverseDef)
              (utils_remove (same_child s this id (idAttribute mapper))) s
          else s
        else s
    | None => s
    end in
  let s := safeSetProp (VRef this) (foreignKey def) v s in
  let s := updateIndex name (VRef this) (foreignKey def) s in
  if bool_decide (v = VUndef) || bool_decide (v = VNull) then
    if bool_decide (currentParentId ≠ VUndef)
    then plain_set_link name this VUndef s
    else s
  else if _get_added s this then
    let storeRecord := store_get s (relation def) v in
    if truthy storeRecord then plain_set_link name this storeRecord s else s
  else s.

(** A defined link field goes with the foreign key of the record it holds. *)
Definition link_consistent (s : store) (C : loc) : Prop :=
  _get_link s C L ≠ VUndef →
  utils_get s (VRef C) FK = utils_get s (_get_link s C L) rid.

(** A parent's inverse slot or collection contains the child exactly when
    the child's foreign key and link field are on that parent. *)
Definition inverse_consistent (s : store) (C : loc) : Prop :=
  ∀ inv P, getInverse def mapper = Some inv →
    0 < occurrences s (localField inv) P C
    ↔ (utils_get s (VRef C) FK = utils_get s (VRef P) rid
       ∧ _get_link s C L = VRef P).

(** The data-model invariants the two rest on: well-formed inverse fields,
    and a parent collection keyed by the identifiers of its records. *)
Definition inverse_fields_ok (s : store) (C : loc) : Prop :=
  ∀ inv P, getInverse def mapper = Some inv →
    inverse_ok s (idAttribute mapper) inv C P.

Definition well_keyed (s : store) : Prop :=
  ∀ v l, store_get s (relation def) v = VRef l → utils_get s (VRef l) rid = v.

Definition linked_invariant (s : store) (C : loc) : Prop :=
  link_consistent s C ∧ inverse_consistent s C
  ∧ inverse_fields_ok s C ∧ well_keyed s.

(** Between the link maps [m] and [m'], where another child [C2] was
    relinked, nothing changed for the child [C]: its link field is as
    before, and every inverse collection holds [C] as often as before and
    has no new member but [C2]. *)
Definition kept_for (C C2 : loc) (m m' : gmap (loc * string) value) : Prop :=
  m' !! (C, L) = m !! (C, L)
  ∧ ∀ inv P a, getInverse def mapper = Some inv →
      view m P (localField inv) = Some a →
      ∃ a', view m' P (localField inv) = Some a'
            ∧ count_occ Pos.eq_dec a' C = count_occ Pos.eq_dec a C
            ∧ ∀ x, In x a' → In x a ∨ x = C2.

End BelongsToVocabulary.

(** ** The DataStore *)

(** A relation that [install] passes over: its kind is not registered, or
    the registered factory yields no descriptor and leaves prototype and
    store alone. *)
Definition passed_over (self : DataStore.t) (mapper : Mapper) (name : string)
    (def : Relation) : Prop :=
  match DataStore.relationshipTypes self !! type def with
  | None => True
  | Some rt =>
      ∀ prototype s, DataStore.createDescriptor rt mapper def name prototype s
                     = Ok (None, prototype) s
  end.

Section UnlinkVocabulary.

Variable getInverse : Relation → Mapper → option Relation.
Variable getRelation : Relation → Mapper.

(** The setter that [createDescriptor] of BelongsTo or of HasOne puts in
    the descriptor of a link field. *)
Definition link_setter (mapper : Mapper) (name : string) (def : Relation)
    : loc → value → M value :=
  if decide (type def = belongsToType) then
    λ this record s,
      let r := BelongsTo.set getInverse getRelation mapper def name this record s in
      Ok r.1 r.2
  else HasOne.set getInverse getRelation mapper def.

(** A BelongsTo relation, or a HasOne relation with its inverse, whose link
    field carries that setter on the prototype. *)
Definition installed (prototype : gmap string Descriptor) (mapper : Mapper)
    (name : string) (def : Relation) : Prop :=
  (type def = belongsToType
   ∨ (type def = hasOneType ∧ is_Some (getInverse def mapper)))
  ∧ ∃ d, prototype !! localField def = Some d
         ∧ d_set d = Some (link_setter mapper name def).

End UnlinkVocabulary.

(** ** What [defineMapper] installs *)

Section InstallVocabulary.

Variable getInverse : Relation → Mapper → option Relation.
Variable getRelation : Relation → Mapper.

(** The two kinds whose factories are among the sources, as the
    constructor registers them. *)
Definition registers_builtins (self : DataStore.t) : Prop :=
  DataStore.relationshipTypes self !! belongsToType
  = Some {| DataStore.RelationshipClass := belongsToType;
            DataStore.createDescriptor :=
              BelongsTo.createDescriptor getInverse getRelation |}
  ∧ DataStore.relationshipTypes self !! hasOneType
    = Some {| DataStore.RelationshipClass := hasOneType;
              DataStore.createDescriptor :=
                HasOne.createDescriptor getInverse getRelation |}.

(** A relation of one of these kinds. *)
Definition builtin_kind (def : Relation) : Prop :=
  type def = belongsToType ∨ type def = hasOneType.

(** The descriptor of a link field without [def.get] and [def.set]: the
    getter of [defineMapper], the setter of the kind, and the
    enumerability of the definition, [false] when it gives none. *)
Definition link_descriptor (mapper : Mapper) (name : string) (def : Relation)
    : Descriptor :=
  {| d_get := Some (λ this s, _get_link s this (localField def));
     d_set := Some (link_setter getInverse getRelation mapper name def);
     d_enumerable := default false (enumerable def);
     d_configurable := None |}.

(** The accessor of a foreign key that had none before. *)
Definition foreignKey_accessor (mapper : Mapper) (name : string) (def : Relation)
    : Descriptor :=
  {| d_get := Some (BelongsTo.foreignKey_get def None);
     d_set := Some (BelongsTo.foreignKey_set getInverse getRelation mapper def name None);
     d_enumerable := true;
     d_configurable := None |}.

(** The accessor that [createDescriptor] of BelongsTo defines for the
    foreign key, given the property the prototype has for it, if any. *)
Definition wrapped_accessor (mapper : Mapper) (name : string) (def : Relation)
    (current : option Descriptor) : Descriptor :=
  {| d_get := Some (BelongsTo.foreignKey_get def (current ≫= d_get));
     d_set := Some (BelongsTo.foreignKey_set getInverse getRelation mapper def name
                      (current ≫= d_set));
     d_enumerable := from_option d_enumerable true current;
     d_configurable := current ≫= d_configurable |}.

(** The prototype has no property of that name, or one the language lets
    be redefined. *)
Definition redefinable (prototype : gmap string Descriptor) (key : string) : Prop :=
  ∀ d, prototype !! key = Some d → configurable d = true.

(** The foreign keys of the BelongsTo relations of a list. *)
Definition belongsTo_keys (defs : list Relation) : list string :=
  foreignKey <$> filter (λ def, type def = belongsToType) defs.

End InstallVocabulary.

(** ** What an unlink pass leaves of the records it is not aimed at *)

(** Between [s] and [s'], the records of [T] kept their scalar fields, and
    each of their link fields either is as before or is a field of [fs] of
    a record of [rs] that now reads [undefined]. *)
Definition unset_only (T : loc → Prop) (rs : list loc) (fs : list string)
    (s s' : store) : Prop :=
  (∀ t f, T t → props s' !! (t, f) = props s !! (t, f))
  ∧ (∀ t f, T t →
       links s' !! (t, f) = links s !! (t, f)
       ∨ (t ∈ rs ∧ f ∈ fs ∧ _get_link s' t f = VUndef)).

(** No record of [rs] is linked to a record of [T] through a field of [fs]. *)
Definition apart_from (T : loc → Prop) (rs : list loc) (fs : list string)
    (s : store) : Prop :=
  ∀ r f t, r ∈ rs → f ∈ fs → T t → _get_link s r f ≠ VRef t.

(** ** Further records and definitions of the scenario *)

Module Examples.

(** A detached copy of profile 7. *)
Definition profile1_copy : loc := 22%positive.

Definition s1 : store :=
  with_props <[(profile1_copy, "id") := VNum 7]> Scenario.s0.

(** [comment.post] with a [def.set] that hands the linking back through
    its callback, passing nothing. *)
Definition hookedPost : Relation :=
  {| type := belongsToType; relation := "post"; foreignKey := "postId";
     localField := "post"; enumerable := Some true; def_get := None;
     def_set := Some (λ this related orig, orig VUndef) |}.

(** [comment.post] with a [def.set] that links but never unlinks: it hands
    a record on to its callback and ignores anything else. *)
Definition keptPost : Relation :=
  {| type := belongsToType; relation := "post"; foreignKey := "postId";
     localField := "post"; enumerable := None; def_get := None;
     def_set := Some (λ this related orig,
                  if truthy related then orig related else mret VUndef) |}.


(** A second relation of comments to posts through the same foreign key. *)
Definition commentTopic : Relation :=
  {| type := belongsToType; relation := "post"; foreignKey := "postId";
     localField := "topic"; enumerable := None; def_get := None; def_set := None |}.

(** A second profile, with the identifier 8; a detached copy of comment
    10; and a post that has no identifier yet. None is held by the store. *)
Definition profile2 : loc := 23%positive.
Definition comment1_copy : loc := 12%positive.
Definition draft : loc := 4%positive.

Definition s2 : store :=
  with_props (λ ps, <[(profile2, "id") := VNum 8]>
                      (<[(comment1_copy, "id") := VNum 10]> ps)) Scenario.s0.

(** [profile.user = record] *)
Definition setUser (profile : loc) (record : value) (s : store) : store :=
  (BelongsTo.set Scenario.getInverse Scenario.getRelation Scenario.Profile
     Scenario.profileUser "profile" profile record s).2.

(** A stand-in for the bulk destroy of [SimpleStore]: every record of the
    collection is taken out and yielded. *)
Definition SimpleStore_destroyAll (name : string) (query : value)
    (opts : gmap string value) : M value := λ s,
  let rs := (map_to_list (default ∅ (collections s !! name))).*2 in
  Ok (VArr rs)
    (Store (props s) (links s) (added s ∖ list_to_set rs)
       (<[name := ∅]> (collections s)) (indexes s)).

(** A stand-in for the destroy of [SimpleStore] called with [raw]: the
    record taken out is the [data] of the result object it yields. *)
Definition rawResult : loc := 30%positive.

Definition SimpleStore_destroy_raw (name : string) (id : value)
    (opts : gmap string value) : M value := λ s,
  match Scenario.SimpleStore_destroy name id opts s with
  | Ok record s' => Ok (VRef rawResult) (with_props <[(rawResult, "data") := record]> s')
  | Throw e s' => Throw e s'
  end.

(** The accessors [defineMapper] puts on the record class of comments. *)
Definition commentPrototype : gmap string Descriptor :=
  {[ "post" := link_descriptor Scenario.getInverse Scenario.getRelation
                 Scenario.Comment "comment" Scenario.commentPost;
     "postId" := foreignKey_accessor Scenario.getInverse Scenario.getRelation
                   Scenario.Comment "comment" Scenario.commentPost ]}.

(** A record class of comments that tracks assignments of [postId]: the
    accessor it has for the key marks the record as changed. *)
Definition tracked : Descriptor :=
  {| d_get := Some (λ this s, _get_prop s this "postId");
     d_set := Some (λ this v,
                lift (with_props <[(this, "changed") := VBool true]>) ;; mret VUndef);
     d_enumerable := false;
     d_configurable := Some true |}.

Definition trackedPrototype : gmap string Descriptor := {[ "postId" := tracked ]}.

(** The prototypes of the record classes, that of comments included. *)
Definition prototypes (name : string) : gmap string Descriptor :=
  if decide (name = "comment") then commentPrototype else Scenario.prototypes name.

(** The record class of users when the schema declares no inverse for
    [user.profile], and a store in which user 5 holds profile 7 in that
    link field all the same. *)
Definition prototypesNoInverse (name : string) : gmap string Descriptor :=
  if decide (name = "user") then
    {[ "profile" :=
         {| d_get := Some (λ this s, _get_link s this "profile");
            d_set := Some (HasOne.set Scenario.noInverse Scenario.getRelation
                             Scenario.User Scenario.userProfile);
            d_enumerable := false;
            d_configurable := None |} ]}
  else ∅.

Definition s3 : store :=
  with_links <[(Scenario.user1, "profile") := VRef Scenario.profile1]> Scenario.s0.

(** Comments whose relation to posts has the [def.set] that never
    unlinks, and the record class [defineMapper] builds for them. *)
Definition KeptComment : Mapper := {| idAttribute := "id"; relationList := [keptPost] |}.

Definition getKeptMapper (name : string) : Mapper :=
  if decide (name = "comment") then KeptComment else Scenario.getMapper name.

Definition keptPrototypes (name : string) : gmap string Descriptor :=
  match DataStore.defineMapper Mapper Scenario.newMapper Scenario.theStore
          name (getKeptMapper name) None Scenario.s0 with
  | Ok r _ => r.2
  | Throw _ _ => ∅
  end.

End Examples.

(** * Properties *)

(** ** How the primitives change the components of the store *)

Ltac frame :=
  intros;
  unfold safeSetLink, safeSetProp, updateIndex, update_children, with_links,
    with_props, with_indexes;
  repeat case_match; done.

Lemma store_eq (s s' : store) :
  props s = props s' → links s = links s' → added s = added s' →
  collections s = collections s' → indexes s = indexes s' → s = s'.
Proof. destruct s, s'; simpl; congruence. Qed.

Section Frames.
Implicit Types (s : store) (r v : value) (f : string).

Lemma safeSetLink_props r f v s : props (safeSetLink r f v s) = props s.
Proof. frame. Qed.
Lemma safeSetLink_added r f v s : added (safeSetLink r f v s) = added s.
Proof. frame. Qed.
Lemma safeSetLink_collections r f v s : collections (safeSetLink r f v s) = collections s.
Proof. frame. Qed.
Lemma safeSetLink_indexes r f v s : indexes (safeSetLink r f v s) = indexes s.
Proof. frame. Qed.
Lemma safeSetLink_links r f v s :
  links (safeSetLink r f v s) = link_write r f v (links s).
Proof. by destruct r. Qed.

Lemma safeSetProp_links r f v s : links (safeSetProp r f v s) = links s.
Proof. frame. Qed.
Lemma safeSetProp_added r f v s : added (safeSetProp r f v s) = added s.
Proof. frame. Qed.
Lemma safeSetProp_collections r f v s : collections (safeSetProp r f v s) = collections s.
Proof. frame. Qed.
Lemma safeSetProp_indexes r f v s : indexes (safeSetProp r f v s) = indexes s.
Proof. frame. Qed.
Lemma safeSetProp_props r f v s :
  props (safeSetProp r f v s) = link_write r f v (props s).
Proof. by destruct r. Qed.

Lemma updateIndex_props n r f s : props (updateIndex n r f s) = props s.
Proof. frame. Qed.
Lemma updateIndex_links n r f s : links (updateIndex n r f s) = links s.
Proof. frame. Qed.
Lemma updateIndex_added n r f s : added (updateIndex n r f s) = added s.
Proof. frame. Qed.
Lemma updateIndex_collections n r f s : collections (updateIndex n r f s) = collections s.
Proof. frame. Qed.
Lemma updateIndex_indexes n r f s :
  indexes (updateIndex n r f s) = index_write n r f (utils_get s r f) (indexes s).
Proof. unfold updateIndex, index_write. repeat case_match; done. Qed.

Lemma update_children_props r f op s : props (update_children r f op s) = props s.
Proof. frame. Qed.
Lemma update_children_added r f op s : added (update_children r f op s) = added s.
Proof. frame. Qed.
Lemma update_children_collections r f op s :
  collections (update_children r f op s) = collections s.
Proof. frame. Qed.
Lemma update_children_indexes r f op s : indexes (update_children r f op s) = indexes s.
Proof. frame. Qed.
Lemma update_children_links r f op s :
  links (update_children r f op s) = children_write r f op (links s).
Proof. unfold update_children, children_write, _get_link. repeat case_match; done. Qed.

(** What a read depends on. *)
Lemma utils_get_props s s' r f : props s' = props s → utils_get s' r f = utils_get s r f.
Proof. intros H. destruct r; try done. unfold utils_get, _get_prop. by rewrite H. Qed.
Lemma store_get_collections s s' n v :
  collections s' = collections s → store_get s' n v = store_get s n v.
Proof. intros H. unfold store_get. by rewrite H. Qed.
Lemma _get_added_added s s' l : added s' = added s → _get_added s' l = _get_added s l.
Proof. intros H. unfold _get_added. by rewrite H. Qed.
End Frames.

#[global] Hint Rewrite safeSetLink_props safeSetLink_added safeSetLink_collections
  safeSetLink_indexes safeSetLink_links safeSetProp_links safeSetProp_added
  safeSetProp_collections safeSetProp_indexes safeSetProp_props
  updateIndex_props updateIndex_links updateIndex_added updateIndex_collections
  updateIndex_indexes
  update_children_props update_children_added update_children_collections
  update_children_indexes update_children_links : frames.

(** Predicates that agree select the same members. *)
Lemma utils_remove_ext (f g : loc → bool) (l : list loc) :
  (∀ x, f x = g x) → utils_remove f l = utils_remove g l.
Proof. intros E. induction l as [|x l IH]; simpl; [done|]. by rewrite E, IH. Qed.

Lemma utils_noDupeAdd_ext (f g : loc → bool) (c : loc) (l : list loc) :
  (∀ x, f x = g x) → utils_noDupeAdd c f l = utils_noDupeAdd c g l.
Proof.
  intros E. unfold utils_noDupeAdd.
  replace (existsb f l) with (existsb g l); [done|].
  induction l as [|x l IH]; simpl; [done|]. by rewrite E, IH.
Qed.

Lemma children_write_ext r f (op op' : list loc → list loc) m :
  (∀ a, op a = op' a) → children_write r f op m = children_write r f op' m.
Proof. intros E. unfold children_write. repeat case_match; by rewrite ?E. Qed.

Lemma same_child_test s this id idAttr child :
  same_child s this id idAttr child = child_test (props s) this id idAttr child.
Proof. done. Qed.

Lemma child_test_insert ps this id idAttr child k v :
  k.2 ≠ idAttr →
  child_test (<[k := v]> ps) this id idAttr child = child_test ps this id idAttr child.
Proof.
  intros Hk. unfold child_test. rewrite lookup_insert_ne; [done|].
  intros ->. done.
Qed.

(** ** What an inverse slot or collection contains *)

Lemma child_test_self ps C id idAttr : child_test ps C id idAttr C = true.
Proof. unfold child_test. case_decide; by rewrite bool_decide_true. Qed.

Lemma utils_remove_count (pred : loc → bool) (C : loc) (a : list loc) :
  pred C = true →
  count_occ Pos.eq_dec a C ≤ 1 →
  (∀ x, In x a → pred x = true → x = C) →
  count_occ Pos.eq_dec (utils_remove pred a) C = 0.
Proof.
  intros HC. induction a as [|x a IH]; intros Hc Hm; simpl in *; [done|].
  destruct (pred x) eqn:Hx.
  - assert (x = C) as -> by (apply Hm; auto).
    destruct (Pos.eq_dec C C); [lia | done].
  - destruct (Pos.eq_dec x C) as [->|]; [congruence|].
    simpl. destruct (Pos.eq_dec x C); [done|]. apply IH; [done|]. auto.
Qed.

Lemma utils_noDupeAdd_count (pred : loc → bool) (C : loc) (a : list loc) :
  pred C = true →
  count_occ Pos.eq_dec a C ≤ 1 →
  (∀ x, In x a → pred x = true → x = C) →
  count_occ Pos.eq_dec (utils_noDupeAdd C pred a) C = 1.
Proof.
  intros HC Hc Hm. unfold utils_noDupeAdd.
  destruct (existsb pred a) eqn:He.
  - apply existsb_exists in He as (x & Hin & Hx).
    assert (x = C) as -> by auto.
    apply (count_occ_In Pos.eq_dec) in Hin. lia.
  - rewrite count_occ_app. simpl. destruct (Pos.eq_dec C C); [|done].
    assert (count_occ Pos.eq_dec a C = 0); [|lia].
    apply count_occ_not_In. intros Hin.
    assert (existsb pred a = true); [|congruence].
    apply existsb_exists. eauto.
Qed.

(** ** Repositioning a record in an index twice *)

Lemma removeRecord_absent (l : loc) (ix : list (value * list loc)) :
  Forall (λ kb, ¬ In l kb.2) ix → removeRecord l ix = ix.
Proof.
  induction 1 as [|[k b] ix Hb _ IH]; simpl; [done|].
  rewrite IH. f_equal. f_equal.
  simpl in Hb. induction b as [|x b IHb]; [done|].
  rewrite filter_cons. destruct (decide (x ≠ l)) as [|Heq].
  - f_equal. apply IHb. intros ?. apply Hb. by right.
  - exfalso. apply Hb. left. by destruct (decide (x = l)).
Qed.

Lemma removeRecord_clean (l : loc) (ix : list (value * list loc)) :
  Forall (λ kb, ¬ In l kb.2) (removeRecord l ix).
Proof.
  induction ix as [|[k b] ix IH]; simpl; constructor; [|done].
  simpl. rewrite <- list_elem_of_In, list_elem_of_filter. naive_solver.
Qed.

Lemma filter_app_absent (l : loc) (b : list loc) :
  ¬ In l b → filter (λ x, x ≠ l) (b ++ [l]) = b.
Proof.
  intros Hb. rewrite filter_app, filter_cons, decide_False by (intros Hl; by apply Hl).
  rewrite filter_nil, app_nil_r.
  induction b as [|x b IHb]; [done|].
  rewrite filter_cons. destruct (decide (x ≠ l)) as [|Heq].
  - f_equal. apply IHb. intros ?. apply Hb. by right.
  - exfalso. apply Hb. left. by destruct (decide (x = l)).
Qed.

Lemma insertRecord_again (k : value) (l : loc) (ix : list (value * list loc)) :
  Forall (λ kb, ¬ In l kb.2) ix →
  insertRecord k l (removeRecord l (insertRecord k l ix)) = insertRecord k l ix.
Proof.
  induction 1 as [|[k' b] ix Hb Hix IH]; simpl.
  - rewrite decide_True by done. rewrite filter_cons.
    destruct (decide (l ≠ l)); [done|]. by rewrite filter_nil.
  - simpl in Hb. destruct (decide (k = k')) as [->|Hk]; simpl.
    + rewrite decide_True by done. rewrite filter_app_absent by done.
      by rewrite removeRecord_absent.
    + rewrite decide_False by done. rewrite IH. f_equal. f_equal.
      specialize (removeRecord_absent l [(k', b)]). simpl.
      intros E. by injection E; [|repeat constructor].
Qed.

Lemma index_write_twice (n : string) (l : loc) (f : string) (k : value)
    (m : gmap (string * string) (list (value * list loc))) :
  index_write n (VRef l) f k (index_write n (VRef l) f k m)
  = index_write n (VRef l) f k m.
Proof.
  unfold index_write. destruct (m !! (n, f)) as [ix|] eqn:E.
  - rewrite lookup_insert_eq, insert_insert_eq.
    by rewrite insertRecord_again by apply removeRecord_clean.
  - by rewrite E.
Qed.

(** ** Changing a collection in place twice *)

Lemma children_write_twice (p : loc) (f : string) (op : list loc → list loc)
    (m : gmap (loc * string) value) :
  (∀ a, match default VUndef (m !! (p, f)) with
        | VArr a' => Some a'
        | v => if truthy v then None else Some []
        end = Some a → op (op a) = op a) →
  children_write (VRef p) f op (children_write (VRef p) f op m)
  = children_write (VRef p) f op m.
Proof.
  intros H. unfold children_write.
  destruct (default VUndef (m !! (p, f))) as [| |b|n|str|l|a] eqn:E; simpl in *.
  all: repeat match goal with
       | |- context [if ?c then _ else _] => destruct c eqn:?
       end.
  all: rewrite ?lookup_insert_eq, ?E; simpl;
    repeat match goal with Hc : _ = _ |- _ => rewrite Hc end;
    rewrite ?insert_insert_eq, ?H; done.
Qed.

Lemma utils_remove_none (pred : loc → bool) (a : list loc) :
  (∀ x, In x a → pred x = false) → utils_remove pred a = a.
Proof.
  induction a as [|x a IH]; intros H; simpl; [done|].
  rewrite H by (by left). f_equal. apply IH. intros. apply H. by right.
Qed.

Lemma utils_remove_In (pred : loc → bool) (a : list loc) (x : loc) :
  In x (utils_remove pred a) → In x a.
Proof.
  induction a as [|y a IH]; simpl; [done|].
  destruct (pred y); simpl; naive_solver.
Qed.

(** With the data-model invariant, a second removal finds nothing. *)
Lemma utils_remove_twice (pred : loc → bool) (C : loc) (a : list loc) :
  pred C = true →
  count_occ Pos.eq_dec a C ≤ 1 →
  (∀ x, In x a → pred x = true → x = C) →
  utils_remove pred (utils_remove pred a) = utils_remove pred a.
Proof.
  intros HC Hc Hu. apply utils_remove_none. intros x Hx.
  destruct (pred x) eqn:E; [|done].
  assert (x = C) as -> by (apply Hu; [by eapply utils_remove_In|done]).
  apply (count_occ_In Pos.eq_dec) in Hx.
  rewrite utils_remove_count in Hx by done. lia.
Qed.

(** Reads of the link map away from the key written. *)
Lemma link_write_lookup_ne (r : value) (f : string) (v : value)
    (m : gmap (loc * string) value) (k : loc * string) :
  (∀ l, r = VRef l → k ≠ (l, f)) → link_write r f v m !! k = m !! k.
Proof.
  intros H. destruct r; try done. unfold link_write.
  rewrite lookup_insert_ne; [done|]. intros <-. by eapply H.
Qed.

Lemma children_write_lookup_ne (r : value) (f : string) (op : list loc → list loc)
    (m : gmap (loc * string) value) (k : loc * string) :
  (∀ l, r = VRef l → k ≠ (l, f)) → children_write r f op m !! k = m !! k.
Proof.
  intros H. unfold children_write. destruct r; try done.
  assert (k ≠ (l, f)) by by apply H.
  repeat case_match; try done; by rewrite lookup_insert_ne.
Qed.

Lemma children_write_lookup_eq (p : loc) (f : string) (op : list loc → list loc)
    (m : gmap (loc * string) value) (a : list loc) :
  match default VUndef (m !! (p, f)) with
  | VArr a' => Some a'
  | v => if truthy v then None else Some []
  end = Some a →
  children_write (VRef p) f op m !! (p, f) = Some (VArr (op a)).
Proof.
  intros H. unfold children_write.
  destruct (default VUndef (m !! (p, f))) eqn:E; simpl in *;
    repeat case_match; simplify_eq; by rewrite lookup_insert_eq.
Qed.

(** ** Inverse fields read from the link map *)

Lemma children_view (s : store) (P : loc) (f : string) :
  children s P f = view (links s) P f.
Proof. done. Qed.

Lemma occurrences_occ (s : store) (f : string) (P C : loc) :
  occurrences s f P C = occ (links s) f P C.
Proof. done. Qed.

Lemma occ_view (m : gmap (loc * string) value) (f : string) (P C : loc) (a : list loc) :
  view m P f = Some a → occ m f P C = count_occ Pos.eq_dec a C.
Proof.
  unfold view, occ. destruct (default VUndef (m !! (P, f))); simpl;
    repeat case_match; intros; simplify_eq; done.
Qed.

Lemma view_insert_ne (m : gmap (loc * string) value) (k : loc * string) (v : value)
    (P : loc) (f : string) :
  k ≠ (P, f) → view (<[k := v]> m) P f = view m P f.
Proof. intros H. unfold view. by rewrite lookup_insert_ne. Qed.

Lemma occ_insert_ne (m : gmap (loc * string) value) (k : loc * string) (v : value)
    (f : string) (P C : loc) :
  k ≠ (P, f) → occ (<[k := v]> m) f P C = occ m f P C.
Proof. intros H. unfold occ. by rewrite lookup_insert_ne. Qed.

Lemma view_children_write (m : gmap (loc * string) value) (r : value) (f : string)
    (op : list loc → list loc) (P : loc) (a : list loc) :
  view m P f = Some a →
  view (children_write r f op m) P f = Some (if decide (r = VRef P) then op a else a).
Proof.
  intros H. destruct (decide (r = VRef P)) as [->|Hr].
  - unfold view at 1. by rewrite (children_write_lookup_eq P f op m a H).
  - unfold view at 1. rewrite children_write_lookup_ne; [done|]. congruence.
Qed.

Lemma occ_link_write (m : gmap (loc * string) value) (r : value) (f : string)
    (v : value) (P C : loc) :
  occ (link_write r f v m) f P C
  = if decide (r = VRef P) then occ (<[(P, f) := v]> m) f P C else occ m f P C.
Proof.
  destruct (decide (r = VRef P)) as [->|Hr]; [done|].
  unfold occ. rewrite link_write_lookup_ne; [done|]. congruence.
Qed.

(** ** The BelongsTo setters as changes of the five components *)

Section BelongsToFacts.
Variable getInverse : Relation → Mapper → option Relation.
Variable getRelation : Relation → Mapper.
Variable mapper : Mapper.
Variable def : Relation.
Variable name : string.

Local Abbreviation set := (BelongsTo.set getInverse getRelation mapper def name).
Local Abbreviation set_teardown := (BelongsTo.set_teardown getInverse mapper def).
Local Abbreviation set_attach := (BelongsTo.set_attach getInverse getRelation mapper def name).
Local Abbreviation prefer_store_record :=
  (BelongsTo.prefer_store_record getRelation def).
Local Abbreviation foreignKey_assign :=
  (plain_assign getInverse getRelation mapper def name).
Local Abbreviation rid := (idAttribute (getRelation def)).
Local Abbreviation L := (localField def).
Local Abbreviation FK := (foreignKey def).
Local Abbreviation teardown_links := (teardown_links getInverse mapper def).
Local Abbreviation attach_links := (attach_links getInverse mapper def).
Local Abbreviation link_consistent := (link_consistent getRelation def).
Local Abbreviation inverse_consistent := (inverse_consistent getInverse getRelation mapper def).
Local Abbreviation inverse_fields_ok := (inverse_fields_ok getInverse mapper def).
Local Abbreviation well_keyed := (well_keyed getRelation def).
Local Abbreviation linked_invariant := (linked_invariant getInverse getRelation mapper def).

Ltac frame_td :=
  intros; unfold BelongsTo.set_teardown, BelongsTo.removeInverseRelation, teardown_links;
  repeat case_match; autorewrite with frames; done.

Lemma set_teardown_props C cur id s : props (set_teardown C cur id s) = props s.
Proof. frame_td. Qed.
Lemma set_teardown_added C cur id s : added (set_teardown C cur id s) = added s.
Proof. frame_td. Qed.
Lemma set_teardown_collections C cur id s :
  collections (set_teardown C cur id s) = collections s.
Proof. frame_td. Qed.
Lemma set_teardown_indexes C cur id s : indexes (set_teardown C cur id s) = indexes s.
Proof. frame_td. Qed.
Lemma set_teardown_links C cur id s :
  links (set_teardown C cur id s)
  = teardown_links (child_test (props s) C id (idAttribute mapper)) cur (links s).
Proof. frame_td. Qed.

Lemma prefer_store_record_frame C R s s' :
  props s' = props s → added s' = added s → collections s' = collections s →
  prefer_store_record C R s' = prefer_store_record C R s.
Proof.
  intros Hp Ha Hc. unfold BelongsTo.prefer_store_record.
  by rewrite (utils_get_props _ _ _ _ Hp), (_get_added_added _ _ _ Ha),
    (store_get_collections _ _ _ _ Hc).
Qed.

(** The setter leaves the store alone when the record is the current
    parent. *)
Lemma set_same C R s : R = _get_link s C L → set C R s = (R, s).
Proof. intros ->. unfold BelongsTo.set. by rewrite decide_True. Qed.

(** Unsetting the link. *)
Lemma set_falsy C R s :
  R ≠ _get_link s C L → truthy R = false →
  set C R s =
    (R, Store (props s)
          (<[(C, L) := VUndef]>
             (teardown_links
                (child_test (props s) C (utils_get s (VRef C) (idAttribute mapper))
                   (idAttribute mapper))
                (_get_link s C L) (links s)))
          (added s) (collections s) (indexes s)).
Proof.
  intros Hne Hf. unfold BelongsTo.set. rewrite decide_False by done.
  unfold BelongsTo.set_attach. rewrite Hf. f_equal.
  apply store_eq; simpl; autorewrite with frames; simpl;
    rewrite ?set_teardown_props, ?set_teardown_added, ?set_teardown_collections,
      ?set_teardown_indexes, ?set_teardown_links; done.
Qed.

(** Linking to a record. *)
Lemma set_truthy C R s :
  R ≠ _get_link s C L → truthy R = true →
  let id := utils_get s (VRef C) (idAttribute mapper) in
  let relatedId := utils_get s R rid in
  let R' := prefer_store_record C R s in
  set C R s =
    (R', Store (<[(C, FK) := relatedId]> (props s))
           (attach_links
              (child_test (<[(C, FK) := relatedId]> (props s)) C id (idAttribute mapper))
              C R'
              (<[(C, L) := R']>
                 (teardown_links (child_test (props s) C id (idAttribute mapper))
                    (_get_link s C L) (links s))))
           (added s) (collections s)
           (index_write name (VRef C) FK relatedId (indexes s))).
Proof.
  intros Hne Ht id relatedId R'. unfold BelongsTo.set. rewrite decide_False by done.
  unfold BelongsTo.set_attach. rewrite Ht.
  set (s1 := set_teardown _ _ _ s).
  assert (Hp : props s1 = props s) by apply set_teardown_props.
  assert (Ha : added s1 = added s) by apply set_teardown_added.
  assert (Hc : collections s1 = collections s) by apply set_teardown_collections.
  assert (Hi : indexes s1 = indexes s) by apply set_teardown_indexes.
  assert (Hl : links s1 = teardown_links (child_test (props s) C id (idAttribute mapper))
                            (_get_link s C L) (links s))
    by apply set_teardown_links.
  rewrite (prefer_store_record_frame C R s s1 Hp Ha Hc).
  rewrite (utils_get_props s s1 R rid Hp).
  fold R' relatedId id. f_equal.
  assert (Hu : ∀ s0, utils_get (safeSetProp (VRef C) FK relatedId s0) (VRef C) FK
              = relatedId).
  { intros s0. unfold utils_get at 1. unfold _get_prop.
    autorewrite with frames. unfold link_write. by rewrite lookup_insert_eq. }
  destruct (getInverse def mapper) as [inv|] eqn:Hinv.
  - unfold BelongsTo.setupInverseRelation, attach_links. rewrite Hinv.
    apply store_eq; repeat case_match; autorewrite with frames;
      rewrite ?Hu, ?Hp, ?Ha, ?Hc, ?Hi, ?Hl; unfold link_write; try done.
    apply children_write_ext. intros a. apply utils_noDupeAdd_ext. intros x.
    rewrite same_child_test. autorewrite with frames. unfold link_write.
    by rewrite Hp.
  - unfold attach_links. rewrite Hinv.
    apply store_eq; autorewrite with frames;
      rewrite ?Hu, ?Hp, ?Ha, ?Hc, ?Hi, ?Hl; unfold link_write; done.
Qed.

Lemma teardown_links_lookup_field pred cur m l f :
  (∀ inv, getInverse def mapper = Some inv → localField inv ≠ f) →
  teardown_links pred cur m !! (l, f) = m !! (l, f).
Proof.
  intros H. unfold teardown_links.
  destruct (getInverse def mapper) as [inv|]; [|done].
  specialize (H inv eq_refl).
  repeat case_match; try done;
    [apply link_write_lookup_ne | apply children_write_lookup_ne]; congruence.
Qed.

Lemma teardown_links_lookup_loc (pred : loc → bool) (cur : value)
    (m : gmap (loc * string) value) (l : loc) (f : string) :
  cur ≠ VRef l → teardown_links pred cur m !! (l, f) = m !! (l, f).
Proof.
  intros H. unfold teardown_links. repeat case_match; try done;
    [apply link_write_lookup_ne | apply children_write_lookup_ne]; congruence.
Qed.

Lemma attach_links_lookup_field pred this r m l f :
  (∀ inv, getInverse def mapper = Some inv → localField inv ≠ f) →
  attach_links pred this r m !! (l, f) = m !! (l, f).
Proof.
  intros H. unfold attach_links.
  destruct (getInverse def mapper) as [inv|]; [|done].
  specialize (H inv eq_refl).
  repeat case_match; try done;
    [apply link_write_lookup_ne | apply children_write_lookup_ne]; congruence.
Qed.

(** A record held by its collection is the one the setter prefers. *)
Lemma prefer_store_record_present C P s :
  store_get s (relation def) (utils_get s (VRef P) rid) = VRef P →
  prefer_store_record C (VRef P) s = VRef P.
Proof.
  intros H. unfold BelongsTo.prefer_store_record.
  destruct (_ && _); [|done]. by rewrite H.
Qed.

(** The inverse link field is not the link field itself. *)
Hypothesis fields_apart :
  ∀ inv, getInverse def mapper = Some inv → localField inv ≠ L.

(** C2, as amended. Setting the link field of a child [C] to a parent
    [P] held by its collection, and then reading the link field, yields a
    record with the identifier of [P], which the foreign key of [C] then
    holds as well, provided [C] was not linked to [P] already under a
    different foreign key. (Schema: the link field of the inverse is not
    the link field itself, [fields_apart].) *)
Theorem set_link_round_trip (s : store) (C P : loc) :
  store_get s (relation def) (utils_get s (VRef P) rid) = VRef P →
  (_get_link s C L = VRef P → utils_get s (VRef C) FK = utils_get s (VRef P) rid) →
  let s' := (set C (VRef P) s).2 in
  utils_get s' (_get_link s' C L) rid = utils_get s' (VRef P) rid
  ∧ utils_get s' (VRef C) FK = utils_get s' (VRef P) rid.
Proof.
  intros HP Hold s'. subst s'.
  destruct (decide (VRef P = _get_link s C L)) as [e|ne].
  - rewrite set_same by done. simpl. rewrite <- e. split; [done|]. by apply Hold.
  - rewrite set_truthy by done. simpl.
    rewrite (prefer_store_record_present _ _ _ HP).
    unfold _get_link, utils_get, _get_prop. simpl.
    rewrite attach_links_lookup_field by done.
    rewrite !lookup_insert_eq. simpl.
    split.
    + done.
    + destruct (decide ((C, FK) = (P, rid))) as [<-|n].
      * by rewrite lookup_insert_eq.
      * by rewrite lookup_insert_ne.
Qed.

(** C5, as amended. For a child [C] held by the store, setting its link
    field to an object [D] that carries the identifier of a parent [P]
    held by the parent collection ends with the link field on [P], unless
    [D] is the current value of the link field. (Schema: [fields_apart].) *)
Theorem set_link_canonical (s : store) (C D P : loc) :
  _get_added s C = true →
  utils_get s (VRef D) rid = utils_get s (VRef P) rid →
  store_get s (relation def) (utils_get s (VRef P) rid) = VRef P →
  _get_link s C L ≠ VRef D →
  _get_link (set C (VRef D) s).2 C L = VRef P.
Proof.
  intros Ha Hid HP Hne.
  rewrite set_truthy by done. simpl.
  unfold _get_link. simpl.
  rewrite attach_links_lookup_field by done.
  rewrite lookup_insert_eq. simpl.
  unfold BelongsTo.prefer_store_record. rewrite Ha, Hid, HP.
  rewrite bool_decide_true; [done|].
  intros E. rewrite E in HP. discriminate.
Qed.

(** The foreign key is not the identifier of the child. *)
Hypothesis fk_not_id : FK ≠ idAttribute mapper.


Lemma teardown_links_ext (pred pred' : loc → bool) (cur : value)
    (m : gmap (loc * string) value) :
  (∀ x, pred x = pred' x) →
  teardown_links pred cur m = teardown_links pred' cur m.
Proof.
  intros E. unfold teardown_links. repeat case_match; try done.
  apply children_write_ext. intros a. by apply utils_remove_ext.
Qed.

(** With the data-model invariant on the current parent, tearing the
    inverse link down a second time changes nothing. *)
Lemma teardown_links_twice (s : store) (C : loc) :
  let cur := _get_link s C L in
  let pred := child_test (props s) C (utils_get s (VRef C) (idAttribute mapper))
                (idAttribute mapper) in
  (∀ Q inv, getInverse def mapper = Some inv → cur = VRef Q →
     inverse_ok s (idAttribute mapper) inv C Q) →
  teardown_links pred cur (teardown_links pred cur (links s))
  = teardown_links pred cur (links s).
Proof.
  intros cur pred Hok. unfold teardown_links.
  destruct (getInverse def mapper) as [inv|] eqn:Hinv; [|done].
  destruct (truthy cur) eqn:Ht; [|done].
  destruct cur as [| | | | |Q|] eqn:Hcur;
    try (unfold link_write, children_write; by repeat case_match).
  destruct (Hok Q inv eq_refl eq_refl) as [H1|(H1 & a & Ha & Hc & Hu)].
  - rewrite !decide_True by done. unfold link_write. by rewrite insert_insert_eq.
  - assert (hasOneType ≠ hasManyType) by done.
    destruct (decide (type inv = hasOneType)); [congruence|].
    destruct (decide (type inv = hasManyType)); [|congruence].
    apply children_write_twice. intros a' Ha'.
    unfold children, _get_link in Ha. rewrite Ha in Ha'. simplify_eq.
    apply (utils_remove_twice _ C); [apply child_test_self|done|done].
Qed.

(** The inline teardown of the foreign-key setter is the teardown of the
    link-field setter, or nothing. *)
Lemma inline_teardown_frame (s sA : store) (C : loc) (b : bool) :
  let cur := _get_link s C L in
  let id := utils_get s (VRef C) (idAttribute mapper) in
  sA = match getInverse def mapper with
       | Some inverseDef =>
           if b then
             if decide (type inverseDef = hasOneType) then
               safeSetLink cur (localField inverseDef) VUndef s
             else if decide (type inverseDef = hasManyType) then
               update_children cur (localField inverseDef)
                 (utils_remove (same_child s C id (idAttribute mapper))) s
             else s
           else s
       | None => s
       end →
  props sA = props s ∧ added sA = added s ∧ collections sA = collections s
  ∧ indexes sA = indexes s
  ∧ (links sA = links s
     ∨ links sA = teardown_links (child_test (props s) C id (idAttribute mapper))
                    cur (links s)).
Proof.
  intros cur id ->.
  destruct (getInverse def mapper) as [inv|] eqn:Hinv; [|by auto 10].
  destruct b; [|by auto 10].
  repeat split; try (repeat case_match; by autorewrite with frames).
  destruct (truthy cur) eqn:Ht.
  - right. unfold teardown_links. rewrite Hinv, Ht.
    repeat case_match; by autorewrite with frames.
  - left. destruct cur; try done;
      repeat case_match; autorewrite with frames; try done.
Qed.

(** A stored identifier is neither [undefined] nor [null]. *)
Lemma store_get_ref_key (s : store) (n : string) (v : value) (l : loc) :
  store_get s n v = VRef l → v ≠ VUndef ∧ v ≠ VNull.
Proof. unfold store_get. destruct v; simpl; by try discriminate. Qed.

(** Without [def.get] and [def.set] the foreign-key setter is the function
    [plain_assign] on the store, and throws nothing. *)
Lemma foreignKey_assign_plain (s : store) (C : loc) (v : value) :
  def_get def = None → def_set def = None →
  BelongsTo.foreignKey_assign getInverse getRelation mapper def name C v s
  = Ok tt (foreignKey_assign C v s).
Proof.
  intros Hg Hs.
  unfold BelongsTo.foreignKey_assign, plain_assign, BelongsTo.utils_get_link,
    BelongsTo.utils_set_link, plain_set_link.
  rewrite Hg, Hs. cbv zeta.
  repeat match goal with
         | |- (if ?c then _ else _) = Ok tt (if ?c then _ else _) => destruct c
         end; reflexivity.
Qed.

Lemma foreignKey_set_plain (s : store) (C : loc) (v : value) :
  def_get def = None → def_set def = None →
  BelongsTo.foreignKey_set getInverse getRelation mapper def name None C v s
  = Ok VUndef (foreignKey_assign C v s).
Proof.
  intros Hg Hs. unfold BelongsTo.foreignKey_set, mbind, M_bind.
  by rewrite foreignKey_assign_plain.
Qed.

(** The foreign-key setter, given the identifier of a stored parent that is
    not the current one, does what the link-field setter does. *)
Lemma foreignKey_assign_as_set (s : store) (C P : loc) :
  _get_added s C = true →
  store_get s (relation def) (utils_get s (VRef P) rid) = VRef P →
  _get_link s C L ≠ VRef P →
  (∀ Q inv, getInverse def mapper = Some inv → _get_link s C L = VRef Q →
     inverse_ok s (idAttribute mapper) inv C Q) →
  foreignKey_assign C (utils_get s (VRef P) rid) s = (set C (VRef P) s).2.
Proof.
  intros Ha HP Hne Hok.
  set (p := utils_get s (VRef P) rid) in *.
  destruct (store_get_ref_key _ _ _ _ HP) as [Hpu Hpn].
  unfold plain_assign.
  set (cur := _get_link s C L) in *.
  set (id := utils_get s (VRef C) (idAttribute mapper)).
  match goal with
  | |- context [safeSetProp (VRef C) FK p ?x] => remember x as sA eqn:HsA
  end.
  apply (inline_teardown_frame s sA C) in HsA.
  destruct HsA as (Hp & Had & Hc & Hi & Hl).
  set (sB := safeSetProp (VRef C) FK p sA).
  set (sC := updateIndex name (VRef C) FK sB).
  assert (HpC : props sC = <[(C, FK) := p]> (props s)).
  { subst sC sB. autorewrite with frames. unfold link_write. by rewrite Hp. }
  assert (HlC : links sC = links sA) by (subst sC sB; by autorewrite with frames).
  assert (HaC : added sC = added s) by (subst sC sB; by autorewrite with frames).
  assert (HcC : collections sC = collections s)
    by (subst sC sB; by autorewrite with frames).
  assert (HiC : indexes sC = index_write name (VRef C) FK p (indexes s)).
  { subst sC. autorewrite with frames. rewrite <- Hi. f_equal.
    subst sB. unfold utils_get, _get_prop. autorewrite with frames.
    unfold link_write. by rewrite lookup_insert_eq. }
  rewrite !bool_decide_false by done. simpl.
  rewrite (_get_added_added s sC C HaC), Ha.
  rewrite (store_get_collections s sC _ _ HcC), HP. simpl.
  unfold plain_set_link.
  assert (HcurC : _get_link sC C L = cur).
  { unfold _get_link. rewrite HlC. destruct Hl as [->| ->]; [done|].
    by rewrite teardown_links_lookup_field. }
  assert (HidC : utils_get sC (VRef C) (idAttribute mapper) = id).
  { unfold utils_get, _get_prop. rewrite HpC.
    rewrite lookup_insert_ne; [done|]. congruence. }
  assert (HrelC : utils_get sC (VRef P) rid = p).
  { unfold utils_get, _get_prop. rewrite HpC.
    destruct (decide ((C, FK) = (P, rid))) as [<-|].
    - by rewrite lookup_insert_eq.
    - by rewrite lookup_insert_ne. }
  rewrite !set_truthy by (rewrite ?HcurC; done). cbn [snd].
  rewrite HidC, HrelC, HcurC.
  fold p id cur.
  rewrite (prefer_store_record_present C P s HP).
  rewrite (prefer_store_record_present C P sC)
    by (by rewrite HrelC, (store_get_collections s sC _ _ HcC)).
  apply store_eq; simpl; rewrite ?HpC, ?HaC, ?HcC, ?HiC, ?HlC; try done.
  - by rewrite insert_insert_eq.
  - rewrite insert_insert_eq. f_equal. f_equal.
    rewrite (teardown_links_ext _ (child_test (props s) C id (idAttribute mapper)))
      by (intros x; apply child_test_insert; simpl; congruence).
    destruct Hl as [->| ->]; [done|].
    by apply teardown_links_twice.
  - apply index_write_twice.
Qed.


(** *** The cross-entity invariant *)

(** The foreign key is not the identifier of the parent either. *)
Hypothesis fk_not_rid : FK ≠ rid.

Lemma utils_noDupeAdd_In (pred : loc → bool) (C x : loc) (a : list loc) :
  In x (utils_noDupeAdd C pred a) → In x a ∨ x = C.
Proof.
  unfold utils_noDupeAdd. destruct (existsb pred a); [by left|].
  rewrite in_app_iff. simpl. naive_solver.
Qed.

(** The inverse field of [P] after the teardown on the current parent and
    the attach on [R']: how often it holds [C], and that it is well formed
    again. *)
Lemma slots_after (s : store) (C : loc) (R' : value) (pred' : loc → bool)
    (inv : Relation) (P : loc) :
  let cur := _get_link s C L in
  let pred := child_test (props s) C (utils_get s (VRef C) (idAttribute mapper))
                (idAttribute mapper) in
  let m' := attach_links pred' C R'
              (<[(C, L) := R']> (teardown_links pred cur (links s))) in
  getInverse def mapper = Some inv →
  (∀ x, pred' x = pred x) →
  inverse_ok s (idAttribute mapper) inv C P →
  occ m' (localField inv) P C
  = (if decide (R' = VRef P) then 1
     else if decide (cur = VRef P) then 0
     else occ (links s) (localField inv) P C)
  ∧ (type inv = hasManyType →
     ∃ a', view m' P (localField inv) = Some a'
           ∧ count_occ Pos.eq_dec a' C ≤ 1
           ∧ ∀ x, In x a' → pred x = true → x = C).
Proof.
  intros cur pred m' Hinv Hpred Hok. subst m'.
  assert (Hf := fields_apart inv Hinv).
  assert (HfP : (C, L) ≠ (P, localField inv)) by congruence.
  assert (hasOneType ≠ hasManyType) by done.
  unfold attach_links, teardown_links. rewrite Hinv.
  destruct Hok as [H1|(H1 & a0 & Ha0 & Hc0 & Hu0)].
  - destruct (decide (type inv = hasOneType)); [|congruence].
    split; [|congruence].
    rewrite occ_link_write. destruct (decide (R' = VRef P)) as [->|HR].
    { unfold occ. rewrite lookup_insert_eq. simpl. by rewrite decide_True. }
    rewrite occ_insert_ne by done.
    destruct (truthy cur) eqn:Ht.
    + rewrite occ_link_write. destruct (decide (cur = VRef P)); [|done].
      unfold occ. by rewrite lookup_insert_eq.
    + rewrite decide_False; [done|]. intros E. by rewrite E in Ht.
  - destruct (decide (type inv = hasOneType)); [congruence|].
    destruct (decide (type inv = hasManyType)); [|congruence].
    rewrite children_view in Ha0.
    assert (Hpc : pred C = true) by apply child_test_self.
    set (a1 := if decide (cur = VRef P) then utils_remove pred a0 else a0).
    assert (Hv1 : view (if truthy cur
                        then children_write cur (localField inv) (utils_remove pred)
                               (links s)
                        else links s) P (localField inv) = Some a1).
    { subst a1. destruct (truthy cur) eqn:Ht.
      - by apply view_children_write.
      - rewrite decide_False; [done|]. intros E. by rewrite E in Ht. }
    assert (Hc1 : count_occ Pos.eq_dec a1 C ≤ 1).
    { subst a1. destruct (decide (cur = VRef P)); [|done].
      rewrite utils_remove_count by done. lia. }
    assert (Hu1 : ∀ x, In x a1 → pred x = true → x = C).
    { subst a1. destruct (decide (cur = VRef P)); [|done].
      intros x Hx. apply Hu0. by eapply utils_remove_In. }
    rewrite <- (view_insert_ne _ (C, L) R') in Hv1 by done.
    pose proof (view_children_write _ R' _ (utils_noDupeAdd C pred') P a1 Hv1) as Hv3.
    rewrite (utils_noDupeAdd_ext pred' pred) in Hv3 by done.
    rewrite (occ_view _ _ _ _ _ Hv3).
    split.
    + destruct (decide (R' = VRef P)).
      * by apply utils_noDupeAdd_count.
      * subst a1. destruct (decide (cur = VRef P)).
        -- by apply utils_remove_count.
        -- symmetry. by apply occ_view.
    + intros _. eexists. split; [exact Hv3|].
      destruct (decide (R' = VRef P)); [|done].
      split.
      * rewrite utils_noDupeAdd_count by done. lia.
      * intros x Hx Hp. apply utils_noDupeAdd_In in Hx as [Hx| ->]; [|done].
        by apply Hu1.
Qed.

(** The invariant in a store reached by a teardown on the current parent
    and an attach on [R'], with the foreign key [k]. *)
Lemma invariant_after (s s' : store) (C : loc) (R' k : value) (pred' : loc → bool) :
  let cur := _get_link s C L in
  let pred := child_test (props s) C (utils_get s (VRef C) (idAttribute mapper))
                (idAttribute mapper) in
  linked_invariant s C →
  (∀ l f, (l, f) ≠ (C, FK) → props s' !! (l, f) = props s !! (l, f)) →
  utils_get s' (VRef C) FK = k →
  (∀ x, pred' x = pred x) →
  links s' = attach_links pred' C R'
               (<[(C, L) := R']> (teardown_links pred cur (links s))) →
  collections s' = collections s →
  (R' ≠ VUndef → k = utils_get s R' rid) →
  linked_invariant s' C.
Proof.
  intros cur pred (Hlc & Hic & Hok & Hwk) Hprops Hk Hpred Hlinks Hcoll HR.
  assert (F3 : ∀ x, utils_get s' x rid = utils_get s x rid).
  { intros [| | | | |l|]; try done. unfold utils_get, _get_prop.
    rewrite Hprops; [done|]. congruence. }
  assert (Fid : utils_get s' (VRef C) (idAttribute mapper)
                = utils_get s (VRef C) (idAttribute mapper)).
  { unfold utils_get, _get_prop. rewrite Hprops; [done|]. congruence. }
  assert (Fpred : ∀ x, child_test (props s') C
                         (utils_get s' (VRef C) (idAttribute mapper))
                         (idAttribute mapper) x = pred x).
  { intros x. rewrite Fid. unfold pred, child_test.
    rewrite Hprops; [done|]. congruence. }
  assert (FL : _get_link s' C L = R').
  { unfold _get_link. rewrite Hlinks.
    rewrite attach_links_lookup_field by apply fields_apart.
    by rewrite lookup_insert_eq. }
  split; [|split; [|split]].
  - intros Hdef. rewrite FL in Hdef |- *. rewrite Hk, F3. by apply HR.
  - intros inv P Hinv.
    destruct (slots_after s C R' pred' inv P Hinv Hpred (Hok inv P Hinv)) as [Hs _].
    fold cur pred in Hs.
    rewrite occurrences_occ, Hlinks, Hs, FL, Hk, F3. clear Hs.
    destruct (decide (R' = VRef P)) as [->|HRP].
    + split; [|lia]. intros _. split; [|done]. by apply HR.
    + split; [|by intros [_ ?]]. intros Hocc. exfalso.
      destruct (decide (cur = VRef P)) as [Hc|Hc]; [lia|].
      rewrite <- occurrences_occ in Hocc. apply (Hic inv P Hinv) in Hocc as [_ Hocc].
      by destruct Hc.
  - intros inv P Hinv. destruct (Hok inv P Hinv) as [H1|(H1 & _)]; [by left|].
    right. split; [done|].
    destruct (slots_after s C R' pred' inv P Hinv Hpred (Hok inv P Hinv))
      as [_ Hs].
    destruct (Hs H1) as (a' & Hv & Hc & Hu).
    exists a'. rewrite children_view, Hlinks. split; [done|]. split; [done|].
    intros x Hx Ht. apply Hu; [done|]. by rewrite <- Fpred.
  - intros v l Hget. rewrite F3. apply Hwk.
    by rewrite <- (store_get_collections s s' _ _ Hcoll).
Qed.

Lemma store_get_cases (s : store) (n : string) (v : value) :
  store_get s n v = VUndef ∨ ∃ l, store_get s n v = VRef l.
Proof. unfold store_get. repeat case_match; eauto. Qed.

(** The record the setter prefers carries the identifier of the record
    assigned. *)
Lemma prefer_store_record_id (s : store) (C : loc) (R : value) :
  well_keyed s →
  utils_get s (prefer_store_record C R s) rid = utils_get s R rid.
Proof.
  intros Hwk. unfold BelongsTo.prefer_store_record.
  destruct (_ && _); [|done]. unfold js_or.
  destruct (store_get_cases s (relation def) (utils_get s R rid)) as [E|[l E]];
    rewrite E; [done|]. by apply Hwk.
Qed.

Lemma attach_links_undefined (pred : loc → bool) (C : loc)
    (m : gmap (loc * string) value) :
  attach_links pred C VUndef m = m.
Proof. unfold attach_links. by repeat case_match. Qed.

Lemma set_preserves_invariant (s : store) (C : loc) (R : value) :
  linked_invariant s C → linked_invariant (set C R s).2 C.
Proof.
  intros Hinv.
  destruct (decide (R = _get_link s C L)) as [e|ne].
  { by rewrite set_same. }
  destruct (truthy R) eqn:Ht.
  - rewrite set_truthy by done. cbn [snd].
    apply (invariant_after s _ C (prefer_store_record C R s) (utils_get s R rid)
             (child_test (<[(C, FK) := utils_get s R rid]> (props s)) C
                (utils_get s (VRef C) (idAttribute mapper)) (idAttribute mapper)));
      cbn [props links collections].
    + done.
    + intros l f Hlf. by rewrite lookup_insert_ne.
    + unfold utils_get at 1. unfold _get_prop. cbn [props].
      by rewrite lookup_insert_eq.
    + intros x. apply child_test_insert. simpl. congruence.
    + done.
    + done.
    + intros _. symmetry. apply prefer_store_record_id. apply Hinv.
  - rewrite set_falsy by done. cbn [snd].
    apply (invariant_after s _ C VUndef (utils_get s (VRef C) FK)
             (child_test (props s) C (utils_get s (VRef C) (idAttribute mapper))
                (idAttribute mapper)));
      cbn [props links collections]; try done.
    by rewrite attach_links_undefined.
Qed.

(** A store that reads the same satisfies the invariant as well. *)
Lemma linked_invariant_ext (s s' : store) (C : loc) :
  props s' = props s → links s' = links s → collections s' = collections s →
  linked_invariant s C → linked_invariant s' C.
Proof.
  intros Hp Hl Hc (Hlc & Hic & Hok & Hwk).
  assert (HL : ∀ l f, _get_link s' l f = _get_link s l f)
    by (intros; unfold _get_link; by rewrite Hl).
  assert (HG : ∀ x f, utils_get s' x f = utils_get s x f)
    by (intros; by apply utils_get_props).
  split; [|split; [|split]].
  - unfold link_consistent. rewrite HL, !HG. apply Hlc.
  - intros inv P Hinv. rewrite HL, !HG, !occurrences_occ, Hl.
    rewrite <- occurrences_occ. by apply Hic.
  - intros inv P Hinv. destruct (Hok inv P Hinv) as [?|(? & a & Ha & ? & Hu)];
      [by left|right]. split; [done|]. exists a.
    rewrite children_view, Hl, Hp, HG. by rewrite children_view in Ha.
  - intros v l. rewrite (store_get_collections s s' _ _ Hc), HG. apply Hwk.
Qed.

(** The invariant in a store where only the foreign key of [C] was
    written, with a value that suits the link field. *)
Lemma invariant_fk_only (s s' : store) (C : loc) (k : value) :
  let cur := _get_link s C L in
  linked_invariant s C →
  (∀ l f, (l, f) ≠ (C, FK) → props s' !! (l, f) = props s !! (l, f)) →
  utils_get s' (VRef C) FK = k →
  links s' = links s →
  collections s' = collections s →
  (cur ≠ VUndef → k = utils_get s cur rid) →
  linked_invariant s' C.
Proof.
  intros cur (Hlc & Hic & Hok & Hwk) Hprops Hk Hlinks Hcoll Hcur.
  assert (F3 : ∀ x, utils_get s' x rid = utils_get s x rid).
  { intros [| | | | |l|]; try done. unfold utils_get, _get_prop.
    rewrite Hprops; [done|]. congruence. }
  assert (Fid : utils_get s' (VRef C) (idAttribute mapper)
                = utils_get s (VRef C) (idAttribute mapper)).
  { unfold utils_get, _get_prop. rewrite Hprops; [done|]. congruence. }
  assert (FL : ∀ l f, _get_link s' l f = _get_link s l f)
    by (intros; unfold _get_link; by rewrite Hlinks).
  split; [|split; [|split]].
  - unfold link_consistent. rewrite FL, Hk, F3. apply Hcur.
  - intros inv P Hinv. rewrite FL, Hk, F3, occurrences_occ, Hlinks, <- occurrences_occ.
    rewrite (Hic inv P Hinv). fold cur.
    split; intros [Hfk HL]; (split; [|done]).
    + rewrite <- HL. apply Hcur. by rewrite HL.
    + rewrite <- HL. apply Hlc. fold cur. by rewrite HL.
  - intros inv P Hinv. destruct (Hok inv P Hinv) as [?|(? & a & Ha & ? & Hu)];
      [by left|right]. split; [done|]. exists a.
    rewrite children_view, Hlinks, Fid. rewrite children_view in Ha.
    split; [done|]. split; [done|].
    intros x Hx Ht. apply Hu; [done|]. unfold child_test in *.
    rewrite Hprops in Ht; [done|]. congruence.
  - intros v l Hget. rewrite F3. apply Hwk.
    by rewrite <- (store_get_collections s s' _ _ Hcoll).
Qed.

(** The store after lines 130-149 of the foreign-key setter. *)
Lemma foreignKey_written (s sA : store) (C : loc) (v : value) :
  props sA = props s → added sA = added s → collections sA = collections s →
  let sC := updateIndex name (VRef C) FK (safeSetProp (VRef C) FK v sA) in
  props sC = <[(C, FK) := v]> (props s)
  ∧ links sC = links sA ∧ added sC = added s ∧ collections sC = collections s
  ∧ utils_get sC (VRef C) FK = v
  ∧ utils_get sC (VRef C) (idAttribute mapper)
    = utils_get s (VRef C) (idAttribute mapper)
  ∧ (∀ x, utils_get sC x rid = utils_get s x rid).
Proof.
  intros Hp Ha Hc sC.
  assert (HpC : props sC = <[(C, FK) := v]> (props s)).
  { subst sC. autorewrite with frames. unfold link_write. by rewrite Hp. }
  split; [done|].
  split; [subst sC; by autorewrite with frames|].
  split; [subst sC; by autorewrite with frames|].
  split; [subst sC; by autorewrite with frames|].
  unfold utils_get, _get_prop. rewrite HpC.
  split; [by rewrite lookup_insert_eq|].
  split; [rewrite lookup_insert_ne; [done|congruence]|].
  intros [| | | | |l|]; try done. rewrite lookup_insert_ne; [done|congruence].
Qed.

(** Assigning [undefined], or [null] when there is no parent or the
    parent has an identifier. *)
Lemma foreign_key_nullish_preserves_invariant (s : store) (C : loc) (v : value) :
  v = VUndef
  ∨ (v = VNull
     ∧ (_get_link s C L = VUndef ∨ utils_get s (_get_link s C L) rid ≠ VUndef)) →
  linked_invariant s C → linked_invariant (foreignKey_assign C v s) C.
Proof.
  intros Hv Hinv. unfold plain_assign.
  set (cur := _get_link s C L) in *.
  set (id := utils_get s (VRef C) (idAttribute mapper)).
  set (cpid := if truthy cur then utils_get s cur rid else VUndef).
  match goal with
  | |- context [safeSetProp (VRef C) FK v ?x] => remember x as sA eqn:HsA
  end.
  pose proof (inline_teardown_frame s sA C _ HsA) as (Hp & Had & Hc & Hi & Hl).
  destruct (foreignKey_written s sA C v Hp Had Hc)
    as (HpC & HlC & HaC & HcC & HkC & HidC & HrC).
  set (sC := updateIndex name (VRef C) FK (safeSetProp (VRef C) FK v sA)) in *.
  assert (bool_decide (v = VUndef) || bool_decide (v = VNull) = true) as ->.
  { destruct Hv as [->|[-> _]]; reflexivity. }
  destruct (decide (cpid = VUndef)) as [Hcp|Hcp].
  - rewrite bool_decide_false by (by intros ?).
    assert (sA = s) as ->.
    { rewrite HsA. rewrite (bool_decide_false (cpid ≠ VUndef)) by (by intros ?).
      rewrite andb_false_r. by destruct (getInverse def mapper). }
    apply (invariant_fk_only s sC C v); try done.
    + intros l f Hlf. rewrite HpC. by rewrite lookup_insert_ne.
    + fold cur. intros Hcur. subst cpid.
      destruct Hv as [->|[-> [Hno|Hid]]].
      * destruct (truthy cur) eqn:Ht; [done|]. by destruct cur.
      * done.
      * destruct (truthy cur) eqn:Ht; [done|]. by destruct cur.
  - rewrite bool_decide_true by done.
    assert (Ht : truthy cur = true).
    { subst cpid. by destruct (truthy cur). }
    assert (HcurC : _get_link sC C L = cur).
    { unfold _get_link. rewrite HlC. destruct Hl as [->| ->]; [done|].
      by rewrite teardown_links_lookup_field. }
    unfold plain_set_link.
    assert (Hne : VUndef ≠ _get_link sC C L).
    { rewrite HcurC. intros E. by rewrite <- E in Ht. }
    rewrite set_falsy by done. cbn [snd].
    rewrite HcurC, HidC, HpC, HlC. fold id cur.
    apply (invariant_after s _ C VUndef v
             (child_test (props s) C id (idAttribute mapper)));
      cbn [props links collections]; try done.
    + intros l f Hlf. by rewrite lookup_insert_ne.
    + unfold utils_get, _get_prop. cbn [props]. by rewrite lookup_insert_eq.
    + rewrite attach_links_undefined. f_equal.
      rewrite (teardown_links_ext _ (child_test (props s) C id (idAttribute mapper)))
        by (intros x; apply child_test_insert; simpl; congruence).
      destruct Hl as [->| ->]; [done|].
      apply teardown_links_twice. intros Q inv HQ _. by apply Hinv.
Qed.

Lemma foreign_key_resolved_preserves_invariant (s : store) (C P : loc) (v : value) :
  linked_invariant s C →
  _get_added s C = true →
  store_get s (relation def) v = VRef P →
  linked_invariant (foreignKey_assign C v s) C.
Proof.
  intros Hinv Ha HP.
  assert (Hv : utils_get s (VRef P) rid = v) by by apply Hinv.
  destruct (decide (_get_link s C L = VRef P)) as [Hcur|Hcur].
  - destruct (store_get_ref_key _ _ _ _ HP) as [Hvu Hvn].
    unfold plain_assign. rewrite !Hcur. cbn [truthy].
    rewrite Hv. rewrite (bool_decide_false (v ≠ v)) by (by intros ?).
    rewrite andb_false_r.
    match goal with
    | |- context [safeSetProp (VRef C) FK v ?x] =>
        assert (x = s) as -> by (by destruct (getInverse def mapper))
    end.
    destruct (foreignKey_written s s C v eq_refl eq_refl eq_refl)
      as (HpC & HlC & HaC & HcC & HkC & HidC & HrC).
    set (sC := updateIndex name (VRef C) FK (safeSetProp (VRef C) FK v s)) in *.
    rewrite !bool_decide_false by done. cbn [orb].
    rewrite (_get_added_added s sC C HaC), Ha.
    rewrite (store_get_collections s sC _ _ HcC), HP. cbn [truthy].
    unfold plain_set_link.
    rewrite set_same by (unfold _get_link; by rewrite HlC). cbn [snd].
    apply (invariant_fk_only s sC C v); try done.
    + intros l f Hlf. rewrite HpC. by rewrite lookup_insert_ne.
    + intros _. by rewrite Hcur.
  - pose proof (foreignKey_assign_as_set s C P Ha) as Hsym.
    rewrite Hv in Hsym.
    rewrite Hsym; [by apply set_preserves_invariant|done|done|].
    intros Q inv Hq _. by apply Hinv.
Qed.

(** *** The invariant of a child when another child is relinked *)

Local Abbreviation kept_for := (kept_for getInverse mapper def).

Lemma kept_for_refl (C C2 : loc) (m : gmap (loc * string) value) : kept_for C C2 m m.
Proof. split; [done|]. intros inv P a _ Ha. exists a. auto. Qed.

Lemma kept_for_trans (C C2 : loc) (m1 m2 m3 : gmap (loc * string) value) :
  kept_for C C2 m1 m2 → kept_for C C2 m2 m3 → kept_for C C2 m1 m3.
Proof.
  intros [E1 H1] [E2 H2]. split; [by rewrite E2|].
  intros inv P a Hinv Ha.
  destruct (H1 inv P a Hinv Ha) as (a1 & Ha1 & Hc1 & Hin1).
  destruct (H2 inv P a1 Hinv Ha1) as (a2 & Ha2 & Hc2 & Hin2).
  exists a2. split; [done|]. split; [by rewrite Hc2|].
  intros x Hx. destruct (Hin2 x Hx) as [Hx1|?]; [by apply Hin1|by right].
Qed.

Lemma utils_remove_count_other (pred : loc → bool) (C : loc) (a : list loc) :
  pred C = false →
  count_occ Pos.eq_dec (utils_remove pred a) C = count_occ Pos.eq_dec a C.
Proof.
  intros HC. induction a as [|x a IH]; simpl; [done|].
  destruct (pred x) eqn:Hx.
  - destruct (Pos.eq_dec x C) as [->|]; [congruence|done].
  - simpl. destruct (Pos.eq_dec x C); by rewrite IH.
Qed.

Lemma utils_noDupeAdd_count_other (pred : loc → bool) (C C2 : loc) (a : list loc) :
  C2 ≠ C →
  count_occ Pos.eq_dec (utils_noDupeAdd C2 pred a) C = count_occ Pos.eq_dec a C.
Proof.
  intros Hne. unfold utils_noDupeAdd. destruct (existsb pred a); [done|].
  rewrite count_occ_app. simpl. destruct (Pos.eq_dec C2 C); [done|lia].
Qed.

(** The inverse, if there is one, is no to-one slot. *)
Local Abbreviation no_slot :=
  (∀ inv, getInverse def mapper = Some inv → type inv ≠ hasOneType).

Lemma kept_for_teardown (C C2 : loc) (pred : loc → bool) (cur : value)
    (m : gmap (loc * string) value) :
  no_slot → pred C = false → kept_for C C2 m (teardown_links pred cur m).
Proof.
  intros Hmany HC. split; [by apply teardown_links_lookup_field|].
  intros inv P a Hinv Ha. unfold teardown_links. rewrite Hinv.
  destruct (truthy cur); [|by exists a; auto].
  destruct (decide (type inv = hasOneType)); [by destruct (Hmany inv Hinv)|].
  destruct (decide (type inv = hasManyType)); [|by exists a; auto].
  eexists. split; [by apply view_children_write|].
  destruct (decide (cur = VRef P)); [|by auto].
  split; [by apply utils_remove_count_other|].
  intros x Hx. left. by eapply utils_remove_In.
Qed.

Lemma kept_for_insert (C C2 : loc) (v : value) (m : gmap (loc * string) value) :
  C2 ≠ C → kept_for C C2 m (<[(C2, L) := v]> m).
Proof.
  intros Hne. split; [rewrite lookup_insert_ne; [done|congruence]|].
  intros inv P a Hinv Ha. exists a.
  rewrite view_insert_ne; [auto|].
  intros [= _ E]. by apply (fields_apart inv Hinv).
Qed.

Lemma kept_for_attach (C C2 : loc) (pred : loc → bool) (R : value)
    (m : gmap (loc * string) value) :
  no_slot → C2 ≠ C → kept_for C C2 m (attach_links pred C2 R m).
Proof.
  intros Hmany Hne. split; [by apply attach_links_lookup_field|].
  intros inv P a Hinv Ha. unfold attach_links. rewrite Hinv.
  destruct (decide (type inv = hasOneType)); [by destruct (Hmany inv Hinv)|].
  destruct (decide (type inv = hasManyType)); [|by exists a; auto].
  eexists. split; [by apply view_children_write|].
  destruct (decide (R = VRef P)); [|by auto].
  split; [by apply utils_noDupeAdd_count_other|].
  intros x Hx. by apply utils_noDupeAdd_In in Hx.
Qed.

(** Neither of two different records with different identifiers passes the
    membership test of the other. *)
Lemma child_test_other (ps : gmap (loc * string) value) (C C2 : loc) :
  C2 ≠ C →
  default VUndef (ps !! (C2, idAttribute mapper))
  ≠ default VUndef (ps !! (C, idAttribute mapper)) →
  child_test ps C2 (default VUndef (ps !! (C2, idAttribute mapper)))
    (idAttribute mapper) C = false
  ∧ child_test ps C (default VUndef (ps !! (C, idAttribute mapper)))
      (idAttribute mapper) C2 = false.
Proof.
  intros Hne Hid. unfold child_test. split; case_decide;
    rewrite ?bool_decide_false; try done; congruence.
Qed.

(** The invariant of [C] in a store where only the foreign key of [C2] was
    written and the links are kept for [C]. *)
Lemma invariant_kept (s s' : store) (C C2 : loc) :
  linked_invariant s C →
  no_slot → C2 ≠ C →
  utils_get s (VRef C2) (idAttribute mapper) ≠ utils_get s (VRef C) (idAttribute mapper) →
  (∀ l f, (l, f) ≠ (C2, FK) → props s' !! (l, f) = props s !! (l, f)) →
  collections s' = collections s →
  kept_for C C2 (links s) (links s') →
  linked_invariant s' C.
Proof.
  intros (Hlc & Hic & Hok & Hwk) Hmany Hne Hid Hprops Hcoll [HL Hkept].
  assert (F3 : ∀ x, utils_get s' x rid = utils_get s x rid).
  { intros [| | | | |l|]; try done. unfold utils_get, _get_prop.
    rewrite Hprops; [done|]. congruence. }
  assert (FC : ∀ f, utils_get s' (VRef C) f = utils_get s (VRef C) f).
  { intros f. unfold utils_get, _get_prop. rewrite Hprops; [done|]. congruence. }
  assert (FL : _get_link s' C L = _get_link s C L)
    by (unfold _get_link; by rewrite HL).
  assert (Hview : ∀ inv P, getInverse def mapper = Some inv →
            ∃ a a', view (links s) P (localField inv) = Some a
              ∧ view (links s') P (localField inv) = Some a'
              ∧ count_occ Pos.eq_dec a' C = count_occ Pos.eq_dec a C
              ∧ count_occ Pos.eq_dec a C ≤ 1
              ∧ (∀ x, In x a →
                   child_test (props s) C (utils_get s (VRef C) (idAttribute mapper))
                     (idAttribute mapper) x = true → x = C)
              ∧ ∀ x, In x a' → In x a ∨ x = C2).
  { intros inv P Hinv.
    destruct (Hok inv P Hinv) as [H1|(_ & a & Ha & Hc & Hu)];
      [by destruct (Hmany inv Hinv)|].
    rewrite children_view in Ha.
    destruct (Hkept inv P a Hinv Ha) as (a' & Ha' & Hc' & Hin').
    by exists a, a'. }
  split; [|split; [|split]].
  - unfold link_consistent. rewrite FL, FC, F3. apply Hlc.
  - intros inv P Hinv. rewrite FL, FC, F3. rewrite <- (Hic inv P Hinv).
    destruct (Hview inv P Hinv) as (a & a' & Ha & Ha' & Hc' & _).
    rewrite !occurrences_occ, (occ_view _ _ _ _ _ Ha), (occ_view _ _ _ _ _ Ha').
    by rewrite Hc'.
  - intros inv P Hinv.
    destruct (Hok inv P Hinv) as [H1|(H1 & _)]; [by left|]. right. split; [done|].
    destruct (Hview inv P Hinv) as (a & a' & Ha & Ha' & Hc' & Hc & Hu & Hin').
    exists a'. rewrite children_view. split; [done|]. split; [lia|].
    intros x Hx Ht. rewrite FC in Ht.
    assert (Ht' : child_test (props s) C (utils_get s (VRef C) (idAttribute mapper))
                    (idAttribute mapper) x = true).
    { unfold child_test in *. rewrite Hprops in Ht; [done|]. congruence. }
    destruct (Hin' x Hx) as [Hxa| ->]; [by apply Hu|].
    destruct (child_test_other (props s) C C2 Hne Hid) as [_ E].
    unfold utils_get, _get_prop in Ht'. congruence.
  - intros v l Hget. rewrite F3. apply Hwk.
    by rewrite <- (store_get_collections s s' _ _ Hcoll).
Qed.

Lemma other_set_preserves_invariant (s : store) (C C2 : loc) (R : value) :
  linked_invariant s C →
  no_slot → C2 ≠ C →
  utils_get s (VRef C2) (idAttribute mapper) ≠ utils_get s (VRef C) (idAttribute mapper) →
  linked_invariant (set C2 R s).2 C.
Proof.
  intros Hinv Hmany Hne Hid.
  destruct (child_test_other (props s) C C2 Hne Hid) as [Hpred _].
  fold (_get_prop s C2 (idAttribute mapper)) in Hpred.
  change (_get_prop s C2 (idAttribute mapper))
    with (utils_get s (VRef C2) (idAttribute mapper)) in Hpred.
  destruct (decide (R = _get_link s C2 L)) as [e|ne].
  { by rewrite set_same. }
  destruct (truthy R) eqn:Ht.
  - rewrite set_truthy by done. cbn [snd].
    apply (invariant_kept s _ C C2); cbn [props links collections]; try done.
    + intros l f Hlf. by rewrite lookup_insert_ne.
    + eapply kept_for_trans; [by apply kept_for_teardown|].
      eapply kept_for_trans; [by apply kept_for_insert|].
      by apply kept_for_attach.
  - rewrite set_falsy by done. cbn [snd].
    apply (invariant_kept s _ C C2); cbn [props links collections]; try done.
    eapply kept_for_trans; [by apply kept_for_teardown|].
    by apply kept_for_insert.
Qed.

Lemma other_foreign_key_preserves_invariant (s : store) (C C2 : loc) (v : value) :
  linked_invariant s C →
  no_slot → C2 ≠ C →
  utils_get s (VRef C2) (idAttribute mapper) ≠ utils_get s (VRef C) (idAttribute mapper) →
  linked_invariant (foreignKey_assign C2 v s) C.
Proof.
  intros Hinv Hmany Hne Hid.
  destruct (child_test_other (props s) C C2 Hne Hid) as [Hpred _].
  unfold plain_assign.
  match goal with
  | |- context [safeSetProp (VRef C2) FK v ?x] => remember x as sA eqn:HsA
  end.
  pose proof (inline_teardown_frame s sA C2 _ HsA) as (Hp & Had & Hc & Hi & Hl).
  destruct (foreignKey_written s sA C2 v Hp Had Hc)
    as (HpC & HlC & HaC & HcC & HkC & HidC & HrC).
  set (sC := updateIndex name (VRef C2) FK (safeSetProp (VRef C2) FK v sA)) in *.
  assert (HinvC : linked_invariant sC C).
  { apply (invariant_kept s sC C C2); try done.
    - intros l f Hlf. rewrite HpC. by rewrite lookup_insert_ne.
    - rewrite HlC. destruct Hl as [->| ->]; [apply kept_for_refl|].
      by apply kept_for_teardown. }
  assert (HidC' : utils_get sC (VRef C2) (idAttribute mapper)
                  ≠ utils_get sC (VRef C) (idAttribute mapper)).
  { rewrite HidC. unfold utils_get at 2. unfold _get_prop. rewrite HpC.
    rewrite lookup_insert_ne by congruence. exact Hid. }
  unfold plain_set_link. cbv zeta.
  destruct (bool_decide (v = VUndef) || bool_decide (v = VNull)).
  - destruct (bool_decide _); [|done]. by apply other_set_preserves_invariant.
  - destruct (_get_added sC C2); [|done].
    destruct (truthy (store_get sC (relation def) v)); [|done].
    by apply other_set_preserves_invariant.
Qed.

(** C1, as amended. Starting from a store in which the invariant holds for
    a child [C] (a defined link field goes with the foreign key; a parent's
    inverse slot or collection contains [C] exactly when foreign key and
    link field of [C] are on that parent; the inverse fields are well
    formed and the parent collection is keyed by identifier), it holds
    again after any complete run on [C] of the link-field setter and, for a
    relation without [def.get] and [def.set], of the foreign-key setter
    with [undefined], with [null] when [C] has no parent or its parent has
    an identifier, and with an identifier the parent collection holds when
    the store holds [C]. It also holds again
    after a run on another record [C2] that has another identifier, when
    the inverse is no HasOne slot: of the link-field setter, and without
    [def.get] and [def.set] of the foreign-key setter, whatever they are
    given. (Schema: [fields_apart], [fk_not_id] and [fk_not_rid].) *)
Theorem linked_invariant_preserved (s : store) (C : loc) :
  linked_invariant s C →
  (∀ R, linked_invariant (set C R s).2 C)
  ∧ (def_get def = None → def_set def = None →
     (∀ v,
        v = VUndef
        ∨ (v = VNull
           ∧ (_get_link s C L = VUndef
              ∨ utils_get s (_get_link s C L) rid ≠ VUndef)) →
        linked_invariant
          (final_store
             (BelongsTo.foreignKey_set getInverse getRelation mapper def name None C v s))
          C)
     ∧ ∀ v P,
         _get_added s C = true →
         store_get s (relation def) v = VRef P →
         linked_invariant
           (final_store
              (BelongsTo.foreignKey_set getInverse getRelation mapper def name None C v s))
           C)
  ∧ (∀ C2,
       C2 ≠ C →
       utils_get s (VRef C2) (idAttribute mapper)
       ≠ utils_get s (VRef C) (idAttribute mapper) →
       (∀ inv, getInverse def mapper = Some inv → type inv ≠ hasOneType) →
       (∀ R, linked_invariant (set C2 R s).2 C)
       ∧ (def_get def = None → def_set def = None →
          ∀ v, linked_invariant
                 (final_store
                    (BelongsTo.foreignKey_set getInverse getRelation mapper def name
                       None C2 v s))
                 C)).
Proof.
  intros Hinv. split; [|split].
  - intros R. by apply set_preserves_invariant.
  - intros Hg Hs. split.
    + intros v Hv. rewrite foreignKey_set_plain by done.
      by apply foreign_key_nullish_preserves_invariant.
    + intros v P Ha HP. rewrite foreignKey_set_plain by done.
      by apply (foreign_key_resolved_preserves_invariant s C P).
  - intros C2 Hne Hid Hmany. split.
    + intros R. by apply other_set_preserves_invariant.
    + intros Hg Hs v. rewrite foreignKey_set_plain by done.
      by apply other_foreign_key_preserves_invariant.
Qed.

End BelongsToFacts.

(** The invariant holds in the store of the scenario, where nothing is
    linked yet. *)
Lemma scenario_invariant (C : loc) :
  linked_invariant Scenario.getInverse Scenario.getRelation Scenario.Comment
    Scenario.commentPost Scenario.s0 C.
Proof.
  split; [|split; [|split]].
  - intros H. exfalso. apply H. unfold _get_link. simpl. by rewrite lookup_empty.
  - intros inv P _. unfold occurrences, _get_link. simpl. rewrite !lookup_empty. simpl.
    split; [lia|]. by intros [_ ?].
  - intros inv P [= <-]. right. split; [reflexivity|]. exists [].
    unfold children, _get_link. simpl. rewrite lookup_empty. simpl.
    split; [done|]. split; [lia|]. by intros x [].
  - intros v l. unfold store_get. destruct (to_key v) as [k|] eqn:Hk; [|done].
    pose (c := ({[ inl 1%Z := Scenario.post1; inl 2%Z := Scenario.post2 ]}
                 : gmap (Z + string) positive)).
    change (collections Scenario.s0 !! relation Scenario.commentPost) with (Some c).
    cbv iota beta.
    destruct (c !! k) as [l'|] eqn:E; [|done]. intros [= ->].
    apply lookup_insert_Some in E as [[<- <-]|[_ E]].
    + destruct v; simpl in Hk; simplify_eq. reflexivity.
    + apply lookup_singleton_Some in E as [<- <-].
      destruct v; simpl in Hk; simplify_eq. reflexivity.
Qed.

Lemma linked_invariant_preserved_witness :
  let inv := linked_invariant Scenario.getInverse Scenario.getRelation Scenario.Comment
               Scenario.commentPost in
  inv (Scenario.setLink Scenario.comment1 (VRef Scenario.post1) Scenario.s0)
    Scenario.comment1
  ∧ inv (Scenario.setForeignKey Scenario.comment1 VUndef Scenario.s0) Scenario.comment1
  ∧ inv (Scenario.setForeignKey Scenario.comment1 VNull Scenario.s0) Scenario.comment1
  ∧ inv (Scenario.setForeignKey Scenario.comment1 (VNum 2) Scenario.s0) Scenario.comment1
  ∧ inv (Scenario.setLink Scenario.comment2 (VRef Scenario.post1) Scenario.s0)
      Scenario.comment1
  ∧ inv (Scenario.setForeignKey Scenario.comment2 (VNum 1) Scenario.s0) Scenario.comment1.
Proof.
  intros inv.
  assert (Hfa : ∀ i, Scenario.getInverse Scenario.commentPost Scenario.Comment = Some i →
                  localField i ≠ localField Scenario.commentPost).
  { intros i. vm_compute. by intros [= <-]. }
  assert (Hfk : foreignKey Scenario.commentPost ≠ idAttribute Scenario.Comment) by done.
  assert (Hfr : foreignKey Scenario.commentPost
                ≠ idAttribute (Scenario.getRelation Scenario.commentPost)) by done.
  destruct (linked_invariant_preserved Scenario.getInverse Scenario.getRelation
              Scenario.Comment Scenario.commentPost "comment" Hfa Hfk Hfr
              Scenario.s0 Scenario.comment1 (scenario_invariant Scenario.comment1))
    as (Hset & Hfk1 & Hother).
  destruct (Hfk1 eq_refl eq_refl) as [Hnull Hres].
  destruct (Hother Scenario.comment2) as [Hset2 Hfk2].
  { discriminate. }
  { vm_compute. discriminate. }
  { intros i. vm_compute. by intros [= <-]. }
  split; [apply Hset|].
  split; [apply Hnull; by left|].
  split; [apply Hnull; right; split; [done|]; left; vm_compute; reflexivity|].
  split; [apply (Hres (VNum 2) Scenario.post2); vm_compute; reflexivity|].
  split; [apply Hset2|].
  by apply Hfk2.
Defined.

(** C1 as stated fails, in each of these sequences of complete runs of the
    setters from the store of the scenario, where the invariant holds:
    - a comment the store does not hold, linked to post 1, keeps that link
      when its foreign key is assigned 2;
    - a comment of the store, linked to post 1, keeps that link when its
      foreign key is assigned 99, which no post of the store carries;
    - a comment linked to a post that has no identifier yet keeps that
      link when its foreign key is assigned [null];
    - with a [def.set] that never unlinks, a comment linked to post 1
      keeps that link when its foreign key is assigned [undefined];
    - profile 7 belongs to user 5, and user 5 no longer has it in its
      HasOne slot once another profile was set to belong to user 5;
    - comment 10 belongs to post 1, and post 1 no longer has it among its
      comments once a detached copy of comment 10 was linked to post 1 and
      then to post 2. *)
Lemma linked_invariant_preserved_counterexample :
  (let s := Scenario.setForeignKey Scenario.comment2 (VNum 2)
              (Scenario.setLink Scenario.comment2 (VRef Scenario.post1) Scenario.s0) in
   _get_link s Scenario.comment2 "post" = VRef Scenario.post1
   ∧ utils_get s (VRef Scenario.comment2) "postId"
     ≠ utils_get s (_get_link s Scenario.comment2 "post") "id"
   ∧ ¬ link_consistent Scenario.getRelation Scenario.commentPost s Scenario.comment2)
  ∧ (let s := Scenario.setForeignKey Scenario.comment1 (VNum 99)
                (Scenario.setLink Scenario.comment1 (VRef Scenario.post1) Scenario.s0) in
     ¬ link_consistent Scenario.getRelation Scenario.commentPost s Scenario.comment1)
  ∧ (let s := Scenario.setForeignKey Scenario.comment1 VNull
                (Scenario.setLink Scenario.comment1 (VRef Examples.draft) Scenario.s0) in
     ¬ link_consistent Scenario.getRelation Scenario.commentPost s Scenario.comment1)
  ∧ (let s1 := final_store
                 (BelongsTo.utils_set_link Scenario.getInverse Scenario.getRelation
                    Scenario.Comment Examples.keptPost "comment" Scenario.comment1
                    (VRef Scenario.post1) Scenario.s0) in
     let s := final_store
                (BelongsTo.foreignKey_set Scenario.getInverse Scenario.getRelation
                   Scenario.Comment Examples.keptPost "comment" None Scenario.comment1
                   VUndef s1) in
     ¬ link_consistent Scenario.getRelation Examples.keptPost s Scenario.comment1)
  ∧ (let s := Examples.setUser Examples.profile2 (VRef Scenario.user1)
                (Examples.setUser Scenario.profile1 (VRef Scenario.user1) Examples.s2) in
     utils_get s (VRef Examples.profile2) "id" ≠ utils_get s (VRef Scenario.profile1) "id"
     ∧ ¬ inverse_consistent Scenario.getInverse Scenario.getRelation Scenario.Profile
           Scenario.profileUser s Scenario.profile1)
  ∧ (let s := Scenario.setLink Examples.comment1_copy (VRef Scenario.post2)
                (Scenario.setLink Examples.comment1_copy (VRef Scenario.post1)
                   (Scenario.setLink Scenario.comment1 (VRef Scenario.post1)
                      Examples.s2)) in
     ¬ inverse_consistent Scenario.getInverse Scenario.getRelation Scenario.Comment
         Scenario.commentPost s Scenario.comment1).
Proof.
  assert (Hlink : ∀ def s C,
            _get_link s C (localField def) ≠ VUndef →
            utils_get s (VRef C) (foreignKey def)
            ≠ utils_get s (_get_link s C (localField def))
                (idAttribute (Scenario.getRelation def)) →
            ¬ link_consistent Scenario.getRelation def s C).
  { intros def s C Hd Hne H. by apply Hne, H. }
  assert (Hinverse : ∀ mapper def inv s C P,
            Scenario.getInverse def mapper = Some inv →
            occurrences s (localField inv) P C = 0 →
            utils_get s (VRef C) (foreignKey def)
            = utils_get s (VRef P) (idAttribute (Scenario.getRelation def)) →
            _get_link s C (localField def) = VRef P →
            ¬ inverse_consistent Scenario.getInverse Scenario.getRelation mapper def s C).
  { intros mapper def inv s C P Hinv Hocc Hfk Hl H.
    destruct (H inv P Hinv) as [_ H2]. specialize (H2 (conj Hfk Hl)). lia. }
  split; [|split; [|split; [|split; [|split]]]].
  - cbv zeta. split; [vm_compute; reflexivity|]. split; [vm_compute; discriminate|].
    apply Hlink; vm_compute; discriminate.
  - apply Hlink; vm_compute; discriminate.
  - apply Hlink; vm_compute; discriminate.
  - apply Hlink; vm_compute; discriminate.
  - cbv zeta. split; [vm_compute; discriminate|].
    apply (Hinverse _ _ Scenario.userProfile _ _ Scenario.user1); vm_compute; reflexivity.
  - apply (Hinverse _ _ Scenario.postComments _ _ Scenario.post1); vm_compute; reflexivity.
Qed.

Lemma set_link_canonical_witness :
  _get_link (Scenario.setLink Scenario.comment1 (VRef Scenario.post1_copy) Scenario.s0)
    Scenario.comment1 "post" = VRef Scenario.post1.
Proof.
  apply (set_link_canonical Scenario.getInverse Scenario.getRelation Scenario.Comment
           Scenario.commentPost "comment").
  - intros inv. vm_compute. by intros [= <-].
  - vm_compute. reflexivity.
  - vm_compute. reflexivity.
  - vm_compute. reflexivity.
  - vm_compute. discriminate.
Defined.

(** C5 as stated fails for a child the store does not hold: its link field
    keeps the detached copy of post 1, not the stored post 1. *)
Lemma set_link_canonical_counterexample :
  let s' := Scenario.setLink Scenario.comment2 (VRef Scenario.post1_copy) Scenario.s0 in
  utils_get Scenario.s0 (VRef Scenario.post1_copy) "id"
    = utils_get Scenario.s0 (VRef Scenario.post1) "id"
  ∧ store_get Scenario.s0 "post" (utils_get Scenario.s0 (VRef Scenario.post1) "id")
    = VRef Scenario.post1
  ∧ _get_link s' Scenario.comment2 "post" = VRef Scenario.post1_copy
  ∧ _get_link s' Scenario.comment2 "post" ≠ VRef Scenario.post1.
Proof. vm_compute. repeat split; (reflexivity || discriminate). Qed.

(** C7. [createChildRecord] of a BelongsTo relation throws whatever the
    store, and the store it leaves is the one it was called in. *)
Theorem createChildRecord_throws (A : Type) (s : store) :
  ∃ message, @BelongsTo.createChildRecord A s = Throw (Error message) s.
Proof. eexists. reflexivity. Qed.

Lemma set_link_round_trip_witness :
  let s' := Scenario.setLink Scenario.comment1 (VRef Scenario.post1) Scenario.s0 in
  utils_get s' (_get_link s' Scenario.comment1 "post") "id"
    = utils_get s' (VRef Scenario.post1) "id"
  ∧ utils_get s' (VRef Scenario.comment1) "postId" = utils_get s' (VRef Scenario.post1) "id".
Proof.
  apply (set_link_round_trip Scenario.getInverse Scenario.getRelation Scenario.Comment
           Scenario.commentPost "comment").
  - intros inv. vm_compute. by intros [= <-].
  - vm_compute. reflexivity.
  - vm_compute. discriminate.
Defined.

(** C2 as stated fails: a comment outside the store linked to post 1, whose
    foreign key was then assigned 2, keeps that foreign key when its link
    field is set to post 1 again, since post 1 is the current parent. *)
Lemma set_link_round_trip_counterexample :
  let s := Scenario.setForeignKey Scenario.comment2 (VNum 2)
             (Scenario.setLink Scenario.comment2 (VRef Scenario.post1) Scenario.s0) in
  let s' := Scenario.setLink Scenario.comment2 (VRef Scenario.post1) s in
  store_get s "post" (utils_get s (VRef Scenario.post1) "id") = VRef Scenario.post1
  ∧ utils_get s' (VRef Scenario.comment2) "postId"
    ≠ utils_get s' (VRef Scenario.post1) "id".
Proof. vm_compute. split; [reflexivity | discriminate]. Qed.





(** ** HasOne without an inverse *)

(** C9 at its failing input. With no inverse definition on the related
    type, the HasOne setter throws a [TypeError] before any bookkeeping as
    soon as the record assigned is not the current one. *)
Theorem hasOne_set_without_inverse_throws
    (getInverse : Relation → Mapper → option Relation) (getRelation : Relation → Mapper)
    (mapper : Mapper) (def : Relation) (this : loc) (record : value) (s : store) :
  getInverse def mapper = None →
  record ≠ _get_link s this (localField def) →
  ∃ message,
    HasOne.set getInverse getRelation mapper def this record s
    = Throw (TypeError message) s.
Proof.
  intros Hinv Hne. unfold HasOne.set.
  rewrite decide_False by done. rewrite Hinv. by eexists.
Qed.

Lemma hasOne_set_without_inverse_throws_witness :
  ∃ message,
    HasOne.set Scenario.noInverse Scenario.getRelation Scenario.User Scenario.userProfile
      Scenario.user1 (VRef Scenario.profile1) Scenario.s0
    = Throw (TypeError message) Scenario.s0.
Proof.
  apply hasOne_set_without_inverse_throws.
  - reflexivity.
  - vm_compute. discriminate.
Defined.

(** ** The DataStore *)

Section DataStoreFacts.

Variable getInverse : Relation → Mapper → option Relation.
Variable getRelation : Relation → Mapper.
Variable createHasManyDescriptor : CreateDescriptor.
Variable MapperOpts : Type.
Variable newMapper : string → MapperOpts → M (Mapper * gmap string Descriptor).

Local Abbreviation new := (DataStore.DataStore getInverse getRelation createHasManyDescriptor).
Local Abbreviation defineMapper := (DataStore.defineMapper MapperOpts newMapper).

Lemma fillIn_missing (opts : gmap string value) :
  DataStore.fillIn (delete "unlinkOnDestroy" opts) DataStore.DATASTORE_DEFAULTS
    !! "unlinkOnDestroy" = Some (VBool true).
Proof.
  unfold DataStore.fillIn, DataStore.DATASTORE_DEFAULTS.
  rewrite lookup_merge, lookup_delete_eq, lookup_singleton_eq. done.
Qed.

Lemma fillIn_given (opts : gmap string value) (v : value) :
  v ≠ VUndef →
  DataStore.fillIn (<["unlinkOnDestroy" := v]> opts) DataStore.DATASTORE_DEFAULTS
    !! "unlinkOnDestroy" = Some v.
Proof.
  intros Hv. unfold DataStore.fillIn, DataStore.DATASTORE_DEFAULTS.
  rewrite lookup_merge, lookup_insert_eq, lookup_singleton_eq. by destruct v.
Qed.

Lemma unlinkOnDestroy_registered (type cls : string) (d : CreateDescriptor)
    (self : DataStore.t) :
  DataStore.unlinkOnDestroy (DataStore.registerRelationshipType type cls d self)
  = DataStore.unlinkOnDestroy self.
Proof. done. Qed.

(** The flag of a store constructed without the option, without any
    option, and with the option [false]. *)
Lemma unlinkOnDestroy_missing (types : option (gmap string DataStore.RelationshipType))
    (opts : gmap string value) :
  DataStore.unlinkOnDestroy (new types (Some (delete "unlinkOnDestroy" opts))) = VBool true.
Proof.
  unfold DataStore.DataStore. rewrite !unlinkOnDestroy_registered.
  simpl. by rewrite fillIn_missing.
Qed.

Lemma unlinkOnDestroy_no_options (types : option (gmap string DataStore.RelationshipType)) :
  DataStore.unlinkOnDestroy (new types None) = VBool true.
Proof. unfold DataStore.DataStore. by rewrite !unlinkOnDestroy_registered. Qed.

Lemma unlinkOnDestroy_false (types : option (gmap string DataStore.RelationshipType))
    (opts : gmap string value) :
  DataStore.unlinkOnDestroy (new types (Some (<["unlinkOnDestroy" := VBool false]> opts)))
  = VBool false.
Proof.
  unfold DataStore.DataStore. rewrite !unlinkOnDestroy_registered.
  simpl. by rewrite fillIn_given.
Qed.

Lemma install_passed_over (self : DataStore.t) (mapper : Mapper) (name : string)
    (def : Relation) (prototype : gmap string Descriptor) (s : store) :
  passed_over self mapper name def →
  DataStore.install self mapper name def prototype s = Ok prototype s.
Proof.
  unfold passed_over, DataStore.install. intros H.
  destruct (DataStore.relationshipTypes self !! type def) as [rt|].
  - unfold mbind, M_bind. by rewrite H.
  - done.
Qed.

Lemma install_all_app (self : DataStore.t) (mapper : Mapper) (name : string)
    (defs1 defs2 : list Relation) (prototype : gmap string Descriptor) (s : store) :
  DataStore.install_all self mapper name (defs1 ++ defs2) prototype s
  = match DataStore.install_all self mapper name defs1 prototype s with
    | Ok prototype1 s1 => DataStore.install_all self mapper name defs2 prototype1 s1
    | Throw e s1 => Throw e s1
    end.
Proof.
  revert prototype s. induction defs1 as [|def defs1 IH]; intros prototype s; [done|].
  simpl. unfold mbind, M_bind.
  destruct (DataStore.install self mapper name def prototype s); [apply IH|done].
Qed.

(** The lookup of the kinds in the registry handed to the mapper
    definition. *)
Local Abbreviation lookup_kinds handed :=
  (DataStore.forEach (λ def : Relation,
     match handed !! type def with
     | Some _ => mret tt
     | None => throw (Error ("UnknownRelationKind: " ++ type def)%string)
     end)).

Lemma lookup_kinds_registered (handed : gmap string DataStore.RelationshipType)
    (defs : list Relation) (s : store) :
  Forall (λ def, is_Some (handed !! type def)) defs →
  lookup_kinds handed defs s = Ok tt s.
Proof.
  induction 1 as [|def defs [rt Hrt] _ IH]; [done|].
  simpl. unfold mbind, M_bind. by rewrite Hrt.
Qed.

Lemma lookup_kinds_unregistered (handed : gmap string DataStore.RelationshipType)
    (defs : list Relation) (def : Relation) (s : store) :
  def ∈ defs → handed !! type def = None →
  ∃ message, lookup_kinds handed defs s = Throw (Error message) s.
Proof.
  intros Hin Hnone. induction defs as [|d defs IH]; [by apply elem_of_nil in Hin|].
  simpl. unfold mbind, M_bind.
  destruct (handed !! type d) as [rt|] eqn:Hd.
  - apply elem_of_cons in Hin as [->|Hin]; [congruence|]. by apply IH.
  - by eexists.
Qed.

(** C8. The mapper of the name being built from the options, with the
    registry handed to the mapper definition ([opts._relationshipTypes],
    the registry of the store unless the caller passed one):
    - a relation of the mapper whose kind is not in that registry makes
      [defineMapper] throw an error, nothing being installed;
    - when every kind is in it, a relation that the loop passes over (the
      factory registered for its kind yields no descriptor and touches
      nothing, or the store itself has no factory for the kind) is skipped
      silently: its turn raises nothing and leaves every prototype as it
      is, and [defineMapper] yields what it yields for the other
      relations alone. *)
Theorem defineMapper_unregistered_kind (self : DataStore.t) (name : string)
    (opts : MapperOpts) (registry : option (gmap string DataStore.RelationshipType))
    (mapper : Mapper) (prototype0 : gmap string Descriptor) (s s0 : store) :
  let handed := default (DataStore.relationshipTypes self) registry in
  newMapper name opts s = Ok (mapper, prototype0) s0 →
  (∀ def, def ∈ relationList mapper → handed !! type def = None →
     ∃ message, defineMapper self name opts registry s = Throw (Error message) s0)
  ∧ (∀ pre def post,
       relationList mapper = pre ++ def :: post →
       Forall (λ d, is_Some (handed !! type d)) (relationList mapper) →
       passed_over self mapper name def →
       (∀ prototype s1,
          DataStore.install self mapper name def prototype s1 = Ok prototype s1)
       ∧ defineMapper self name opts registry s
         = (prototype ← DataStore.install_all self mapper name (pre ++ post) prototype0;
            mret (mapper, prototype)) s0).
Proof.
  intros handed Hnew. split.
  - intros def Hin Hnone.
    destruct (lookup_kinds_unregistered handed (relationList mapper) def s0 Hin Hnone)
      as [message Hthrow].
    exists message. unfold DataStore.defineMapper, DataStore.SimpleStore_defineMapper.
    unfold mbind, M_bind. rewrite Hnew. cbn [fst]. fold handed. by rewrite Hthrow.
  - intros pre def post Hsplit Hall Hskip.
    split; [intros prototype s1; by apply install_passed_over|].
    unfold DataStore.defineMapper, DataStore.SimpleStore_defineMapper.
    unfold mbind, M_bind. rewrite Hnew. cbn [fst snd]. fold handed.
    rewrite (lookup_kinds_registered handed _ s0 Hall). cbn [fst snd mret M_ret].
    rewrite Hsplit, !install_all_app.
    destruct (DataStore.install_all self mapper name pre prototype0 s0)
      as [prototype1 s1|]; [|done].
    simpl. unfold mbind, M_bind. by rewrite install_passed_over.
Qed.

End DataStoreFacts.

Lemma defineMapper_unregistered_kind_witness :
  (∃ message,
     DataStore.defineMapper Mapper Scenario.newMapper Scenario.theStore
       "post" Scenario.TaggedPost None Scenario.s0
     = Throw (Error message) Scenario.s0)
  ∧ DataStore.defineMapper Mapper Scenario.newMapper Scenario.theStore
      "post" Scenario.Post None Scenario.s0
    = Ok (Scenario.Post, ∅) Scenario.s0.
Proof.
  split.
  - destruct (defineMapper_unregistered_kind Mapper Scenario.newMapper Scenario.theStore
                "post" Scenario.TaggedPost None Scenario.TaggedPost ∅
                Scenario.s0 Scenario.s0 eq_refl) as [Ha _].
    apply (Ha Scenario.postTags); [by left|reflexivity].
  - destruct (defineMapper_unregistered_kind Mapper Scenario.newMapper Scenario.theStore
                "post" Scenario.Post None Scenario.Post ∅
                Scenario.s0 Scenario.s0 eq_refl) as [_ Hb].
    destruct (Hb [] Scenario.postComments [] eq_refl) as [_ Hrun].
    + repeat constructor. by eexists.
    + unfold passed_over. vm_compute. intros. reflexivity.
    + exact Hrun.
Defined.

(** ** The unlink pass of destroy *)

Section UnlinkFacts.

Variable getInverse : Relation → Mapper → option Relation.
Variable getRelation : Relation → Mapper.
Variable SimpleStore_destroy : string → value → gmap string value → M value.
Variable getMapper : string → Mapper.
Variable recordClass_prototype : string → gmap string Descriptor.

Local Abbreviation link_setter := (link_setter getInverse getRelation).
Local Abbreviation installed := (installed getInverse getRelation).

(** Unsetting one link field of [C]: the field is unset, the other fields
    of [C] and every record but the one the field pointed to are as
    before. *)
Lemma unlink_one (prototype : gmap string Descriptor) (mapper : Mapper) (name : string)
    (def : Relation) (C : loc) (s : store) :
  installed prototype mapper name def →
  _get_link s C (localField def) ≠ VRef C →
  ∃ s1,
    DataStore.utils_set prototype (VRef C) (localField def) VUndef s = Ok tt s1
    ∧ _get_link s1 C (localField def) = VUndef
    ∧ (∀ f, f ≠ localField def → links s1 !! (C, f) = links s !! (C, f))
    ∧ (∀ f, props s1 !! (C, f) = props s !! (C, f))
    ∧ (∀ l f, l ≠ C → _get_link s C (localField def) ≠ VRef l →
         props s1 !! (l, f) = props s !! (l, f)
         ∧ links s1 !! (l, f) = links s !! (l, f)).
Proof.
  intros (Hty & d & Hd & Hset) Hself.
  unfold DataStore.utils_set. rewrite Hd, Hset.
  unfold link_setter, mbind, M_bind.
  set (cur := _get_link s C (localField def)) in *.
  destruct Hty as [Hb|(Hh & inv & Hinv)].
  - rewrite decide_True by done.
    destruct (decide (VUndef = cur)) as [e|ne].
    + rewrite set_same by done. simpl. exists s. by rewrite e.
    + rewrite set_falsy by done. simpl. eexists. split; [reflexivity|].
      unfold _get_link. simpl. fold cur.
      rewrite lookup_insert_eq. split; [done|]. split; [|split; [done|]].
      * intros f Hf. rewrite lookup_insert_ne by congruence.
        by apply teardown_links_lookup_loc.
      * intros l f Hl Hcur. split; [done|].
        rewrite lookup_insert_ne by congruence.
        by apply teardown_links_lookup_loc.
  - assert (belongsToType ≠ hasOneType) by done.
    rewrite decide_False by congruence.
    unfold HasOne.set. fold cur.
    destruct (decide (VUndef = cur)) as [e|ne].
    + exists s. by rewrite <- e.
    + rewrite Hinv. simpl. eexists. split; [reflexivity|].
      unfold HasOne.unset_inverse, _get_link.
      destruct (truthy cur) eqn:Ht; cbn [links props with_links];
        autorewrite with frames; rewrite lookup_insert_eq;
        (split; [done|]); (split; [|split]).
      * intros f Hf. rewrite lookup_insert_ne by congruence.
        apply link_write_lookup_ne. congruence.
      * intros f. apply link_write_lookup_ne. congruence.
      * intros l f Hl Hcur. split.
        -- apply link_write_lookup_ne. congruence.
        -- rewrite lookup_insert_ne by congruence.
           apply link_write_lookup_ne. congruence.
      * intros f Hf. by rewrite lookup_insert_ne by congruence.
      * done.
      * intros l f Hl Hcur. split; [done|].
        by rewrite lookup_insert_ne by congruence.
Qed.

Lemma forEach_cons {A : Type} (fn : A → M unit) (x : A) (rest : list A) (s : store) :
  DataStore.forEach fn (x :: rest) s
  = match fn x s with
    | Ok _ s1 => DataStore.forEach fn rest s1
    | Throw e s1 => Throw e s1
    end.
Proof. reflexivity. Qed.

(** The pass over a list of relations. *)
Lemma unlink_each (prototype : gmap string Descriptor) (mapper : Mapper) (name : string)
    (C : loc) (defs : list Relation) (s : store) :
  Forall (installed prototype mapper name) defs →
  NoDup (localField <$> defs) →
  Forall (λ def, _get_link s C (localField def) ≠ VRef C) defs →
  ∃ s',
    DataStore.forEach
      (λ def, DataStore.utils_set prototype (VRef C) (localField def) VUndef) defs s
    = Ok tt s'
    ∧ Forall (λ def, _get_link s' C (localField def) = VUndef) defs
    ∧ (∀ f, f ∉ localField <$> defs → links s' !! (C, f) = links s !! (C, f))
    ∧ (∀ f, props s' !! (C, f) = props s !! (C, f))
    ∧ (∀ l f, l ≠ C →
         Forall (λ def, _get_link s C (localField def) ≠ VRef l) defs →
         props s' !! (l, f) = props s !! (l, f)
         ∧ links s' !! (l, f) = links s !! (l, f)).
Proof.
  intros Hinst. revert s.
  induction Hinst as [|def defs Hdef _ IH]; intros s Hnd Hself.
  - exists s. simpl. repeat split; done.
  - rewrite fmap_cons in Hnd. apply NoDup_cons in Hnd as [Hhead Hnd].
    apply Forall_cons in Hself as [Hself1 Hself].
    destruct (unlink_one prototype mapper name def C s Hdef Hself1)
      as (s1 & Hrun & Hun & Hown & Hprops & Hothers).
    assert (Hkeep : ∀ d, d ∈ defs →
              _get_link s1 C (localField d) = _get_link s C (localField d)).
    { intros d Hd. unfold _get_link. rewrite Hown; [done|].
      intros E. apply Hhead. rewrite <- E. by apply list_elem_of_fmap_2. }
    destruct (IH s1 Hnd) as (s' & Hrun' & Hun' & Hown' & Hprops' & Hothers').
    { rewrite Forall_forall in Hself |- *. intros d Hd.
      rewrite Hkeep by done. by apply Hself. }
    exists s'. split; [|split; [|split; [|split]]].
    + by rewrite forEach_cons, Hrun.
    + constructor; [|done].
      unfold _get_link in *. by rewrite Hown'.
    + intros f Hf. rewrite fmap_cons in Hf. apply not_elem_of_cons in Hf as [Hf1 Hf2].
      rewrite Hown' by done. by apply Hown.
    + intros f. by rewrite Hprops'.
    + intros l f Hl Hall. apply Forall_cons in Hall as [Hl1 Hall].
      destruct (Hothers l f Hl Hl1) as [E1 E2].
      destruct (Hothers' l f Hl) as [E1' E2'].
      { rewrite Forall_forall in Hall |- *. intros d Hd.
        rewrite Hkeep by done. by apply Hall. }
      split; congruence.
Qed.

(** The unlink pass on a record [C], for a mapper whose relations are
    BelongsTo relations and HasOne relations with an inverse. *)
Lemma unlink_scope (self : DataStore.t) (name : string) (C : loc) (s : store) :
  let defs := relationList (getMapper name) in
  truthy (DataStore.unlinkOnDestroy self) = true →
  Forall (installed (recordClass_prototype name) (getMapper name) name) defs →
  NoDup (localField <$> defs) →
  Forall (λ def, _get_link s C (localField def) ≠ VRef C) defs →
  ∃ s',
    DataStore.unlink getMapper recordClass_prototype self name (VRef C) s = Ok tt s'
    ∧ Forall (λ def, _get_link s' C (localField def) = VUndef) defs
    ∧ (∀ f, props s' !! (C, f) = props s !! (C, f))
    ∧ (∀ l f, l ≠ C →
         Forall (λ def, _get_link s C (localField def) ≠ VRef l) defs →
         props s' !! (l, f) = props s !! (l, f)
         ∧ links s' !! (l, f) = links s !! (l, f)).
Proof.
  intros defs Hflag Hinst Hnd Hself.
  destruct (unlink_each _ _ _ C defs s Hinst Hnd Hself)
    as (s' & Hrun & Hun & _ & Hprops & Hothers).
  exists s'. unfold DataStore.unlink, DataStore.forEachRelation.
  rewrite Hflag. simpl. by fold defs.
Qed.

(** [destroy] with unlink-on-destroy enabled, where the persistence call
    yields the record [C] in store [s] and [raw] is not set: the unlink
    pass runs on [C]. *)
Lemma destroy_scope (self : DataStore.t) (name : string) (id : value)
    (opts : option (gmap string value)) (C : loc) (s0 s : store) :
  let defs := relationList (getMapper name) in
  SimpleStore_destroy name id (default ∅ opts) s0 = Ok (VRef C) s →
  truthy (default VUndef (default ∅ opts !! "raw")) = false →
  truthy (DataStore.unlinkOnDestroy self) = true →
  Forall (installed (recordClass_prototype name) (getMapper name) name) defs →
  NoDup (localField <$> defs) →
  Forall (λ def, _get_link s C (localField def) ≠ VRef C) defs →
  ∃ s',
    DataStore.destroy SimpleStore_destroy getMapper recordClass_prototype
      self name id opts s0 = Ok (VRef C) s'
    ∧ Forall (λ def, _get_link s' C (localField def) = VUndef) defs
    ∧ (∀ f, props s' !! (C, f) = props s !! (C, f))
    ∧ (∀ l f, l ≠ C →
         Forall (λ def, _get_link s C (localField def) ≠ VRef l) defs →
         props s' !! (l, f) = props s !! (l, f)
         ∧ links s' !! (l, f) = links s !! (l, f)).
Proof.
  intros defs Hbase Hraw Hflag Hinst Hnd Hself.
  destruct (unlink_scope self name C s Hflag Hinst Hnd Hself)
    as (s' & Hrun & Hrest).
  exists s'. split; [|exact Hrest].
  unfold DataStore.destroy. unfold mbind at 1. unfold M_bind.
  rewrite Hbase. unfold mbind at 1. unfold M_bind. rewrite Hraw.
  unfold mbind, M_bind. by rewrite Hrun.
Qed.

End UnlinkFacts.

(** The prototype of the scenario is the one [defineMapper] builds for the
    user mapper. *)
Lemma scenario_prototype_defined :
  DataStore.defineMapper Mapper Scenario.newMapper Scenario.theStore
    "user" Scenario.User None Scenario.s0
  = Ok (Scenario.User, Scenario.prototypes "user") Scenario.s0.
Proof. reflexivity. Qed.

(** * Further properties of the embedded code *)

(** ** The BelongsTo link-field setter *)

Lemma index_write_lookup_ne (n : string) (r : value) (f : string) (k : value)
    (m : gmap (string * string) (list (value * list loc))) (k' : string * string) :
  k' ≠ (n, f) → index_write n r f k m !! k' = m !! k'.
Proof.
  intros H. unfold index_write. repeat case_match; try done.
  by rewrite lookup_insert_ne.
Qed.

Section BelongsToSetter.

Variable getInverse : Relation → Mapper → option Relation.
Variable getRelation : Relation → Mapper.
Variable mapper : Mapper.
Variable def : Relation.
Variable name : string.

Local Abbreviation set := (BelongsTo.set getInverse getRelation mapper def name).
Local Abbreviation foreignKey_assign :=
  (plain_assign getInverse getRelation mapper def name).
Local Abbreviation rid := (idAttribute (getRelation def)).
Local Abbreviation L := (localField def).
Local Abbreviation FK := (foreignKey def).
Local Abbreviation teardown_links := (teardown_links getInverse mapper def).
Local Abbreviation attach_links := (attach_links getInverse mapper def).

Lemma attach_links_lookup_loc (pred : loc → bool) (this : loc) (r : value)
    (m : gmap (loc * string) value) (l : loc) (f : string) :
  r ≠ VRef l → attach_links pred this r m !! (l, f) = m !! (l, f).
Proof.
  intros H. unfold attach_links. repeat case_match; try done;
    [apply link_write_lookup_ne | apply children_write_lookup_ne]; congruence.
Qed.

(** X1. Assigning a falsy value ([undefined], [null], [false], [0], the
    empty string) to the link field unsets the in-memory link only: the
    setter yields the value assigned, the link field then reads
    [undefined] (unless the value assigned was the current one already),
    and every scalar field, the foreign key of the record among them,
    every index and every collection is as before. *)
Theorem set_falsy_keeps_foreign_key (C : loc) (R : value) (s : store) :
  truthy R = false →
  (set C R s).1 = R
  ∧ truthy (_get_link (set C R s).2 C L) = false
  ∧ (R ≠ _get_link s C L → _get_link (set C R s).2 C L = VUndef)
  ∧ props (set C R s).2 = props s
  ∧ indexes (set C R s).2 = indexes s
  ∧ added (set C R s).2 = added s
  ∧ collections (set C R s).2 = collections s.
Proof.
  intros Hf.
  destruct (decide (R = _get_link s C L)) as [e|ne].
  - rewrite set_same by done. simpl. rewrite <- e.
    split; [done|]. split; [done|]. split; [intros H; by destruct (H eq_refl)|]. done.
  - rewrite set_falsy by done. simpl.
    unfold _get_link. simpl. rewrite lookup_insert_eq. simpl.
    split; [done|]. split; [done|]. split; done.
Qed.

(** X2. What the link-field setter never writes, whatever it is given: it
    adds no record to the store and takes none out of a collection, writes
    no scalar field but the foreign key of the record, no index but the
    one of that foreign key, and no link field but the one of the record
    and the inverse field of the old and of the new parent; with no
    inverse declared, the link field of the record is the only one. *)
Theorem set_writes_only (C : loc) (R : value) (s : store) :
  let cur := _get_link s C L in
  let r := set C R s in
  added r.2 = added s
  ∧ collections r.2 = collections s
  ∧ (∀ l f, (l, f) ≠ (C, FK) → props r.2 !! (l, f) = props s !! (l, f))
  ∧ (∀ k, k ≠ (name, FK) → indexes r.2 !! k = indexes s !! k)
  ∧ (∀ l f, (l, f) ≠ (C, L) →
       (∀ inv, getInverse def mapper = Some inv →
          f ≠ localField inv ∨ (cur ≠ VRef l ∧ r.1 ≠ VRef l)) →
       links r.2 !! (l, f) = links s !! (l, f)).
Proof.
  intros cur r. subst r.
  destruct (decide (R = cur)) as [e|ne].
  { rewrite set_same by done. simpl. by repeat split. }
  assert (Htd : ∀ pred l f,
            (∀ inv, getInverse def mapper = Some inv →
               f ≠ localField inv ∨ cur ≠ VRef l) →
            teardown_links pred cur (links s) !! (l, f) = links s !! (l, f)).
  { intros pred l f H. unfold teardown_links.
    destruct (getInverse def mapper) as [inv|]; [|done].
    destruct (H inv eq_refl) as [Hf|Hl]; repeat case_match; try done;
      first [apply link_write_lookup_ne | apply children_write_lookup_ne];
      congruence. }
  destruct (truthy R) eqn:Ht.
  - rewrite set_truthy by done. simpl.
    split; [done|]. split; [done|]. split; [|split].
    + intros l f H. by rewrite lookup_insert_ne.
    + intros k H. by apply index_write_lookup_ne.
    + intros l f H Hinv.
      set (R' := BelongsTo.prefer_store_record getRelation def C R s) in *.
      transitivity ((<[(C, L) := R']>
                      (teardown_links
                         (child_test (props s) C
                            (utils_get s (VRef C) (idAttribute mapper))
                            (idAttribute mapper)) cur (links s))) !! (l, f)).
      * unfold attach_links.
        destruct (getInverse def mapper) as [inv|]; [|done].
        destruct (Hinv inv eq_refl) as [Hf|[_ Hl]]; repeat case_match; try done;
          first [apply link_write_lookup_ne | apply children_write_lookup_ne];
          congruence.
      * rewrite lookup_insert_ne by congruence. apply Htd.
        intros inv Hi. destruct (Hinv inv Hi) as [?|[? _]]; auto.
  - rewrite set_falsy by done. simpl.
    split; [done|]. split; [done|]. split; [done|]. split; [done|].
    intros l f H Hinv. rewrite lookup_insert_ne by congruence. apply Htd.
    intros inv Hi. destruct (Hinv inv Hi) as [?|[? _]]; auto.
Qed.

(** The inverse link field is not the link field itself. *)
Hypothesis fields_apart :
  ∀ inv, getInverse def mapper = Some inv → localField inv ≠ L.

(** X3. Given a truthy value other than the current parent, the setter
    yields the value the link field holds afterwards; the foreign key then
    holds the identifier read from the value assigned; and a record the
    store does not hold is linked to the very object assigned. (Schema:
    the link field of the inverse is not the link field itself,
    [fields_apart].) *)
Theorem set_truthy_result (C : loc) (R : value) (s : store) :
  truthy R = true →
  R ≠ _get_link s C L →
  _get_link (set C R s).2 C L = (set C R s).1
  ∧ utils_get (set C R s).2 (VRef C) FK = utils_get s R rid
  ∧ (_get_added s C = false → (set C R s).1 = R).
Proof.
  intros Ht Hne. rewrite set_truthy by done. simpl.
  split; [|split].
  - unfold _get_link. simpl. rewrite attach_links_lookup_field by done.
    by rewrite lookup_insert_eq.
  - unfold utils_get at 1. unfold _get_prop. simpl. by rewrite lookup_insert_eq.
  - intros Ha. unfold BelongsTo.prefer_store_record. rewrite Ha.
    by rewrite andb_false_r.
Qed.

End BelongsToSetter.

(** ** The foreign-key accessor of a BelongsTo relation *)

Section ForeignKeyAccessor.

Variable getInverse : Relation → Mapper → option Relation.
Variable getRelation : Relation → Mapper.
Variable mapper : Mapper.
Variable def : Relation.
Variable name : string.

Local Abbreviation set := (BelongsTo.set getInverse getRelation mapper def name).
Local Abbreviation foreignKey_assign :=
  (plain_assign getInverse getRelation mapper def name).
Local Abbreviation foreignKey_set :=
  (BelongsTo.foreignKey_set getInverse getRelation mapper def name).
Local Abbreviation foreignKey_get := (BelongsTo.foreignKey_get def).
Local Abbreviation rid := (idAttribute (getRelation def)).
Local Abbreviation L := (localField def).
Local Abbreviation FK := (foreignKey def).
Local Abbreviation teardown_links := (teardown_links getInverse mapper def).
Local Abbreviation well_keyed := (well_keyed getRelation def).

(** The identifier of the current parent as the setter computes it
    (line 133). *)
Local Abbreviation currentParentId s C :=
  (if truthy (_get_link s C L) then utils_get s (_get_link s C L) rid else VUndef).

(** The store after lines 130-149: the inline teardown, the write of the
    key and the update of the index. *)
Lemma foreignKey_assign_written (s : store) (C : loc) (v : value) :
  ∃ sC,
    foreignKey_assign C v s =
      (if bool_decide (v = VUndef) || bool_decide (v = VNull) then
         if bool_decide (currentParentId s C ≠ VUndef)
         then plain_set_link getInverse getRelation mapper def name C VUndef sC
         else sC
       else if _get_added s C then
         let storeRecord := store_get s (relation def) v in
         if truthy storeRecord
         then plain_set_link getInverse getRelation mapper def name C
                storeRecord sC
         else sC
       else sC)
    ∧ props sC = <[(C, FK) := v]> (props s)
    ∧ added sC = added s
    ∧ collections sC = collections s
    ∧ (links sC = links s
       ∨ links sC = teardown_links
                      (child_test (props s) C (utils_get s (VRef C) (idAttribute mapper))
                         (idAttribute mapper))
                      (_get_link s C L) (links s))
    ∧ (currentParentId s C = VUndef ∨ currentParentId s C = v → links sC = links s)
    ∧ (is_Some (getInverse def mapper) → truthy (_get_link s C L) = true →
       currentParentId s C ≠ VUndef → currentParentId s C ≠ v →
       links sC = teardown_links
                    (child_test (props s) C (utils_get s (VRef C) (idAttribute mapper))
                       (idAttribute mapper))
                    (_get_link s C L) (links s)).
Proof.
  unfold plain_assign.
  set (cur := _get_link s C L).
  set (id := utils_get s (VRef C) (idAttribute mapper)).
  set (cpid := if truthy cur then utils_get s cur rid else VUndef).
  match goal with
  | |- context [safeSetProp (VRef C) FK v ?x] => remember x as sA eqn:HsA
  end.
  assert (Hp : props sA = props s)
    by (rewrite HsA; repeat case_match; by autorewrite with frames).
  assert (Had : added sA = added s)
    by (rewrite HsA; repeat case_match; by autorewrite with frames).
  assert (Hc : collections sA = collections s)
    by (rewrite HsA; repeat case_match; by autorewrite with frames).
  set (sC := updateIndex name (VRef C) FK (safeSetProp (VRef C) FK v sA)) in *.
  assert (HpC : props sC = <[(C, FK) := v]> (props s)).
  { subst sC. autorewrite with frames. unfold link_write. by rewrite Hp. }
  assert (HlC : links sC = links sA) by (subst sC; by autorewrite with frames).
  assert (HaC : added sC = added s) by (subst sC; by autorewrite with frames).
  assert (HcC : collections sC = collections s)
    by (subst sC; by autorewrite with frames).
  assert (Hyes : truthy cur = true → is_Some (getInverse def mapper) →
            cpid ≠ VUndef → cpid ≠ v →
            links sA = teardown_links (child_test (props s) C id (idAttribute mapper))
                         cur (links s)).
  { intros Ht [inv Hinv] Hu Hv. rewrite HsA.
    unfold teardown_links. rewrite Hinv, Ht.
    rewrite !bool_decide_true by done. simpl.
    repeat case_match; by autorewrite with frames. }
  assert (Hno : cpid = VUndef ∨ cpid = v → links sA = links s).
  { intros Hcp. rewrite HsA.
    destruct (getInverse def mapper) as [inv|]; [|done].
    destruct Hcp as [Hcp|Hcp]; rewrite Hcp.
    + rewrite (bool_decide_false (VUndef ≠ VUndef)) by (by intros ?).
      by rewrite andb_false_r.
    + rewrite (bool_decide_false (v ≠ v)) by (by intros ?).
      by rewrite andb_false_r. }
  exists sC.
  rewrite (_get_added_added s sC C HaC), (store_get_collections s sC _ _ HcC).
  split; [done|]. split; [done|]. split; [done|]. split; [done|].
  rewrite HlC. split; [|split].
  - destruct (getInverse def mapper) as [inv|] eqn:Hinv; [|left; by rewrite HsA].
    destruct (truthy cur) eqn:Ht;
      [|left; rewrite HsA; by rewrite andb_false_l].
    destruct (decide (cpid = VUndef)); [left; apply Hno; by left|].
    destruct (decide (cpid = v)); [left; apply Hno; by right|].
    right. by apply Hyes.
  - done.
  - intros ? ? ? ?. by apply Hyes.
Qed.

Lemma set_falsy_props (C : loc) (R : value) (s : store) :
  truthy R = false → props (set C R s).2 = props s.
Proof.
  intros Hf. destruct (decide (R = _get_link s C L)).
  - by rewrite set_same.
  - by rewrite set_falsy.
Qed.

Lemma set_undefined_link (C : loc) (s : store) :
  _get_link (set C VUndef s).2 C L = VUndef.
Proof.
  destruct (decide (VUndef = _get_link s C L)) as [e|ne].
  - by rewrite set_same.
  - rewrite set_falsy by done. unfold _get_link. simpl.
    by rewrite lookup_insert_eq.
Qed.

(** The teardown empties the inverse field of the current parent of its
    occurrences of the child. *)
Lemma teardown_links_occ (s : store) (C P : loc) (inv : Relation) :
  getInverse def mapper = Some inv →
  inverse_ok s (idAttribute mapper) inv C P →
  occ (teardown_links
         (child_test (props s) C (utils_get s (VRef C) (idAttribute mapper))
            (idAttribute mapper))
         (VRef P) (links s)) (localField inv) P C = 0.
Proof.
  intros Hinv Hok. unfold teardown_links. rewrite Hinv. simpl.
  assert (hasOneType ≠ hasManyType) by done.
  destruct Hok as [H1|(H1 & a & Ha & Hc & Hu)].
  - rewrite decide_True by done. unfold occ, link_write.
    by rewrite lookup_insert_eq.
  - destruct (decide (type inv = hasOneType)); [congruence|].
    rewrite decide_True by done.
    unfold children, _get_link in Ha. unfold occ.
    rewrite (children_write_lookup_eq P _ _ _ a Ha). simpl.
    apply utils_remove_count; [apply child_test_self|done|done].
Qed.

Lemma set_added_collections (C : loc) (R : value) (s : store) :
  added (set C R s).2 = added s ∧ collections (set C R s).2 = collections s.
Proof.
  destruct (decide (R = _get_link s C L)); [by rewrite set_same|].
  destruct (truthy R) eqn:Ht; [by rewrite set_truthy|by rewrite set_falsy].
Qed.

Lemma foreignKey_assign_collections (C : loc) (v : value) (s : store) :
  collections (foreignKey_assign C v s) = collections s.
Proof.
  destruct (foreignKey_assign_written s C v) as (sC & -> & _ & _ & HcC & _).
  unfold plain_set_link.
  repeat case_match; try done; by rewrite (proj2 (set_added_collections _ _ _)).
Qed.

(** In a store whose parent collection is keyed by the identifiers of its
    records, the key holds the value assigned once the setter is done. *)
Lemma foreignKey_assign_key (C : loc) (v : value) (s : store) :
  well_keyed s → utils_get (foreignKey_assign C v s) (VRef C) FK = v.
Proof.
  intros Hwk. unfold utils_get.
  destruct (foreignKey_assign_written s C v) as (sC & -> & HpC & HaC & HcC & _).
  assert (HkC : _get_prop sC C FK = v)
    by (unfold _get_prop; by rewrite HpC, lookup_insert_eq).
  unfold plain_set_link.
  repeat case_match; try done.
  - unfold _get_prop. by rewrite set_falsy_props.
  - destruct (store_get_cases s (relation def) v) as [E|[P E]];
      rewrite E in *; [done|].
    destruct (decide (VRef P = _get_link sC C L)) as [e|ne].
    + by rewrite set_same.
    + rewrite set_truthy by done. unfold _get_prop. simpl.
      rewrite lookup_insert_eq. simpl.
      unfold utils_get, _get_prop. rewrite HpC.
      destruct (decide ((C, FK) = (P, rid))) as [<-|n].
      * by rewrite lookup_insert_eq.
      * rewrite lookup_insert_ne by done. by apply Hwk.
Qed.

(** Without [def.get] and [def.set] the setter leaves the store of
    [plain_assign]. *)
Lemma foreignKey_set_final (C : loc) (v : value) (s : store) :
  def_get def = None → def_set def = None →
  final_store (foreignKey_set None C v s) = foreignKey_assign C v s.
Proof. intros Hg Hs. by rewrite foreignKey_set_plain. Qed.

(** X4. For a relation without [def.get] and [def.set], reading the
    foreign key after assigning it yields the value assigned, whatever the
    linking the assignment set off, in a store whose parent collection is
    keyed by the identifiers of its records. *)
Theorem foreignKey_get_after_set (C : loc) (v : value) (s : store) :
  def_get def = None → def_set def = None →
  well_keyed s →
  foreignKey_get None C (final_store (foreignKey_set None C v s)) = v.
Proof.
  intros Hg Hs Hwk. rewrite foreignKey_set_final by done.
  by apply foreignKey_assign_key.
Qed.

(** X5. For a relation without [def.get] and [def.set], assigning
    [undefined] or [null] to the foreign key: the key holds the value
    assigned; the link field is unset when the current parent has an
    identifier; and when there is no current parent, or it has no
    identifier, no link field changes at all, the link field of the record
    included. *)
Theorem foreignKey_set_nullish (C : loc) (v : value) (s : store) :
  def_get def = None → def_set def = None →
  v = VUndef ∨ v = VNull →
  utils_get (final_store (foreignKey_set None C v s)) (VRef C) FK = v
  ∧ (currentParentId s C ≠ VUndef →
     _get_link (final_store (foreignKey_set None C v s)) C L = VUndef)
  ∧ (currentParentId s C = VUndef →
     links (final_store (foreignKey_set None C v s)) = links s).
Proof.
  intros Hg Hs Hv. rewrite foreignKey_set_final by done.
  destruct (foreignKey_assign_written s C v)
    as (sC & -> & HpC & HaC & HcC & _ & Hno & _).
  assert (HkC : utils_get sC (VRef C) FK = v)
    by (unfold utils_get, _get_prop; by rewrite HpC, lookup_insert_eq).
  assert (bool_decide (v = VUndef) || bool_decide (v = VNull) = true) as ->.
  { destruct Hv as [-> | ->]; reflexivity. }
  unfold plain_set_link.
  case_bool_decide as Hcp.
  - split; [|split].
    + unfold utils_get, _get_prop in *. by rewrite set_falsy_props.
    + intros _. apply set_undefined_link.
    + done.
  - split; [done|]. split; [done|]. intros E. apply Hno. by left.
Qed.

(** The inverse link field is not the link field itself. *)
Hypothesis fields_apart :
  ∀ inv, getInverse def mapper = Some inv → localField inv ≠ L.

(** X6. For a relation without [def.get] and [def.set], assigning to the
    foreign key an identifier that is neither [undefined] nor [null] and
    that the setter does not resolve, because the store does not hold the
    record or because the parent collection holds no record under that
    identifier: the key holds the value assigned, no other scalar field
    changes, and the link field still holds the old parent; yet that
    parent, when its identifier is another one and its inverse field
    satisfies the data-model invariant for the record (it holds the record
    at most once and no other member with its identifier), has lost the
    record from its inverse field. (Schema: [fields_apart].) *)
Theorem foreignKey_set_unresolved (C : loc) (v : value) (s : store) :
  def_get def = None → def_set def = None →
  v ≠ VUndef → v ≠ VNull →
  _get_added s C = false ∨ truthy (store_get s (relation def) v) = false →
  utils_get (final_store (foreignKey_set None C v s)) (VRef C) FK = v
  ∧ (∀ l f, (l, f) ≠ (C, FK) →
       props (final_store (foreignKey_set None C v s)) !! (l, f) = props s !! (l, f))
  ∧ _get_link (final_store (foreignKey_set None C v s)) C L = _get_link s C L
  ∧ (∀ P inv,
       getInverse def mapper = Some inv →
       _get_link s C L = VRef P →
       utils_get s (VRef P) rid ≠ VUndef →
       utils_get s (VRef P) rid ≠ v →
       inverse_ok s (idAttribute mapper) inv C P →
       occurrences (final_store (foreignKey_set None C v s)) (localField inv) P C = 0).
Proof.
  intros Hg Hs Hu Hn Hun. rewrite foreignKey_set_final by done.
  destruct (foreignKey_assign_written s C v)
    as (sC & -> & HpC & HaC & HcC & Hl & _ & Hyes).
  rewrite !bool_decide_false by done. simpl.
  assert ((if _get_added s C
           then if truthy (store_get s (relation def) v)
                then plain_set_link getInverse getRelation mapper def name C
                       (store_get s (relation def) v) sC
                else sC
           else sC) = sC) as ->.
  { destruct Hun as [-> | ->]; [done|]. by destruct (_get_added s C). }
  split; [|split; [|split]].
  - unfold utils_get, _get_prop. by rewrite HpC, lookup_insert_eq.
  - intros l f Hlf. rewrite HpC. by rewrite lookup_insert_ne.
  - unfold _get_link. destruct Hl as [-> | ->]; [done|].
    by rewrite teardown_links_lookup_field.
  - intros P inv Hinv Hcur Hid Hidv Hok.
    rewrite occurrences_occ. rewrite Hyes; rewrite ?Hcur; try done.
    by apply teardown_links_occ.
Qed.

(** For a record the store holds, the setter given the identifier of a
    parent the collection holds ends with the link field on that parent. *)
Lemma foreignKey_assign_link (C P : loc) (v : value) (s : store) :
  well_keyed s →
  _get_added s C = true →
  store_get s (relation def) v = VRef P →
  _get_link (foreignKey_assign C v s) C L = VRef P.
Proof.
  intros Hwk Ha HP.
  destruct (store_get_ref_key _ _ _ _ HP) as [Hu Hn].
  destruct (foreignKey_assign_written s C v) as (sC & -> & HpC & HaC & HcC & _).
  rewrite !bool_decide_false by done. rewrite Ha, HP. simpl.
  unfold plain_set_link.
  destruct (decide (VRef P = _get_link sC C L)) as [e|ne].
  - by rewrite set_same.
  - rewrite set_truthy by done. unfold _get_link. simpl.
    rewrite attach_links_lookup_field by done. rewrite lookup_insert_eq. simpl.
    apply prefer_store_record_present.
    rewrite (store_get_collections s sC _ _ HcC).
    assert (utils_get sC (VRef P) rid = v) as ->; [|done].
    unfold utils_get, _get_prop. rewrite HpC.
    destruct (decide ((C, FK) = (P, rid))) as [<-|n].
    + by rewrite lookup_insert_eq.
    + rewrite lookup_insert_ne by done. by apply Hwk.
Qed.

(** X7. The methods of the relation, for a relation without [def.get]
    and [def.set] and a record class that carries the foreign-key
    accessor, in a store whose parent collection is keyed by the
    identifiers of its records: after [_setForeignKey (C, P)] with [P]
    held by the collection, [getForeignKey (C)] is the identifier of [P],
    [findExistingLinksFor (C)] is [P], and when the store holds [C] its
    link field is on [P]. (Schema: [fields_apart].) *)
Theorem setForeignKey_then_find (prototype : gmap string Descriptor) (d : Descriptor)
    (C P : loc) (s : store) :
  def_get def = None → def_set def = None →
  prototype !! FK = Some d →
  d_set d = Some (foreignKey_set None) →
  well_keyed s →
  store_get s (relation def) (utils_get s (VRef P) rid) = VRef P →
  ∃ s',
    BelongsToRelation._setForeignKey getRelation def prototype (VRef C) (VRef P) s
    = Ok tt s'
    ∧ BelongsToRelation.getForeignKey def (VRef C) s' = utils_get s (VRef P) rid
    ∧ BelongsToRelation.findExistingLinksFor def (VRef C) s' = VRef P
    ∧ (_get_added s C = true → _get_link s' C L = VRef P).
Proof.
  intros Hg Hs Hd Hset Hwk HP.
  set (v := utils_get s (VRef P) rid) in *.
  destruct (store_get_ref_key _ _ _ _ HP) as [Hu Hn].
  exists (foreignKey_assign C v s).
  assert (Hk : utils_get (foreignKey_assign C v s) (VRef C) FK = v)
    by by apply foreignKey_assign_key.
  split; [|split; [|split]].
  - unfold BelongsToRelation._setForeignKey, DataStore.utils_set.
    fold v. rewrite Hd, Hset. unfold mbind, M_bind.
    by rewrite foreignKey_set_plain.
  - done.
  - unfold BelongsToRelation.findExistingLinksFor. cbn [truthy negb]. rewrite Hk.
    rewrite !bool_decide_true by done. simpl.
    unfold BelongsToRelation.relatedCollection_get.
    by rewrite (store_get_collections s _ _ _ (foreignKey_assign_collections C v s)).
  - intros Ha. by apply foreignKey_assign_link.
Qed.

End ForeignKeyAccessor.

(** ** The HasOne link-field setter *)

Section HasOneSetter.

Variable getInverse : Relation → Mapper → option Relation.
Variable getRelation : Relation → Mapper.
Variable mapper : Mapper.
Variable def : Relation.

Local Abbreviation set := (HasOne.set getInverse getRelation mapper def).
Local Abbreviation rid := (idAttribute (getRelation def)).
Local Abbreviation L := (localField def).
Local Abbreviation FK := (foreignKey def).

Lemma link_write_falsy (r : value) (f : string) (v : value)
    (m : gmap (loc * string) value) :
  truthy r = false → link_write r f v m = m.
Proof. by destruct r. Qed.

(** The store after the release of the current child (lines 46-50). *)
Lemma unset_inverse_frame (cur : value) (f : string) (s : store) :
  props (HasOne.unset_inverse def cur f s) = link_write cur FK VUndef (props s)
  ∧ links (HasOne.unset_inverse def cur f s) = link_write cur f VUndef (links s)
  ∧ added (HasOne.unset_inverse def cur f s) = added s
  ∧ collections (HasOne.unset_inverse def cur f s) = collections s.
Proof.
  unfold HasOne.unset_inverse. destruct (truthy cur) eqn:Ht.
  - by autorewrite with frames.
  - by rewrite !link_write_falsy.
Qed.

(** The setter with an inverse declared, given another value than the
    current one: what it yields and the scalar fields, link fields, added
    records and collections it leaves. *)
Lemma hasOne_set_changes (inv : Relation) (C : loc) (R : value) (s : store) :
  getInverse def mapper = Some inv →
  R ≠ _get_link s C L →
  let cur := _get_link s C L in
  let ps := link_write cur FK VUndef (props s) in
  let ls := link_write cur (localField inv) VUndef (links s) in
  let relatedId := default VUndef (match R with VRef l => ps !! (l, rid) | _ => None end) in
  let r :=
    if truthy R then
      if bool_decide (relatedId ≠ VUndef)
      then js_or (store_get s (relation def) relatedId) R
      else R
    else R in
  ∃ s',
    set C R s = Ok r s'
    ∧ added s' = added s
    ∧ collections s' = collections s
    ∧ props s' = (if truthy R
                  then link_write r FK (default VUndef (ps !! (C, idAttribute mapper))) ps
                  else ps)
    ∧ links s' = (if truthy R
                  then link_write r (localField inv) (VRef C) (<[(C, L) := r]> ls)
                  else <[(C, L) := VUndef]> ls).
Proof.
  intros Hinv Hne cur ps ls relatedId r.
  unfold HasOne.set. rewrite decide_False by done. rewrite Hinv. fold cur.
  destruct (unset_inverse_frame cur (localField inv) s) as (Hp & Hl & Ha & Hc).
  set (s1 := HasOne.unset_inverse def cur (localField inv) s) in *.
  assert (Hid : utils_get s1 R rid = relatedId).
  { subst relatedId. destruct R; try done. unfold utils_get, _get_prop.
    by rewrite Hp. }
  subst r. destruct (truthy R) eqn:Ht.
  - rewrite Hid, (store_get_collections s s1 _ _ Hc).
    eexists. split; [reflexivity|].
    autorewrite with frames. rewrite Ha, Hc, Hp, Hl.
    split; [done|]. split; [done|]. split; [|done].
    f_equal. unfold utils_get, _get_prop. autorewrite with frames. by rewrite Hp.
  - eexists. split; [reflexivity|].
    autorewrite with frames. rewrite Ha, Hc, Hp, Hl. done.
Qed.

Lemma attached_link (r : value) (f : string) (C : loc)
    (m : gmap (loc * string) value) :
  link_write r f (VRef C) (<[(C, L) := r]> m) !! (C, L) = Some r.
Proof.
  destruct (decide (r = VRef C ∧ f = L)) as [[e1 e2]|n].
  - rewrite e1. unfold link_write. by rewrite e2, lookup_insert_eq.
  - rewrite link_write_lookup_ne, lookup_insert_eq; [done|].
    intros l e [= <- e2]. by apply n.
Qed.

(** X8. With an inverse declared, assigning a truthy value other than
    the current child links both sides at once: the setter yields the
    record the link field holds afterwards, and when that is a record, its
    foreign key is the identifier of the owner and its inverse link field
    is the owner. *)
Theorem hasOne_set_links_both_sides (inv : Relation) (C : loc) (R : value) (s : store) :
  getInverse def mapper = Some inv →
  truthy R = true →
  R ≠ _get_link s C L →
  ∃ r s',
    set C R s = Ok r s'
    ∧ _get_link s' C L = r
    ∧ ∀ P, r = VRef P →
        utils_get s' (VRef P) FK = utils_get s' (VRef C) (idAttribute mapper)
        ∧ _get_link s' P (localField inv) = VRef C.
Proof.
  intros Hinv Ht Hne.
  destruct (hasOne_set_changes inv C R s Hinv Hne) as (s' & Hrun & _ & _ & Hp & Hl).
  rewrite Ht in *. eexists _, s'. split; [exact Hrun|].
  match type of Hrun with _ = Ok ?x _ => set (r := x) in * end.
  split.
  - unfold _get_link. by rewrite Hl, attached_link.
  - intros P e. rewrite e in *.
    set (ps := link_write (_get_link s C L) FK VUndef (props s)) in *.
    set (ls := <[(C, L) := VRef P]>
                 (link_write (_get_link s C L) (localField inv) VUndef (links s))) in *.
    unfold utils_get, _get_prop, _get_link. rewrite Hp, Hl.
    split.
    + unfold link_write. rewrite lookup_insert_eq. simpl.
      destruct (decide ((P, FK) = (C, idAttribute mapper))) as [e'|n].
      * by rewrite <- e', lookup_insert_eq.
      * by rewrite lookup_insert_ne.
    + unfold link_write. by rewrite lookup_insert_eq.
Qed.

(** X9. With an inverse declared, assigning another value than the
    current child releases that child [Q], unless it is the owner itself
    or the record the link field ends up with: the foreign key and the
    inverse link field of [Q] are [undefined] afterwards. *)
Theorem hasOne_set_releases_old_child (inv : Relation) (C Q : loc) (R : value)
    (r : value) (s s' : store) :
  getInverse def mapper = Some inv →
  _get_link s C L = VRef Q →
  set C R s = Ok r s' →
  R ≠ VRef Q → r ≠ VRef Q → Q ≠ C →
  utils_get s' (VRef Q) FK = VUndef
  ∧ _get_link s' Q (localField inv) = VUndef.
Proof.
  intros Hinv Hcur Hrun HR Hr HQ.
  destruct (hasOne_set_changes inv C R s Hinv) as (s'' & Hrun' & _ & _ & Hp & Hl).
  { by rewrite Hcur. }
  rewrite Hrun' in Hrun. injection Hrun as Er <-.
  rewrite Er in *. rewrite Hcur in *.
  unfold utils_get, _get_prop, _get_link. rewrite Hp, Hl.
  assert (E1 : link_write (VRef Q) FK VUndef (props s) !! (Q, FK) = Some VUndef)
    by (unfold link_write; by rewrite lookup_insert_eq).
  assert (E2 : link_write (VRef Q) (localField inv) VUndef (links s)
               !! (Q, localField inv) = Some VUndef)
    by (unfold link_write; by rewrite lookup_insert_eq).
  destruct (truthy R).
  - rewrite (link_write_lookup_ne r FK) by congruence.
    rewrite (link_write_lookup_ne r (localField inv)) by congruence.
    rewrite lookup_insert_ne by congruence.
    by rewrite E1, E2.
  - rewrite lookup_insert_ne by congruence.
    by rewrite E1, E2.
Qed.

(** X10. With an inverse declared, the setter prefers the record of the
    store whether or not the store holds the owner: given a detached
    object [D] with the identifier of a record [P] held by the related
    collection, it yields [P] and the link field holds [P]. *)
Theorem hasOne_set_canonical (inv : Relation) (C D P : loc) (s : store) :
  getInverse def mapper = Some inv →
  _get_link s C L ≠ VRef D →
  store_get s (relation def) (utils_get s (VRef D) rid) = VRef P →
  ∃ s', set C (VRef D) s = Ok (VRef P) s' ∧ _get_link s' C L = VRef P.
Proof.
  intros Hinv Hne HP.
  assert (Hne' : VRef D ≠ _get_link s C L) by congruence.
  destruct (hasOne_set_changes inv C (VRef D) s Hinv Hne')
    as (s' & Hrun & _ & _ & _ & Hl).
  cbn [truthy] in Hrun, Hl.
  rewrite link_write_lookup_ne in Hrun, Hl by congruence.
  fold (_get_prop s D rid) in Hrun, Hl.
  change (_get_prop s D rid) with (utils_get s (VRef D) rid) in Hrun, Hl.
  destruct (store_get_ref_key _ _ _ _ HP) as [Hu _].
  rewrite bool_decide_true, HP in Hrun, Hl by done.
  exists s'. split; [exact Hrun|].
  unfold _get_link. by rewrite Hl, attached_link.
Qed.

(** X11. What the HasOne setter writes when it completes: no record is
    added to the store or taken out of a collection; the only scalar field
    written is the foreign key, and only on the old child and on the
    record the link field ends up with; the only link fields written are
    the link field of the owner and the inverse link field of these two.
    A record that held the new child before is not among them. *)
Theorem hasOne_set_writes_only (C : loc) (R r : value) (s s' : store) :
  set C R s = Ok r s' →
  added s' = added s
  ∧ collections s' = collections s
  ∧ (∀ l f, f ≠ FK ∨ (_get_link s C L ≠ VRef l ∧ r ≠ VRef l) →
       props s' !! (l, f) = props s !! (l, f))
  ∧ (∀ l f, (l, f) ≠ (C, L) →
       (∀ inv, getInverse def mapper = Some inv →
          f ≠ localField inv ∨ (_get_link s C L ≠ VRef l ∧ r ≠ VRef l)) →
       links s' !! (l, f) = links s !! (l, f)).
Proof.
  intros Hrun.
  destruct (decide (R = _get_link s C L)) as [e|ne].
  { unfold HasOne.set in Hrun. rewrite decide_True in Hrun by done.
    injection Hrun as _ <-. by repeat split. }
  destruct (getInverse def mapper) as [inv|] eqn:Hinv.
  2: { unfold HasOne.set in Hrun. rewrite decide_False, Hinv in Hrun by done.
       discriminate. }
  destruct (hasOne_set_changes inv C R s Hinv ne) as (s'' & Hrun' & Ha & Hc & Hp & Hl).
  rewrite Hrun' in Hrun. injection Hrun as Er <-.
  rewrite Er in *.
  split; [done|]. split; [done|]. split.
  - intros l f H. rewrite Hp.
    assert (link_write (_get_link s C L) FK VUndef (props s) !! (l, f)
            = props s !! (l, f)) as E
      by (apply link_write_lookup_ne; destruct H as [?|[? ?]]; congruence).
    destruct (truthy R); [|done].
    rewrite link_write_lookup_ne; [done|]. destruct H as [?|[? ?]]; congruence.
  - intros l f Hlf H. specialize (H inv eq_refl). rewrite Hl.
    assert (link_write (_get_link s C L) (localField inv) VUndef (links s) !! (l, f)
            = links s !! (l, f)) as E
      by (apply link_write_lookup_ne; destruct H as [?|[? ?]]; congruence).
    destruct (truthy R).
    + rewrite link_write_lookup_ne by (destruct H as [?|[? ?]]; congruence).
      by rewrite lookup_insert_ne.
    + by rewrite lookup_insert_ne.
Qed.

End HasOneSetter.

(** ** The constructor and [defineMapper] *)

Section DefineMapperFacts.

Variable getInverse : Relation → Mapper → option Relation.
Variable getRelation : Relation → Mapper.
Variable createHasManyDescriptor : CreateDescriptor.
Variable MapperOpts : Type.
Variable newMapper : string → MapperOpts → M (Mapper * gmap string Descriptor).

Local Abbreviation new := (DataStore.DataStore getInverse getRelation createHasManyDescriptor).
Local Abbreviation SimpleStore_defineMapper :=
  (DataStore.SimpleStore_defineMapper MapperOpts newMapper).
Local Abbreviation defineMapper := (DataStore.defineMapper MapperOpts newMapper).
Local Abbreviation registers_builtins := (registers_builtins getInverse getRelation).
Local Abbreviation link_descriptor := (link_descriptor getInverse getRelation).
Local Abbreviation foreignKey_accessor := (foreignKey_accessor getInverse getRelation).
Local Abbreviation link_setter := (link_setter getInverse getRelation).

(** X12. Whatever a subclass put in the registry before and whatever the
    options, the constructor leaves the three kinds of the library
    registered with the factories of the library, and every other kind as
    it found it. *)
Theorem constructor_registry
    (types : option (gmap string DataStore.RelationshipType))
    (opts : option (gmap string value)) :
  DataStore.relationshipTypes (new types opts) !! belongsToType
  = Some {| DataStore.RelationshipClass := belongsToType;
            DataStore.createDescriptor :=
              BelongsTo.createDescriptor getInverse getRelation |}
  ∧ DataStore.relationshipTypes (new types opts) !! hasManyType
    = Some {| DataStore.RelationshipClass := hasManyType;
              DataStore.createDescriptor := createHasManyDescriptor |}
  ∧ DataStore.relationshipTypes (new types opts) !! hasOneType
    = Some {| DataStore.RelationshipClass := hasOneType;
              DataStore.createDescriptor :=
                HasOne.createDescriptor getInverse getRelation |}
  ∧ ∀ kind, kind ≠ belongsToType → kind ≠ hasManyType → kind ≠ hasOneType →
      DataStore.relationshipTypes (new types opts) !! kind = default ∅ types !! kind.
Proof.
  unfold DataStore.DataStore, DataStore.registerRelationshipType. simpl.
  split; [|split; [|split]].
  - rewrite lookup_insert_ne by done. rewrite lookup_insert_ne by done.
    by rewrite lookup_insert_eq.
  - rewrite lookup_insert_ne by done. by rewrite lookup_insert_eq.
  - by rewrite lookup_insert_eq.
  - intros kind H1 H2 H3. by rewrite !lookup_insert_ne.
Qed.

Lemma new_registers_builtins
    (types : option (gmap string DataStore.RelationshipType))
    (opts : option (gmap string value)) :
  registers_builtins (new types opts).
Proof.
  unfold registers_builtins, DataStore.DataStore,
    DataStore.registerRelationshipType. simpl. split.
  - rewrite lookup_insert_ne by done. rewrite lookup_insert_ne by done.
    by rewrite lookup_insert_eq.
  - by rewrite lookup_insert_eq.
Qed.

(** Defining a property the prototype does not have, or has as a
    configurable one. *)
Lemma defineProperty_redefinable (prototype : gmap string Descriptor) (key : string)
    (d : Descriptor) (s : store) :
  redefinable prototype key →
  ∃ d',
    defineProperty prototype key d s = Ok (<[key := d']> prototype) s
    ∧ d_get d' = given (d_get d) (prototype !! key ≫= d_get)
    ∧ d_set d' = given (d_set d) (prototype !! key ≫= d_set)
    ∧ d_enumerable d' = d_enumerable d
    ∧ d_configurable d' = given (d_configurable d) (prototype !! key ≫= d_configurable)
    ∧ (prototype !! key = None → d' = d).
Proof.
  intros Hre. unfold defineProperty.
  destruct (prototype !! key) as [current|] eqn:E.
  - rewrite (Hre current) by done. eexists. split; [reflexivity|]. by repeat split.
  - exists d. split; [reflexivity|]. destruct d as [[g|] [st|] e [c|]]; by repeat split.
Qed.

(** Defining a property the prototype has and that is not configurable. *)
Lemma defineProperty_locked (prototype : gmap string Descriptor) (key : string)
    (d current : Descriptor) (s : store) :
  prototype !! key = Some current → configurable current = false →
  ∃ message, defineProperty prototype key d s = Throw (TypeError message) s.
Proof. intros E Hc. unfold defineProperty. rewrite E, Hc. by eexists. Qed.

(** The accessor of the foreign key that [createDescriptor] of BelongsTo
    defines when the language lets it. *)
Lemma createDescriptor_redefinable (mapper : Mapper) (def : Relation) (name : string)
    (prototype : gmap string Descriptor) (s : store) :
  redefinable prototype (foreignKey def) →
  ∃ s',
    BelongsTo.createDescriptor getInverse getRelation mapper def name prototype s
    = Ok (Some {| d_get := None;
                  d_set := Some (λ this record s,
                             let r := BelongsTo.set getInverse getRelation mapper def name
                                        this record s in
                             Ok r.1 r.2);
                  d_enumerable := false; d_configurable := None |},
          <[foreignKey def := wrapped_accessor getInverse getRelation mapper name def
                                (prototype !! foreignKey def)]> prototype) s'
    ∧ props s' = props s ∧ links s' = links s ∧ added s' = added s
    ∧ collections s' = collections s
    ∧ (∀ k, is_Some (indexes s !! k) → indexes s' !! k = indexes s !! k)
    ∧ is_Some (indexes s' !! (name, foreignKey def)).
Proof.
  intros Hre. unfold BelongsTo.createDescriptor, mbind, M_bind, lift.
  set (s1 := match indexes s !! (name, foreignKey def) with
             | Some _ => s
             | None => createIndex name (foreignKey def) s
             end).
  set (fkd := {| d_get := _; d_set := _; d_enumerable := _; d_configurable := _ |}).
  destruct (defineProperty_redefinable prototype (foreignKey def) fkd s1 Hre)
    as (d' & Hrun & Hg & Hs & He & Hc & _).
  assert (Ed : d' = wrapped_accessor getInverse getRelation mapper name def
                      (prototype !! foreignKey def)).
  { destruct d' as [g' st' e' c']. cbn in Hg, Hs, He, Hc. subst g' st' e' c'.
    unfold wrapped_accessor. subst fkd. cbn.
    destruct (prototype !! foreignKey def) as [[g0 st0 e0 [c0|]]|] eqn:E; reflexivity. }
  exists s1. rewrite Hrun, Ed. split; [reflexivity|].
  subst s1. destruct (indexes s !! (name, foreignKey def)) as [ix|] eqn:E.
  { rewrite E. by repeat split. }
  unfold createIndex. cbn [props links added collections indexes with_indexes].
  split; [done|]. split; [done|]. split; [done|]. split; [done|]. split.
  - intros k [x Hx]. rewrite lookup_insert_ne; [done|]. congruence.
  - by rewrite lookup_insert_eq.
Qed.

(** One turn of the loop of [defineMapper] for a relation of a kind of the
    library without [def.get] and [def.set], when the language lets the
    link field and, for BelongsTo, the foreign key be defined. *)
Lemma install_builtin (self : DataStore.t) (mapper : Mapper) (name : string)
    (def : Relation) (prototype : gmap string Descriptor) (s : store) :
  registers_builtins self →
  builtin_kind def → def_get def = None → def_set def = None →
  (type def = belongsToType →
     foreignKey def ≠ localField def ∧ redefinable prototype (foreignKey def)) →
  redefinable prototype (localField def) →
  ∃ prototype' s' d,
    DataStore.install self mapper name def prototype s = Ok prototype' s'
    ∧ (props s' = props s ∧ links s' = links s ∧ added s' = added s
       ∧ collections s' = collections s
       ∧ (∀ k, is_Some (indexes s !! k) → indexes s' !! k = indexes s !! k)
       ∧ (type def = belongsToType → is_Some (indexes s' !! (name, foreignKey def))))
    ∧ prototype' !! localField def = Some d
    ∧ (d_get d = Some (λ this s, _get_link s this (localField def))
       ∧ d_set d = Some (link_setter mapper name def)
       ∧ d_enumerable d = default false (enumerable def)
       ∧ (prototype !! localField def = None → d = link_descriptor mapper name def))
    ∧ (type def = belongsToType →
         prototype' !! foreignKey def
         = Some (wrapped_accessor getInverse getRelation mapper name def
                   (prototype !! foreignKey def)))
    ∧ (∀ k, k ≠ localField def → (type def = belongsToType → k ≠ foreignKey def) →
         prototype' !! k = prototype !! k).
Proof.
  intros [HB HO] Hk Hg Hs Hkey Hlink. unfold DataStore.install.
  assert (belongsToType ≠ hasOneType) by done.
  destruct Hk as [Hk|Hk]; rewrite Hk.
  - destruct (Hkey Hk) as [Hne Hre].
    rewrite HB. cbn [DataStore.createDescriptor]. unfold mbind at 1. unfold M_bind.
    destruct (createDescriptor_redefinable mapper def name prototype s Hre)
      as (s' & Hrun & Hframe).
    rewrite Hrun. cbn [fst snd d_get d_set d_configurable]. rewrite Hg, Hs.
    set (prototype1 := <[foreignKey def := _]> prototype).
    assert (Hlink1 : redefinable prototype1 (localField def)).
    { intros d0 Hd0. apply Hlink. subst prototype1.
      by rewrite lookup_insert_ne in Hd0. }
    match goal with
    | |- context [defineProperty prototype1 (localField def) ?d] =>
        destruct (defineProperty_redefinable prototype1 (localField def) d s' Hlink1)
          as (d' & Hdef & Hg' & Hs' & He' & _ & Hnew)
    end.
    exists (<[localField def := d']> prototype1), s', d'.
    split; [exact Hdef|].
    split; [destruct Hframe as (? & ? & ? & ? & ? & ?); by repeat split|].
    split; [by rewrite lookup_insert_eq|]. split; [|split].
    + split; [exact Hg'|]. split.
      { rewrite Hs'. cbn. unfold link_setter. by rewrite !decide_True. }
      split; [exact He'|].
      intros Hnone. rewrite Hnew.
      * unfold link_descriptor, link_setter. by rewrite !decide_True.
      * subst prototype1. by rewrite lookup_insert_ne.
    + intros _. rewrite lookup_insert_ne by (intros E; by apply Hne).
      subst prototype1. by rewrite lookup_insert_eq.
    + intros k HkL HkF. rewrite lookup_insert_ne by done.
      subst prototype1. rewrite lookup_insert_ne; [done|]. intros E. by apply HkF.
  - rewrite HO. cbn [DataStore.createDescriptor]. unfold mbind at 1. unfold M_bind.
    unfold HasOne.createDescriptor. cbn [fst snd d_get d_set d_configurable].
    rewrite Hg, Hs.
    set (s' := match collections s !! relation def with
               | Some _ => _
               | None => s
               end).
    match goal with
    | |- context [defineProperty prototype (localField def) ?d] =>
        destruct (defineProperty_redefinable prototype (localField def) d s' Hlink)
          as (d' & Hdef & Hg' & Hs' & He' & _ & Hnew)
    end.
    exists (<[localField def := d']> prototype), s', d'.
    split; [exact Hdef|]. split; [|split; [by rewrite lookup_insert_eq|split; [|split]]].
    + subst s'. split; [unfold createIndex; repeat case_match; done|].
      split; [unfold createIndex; repeat case_match; done|].
      split; [unfold createIndex; repeat case_match; done|].
      split; [unfold createIndex; repeat case_match; done|].
      split; [|congruence].
      intros k [x Hx].
      destruct (collections s !! relation def); [|done].
      destruct (indexes s !! (relation def, foreignKey def)) eqn:E; [done|].
      destruct (negb _); [|done].
      unfold createIndex. cbn [indexes with_indexes].
      rewrite lookup_insert_ne; [done|]. congruence.
    + split; [exact Hg'|]. split.
      { rewrite Hs'. cbn. unfold link_setter. by rewrite decide_False by congruence. }
      split; [exact He'|].
      intros Hnone. rewrite (Hnew Hnone).
      unfold link_descriptor, link_setter. by rewrite decide_False by congruence.
    + congruence.
    + intros k HkL _. by rewrite lookup_insert_ne.
Qed.

Lemma belongsTo_keys_cons (def : Relation) (defs : list Relation) :
  belongsTo_keys (def :: defs)
  = if decide (type def = belongsToType)
    then foreignKey def :: belongsTo_keys defs
    else belongsTo_keys defs.
Proof.
  unfold belongsTo_keys. destruct (decide (type def = belongsToType)).
  - by rewrite filter_cons_True.
  - by rewrite filter_cons_False.
Qed.

(** The whole loop, for relations of the kinds of the library without
    [def.get] and [def.set], with link fields and foreign keys of
    BelongsTo relations that all differ and that the language lets be
    defined on the prototype. *)
Lemma install_all_builtin (self : DataStore.t) (mapper : Mapper) (name : string)
    (defs : list Relation) :
  registers_builtins self →
  Forall (λ def, builtin_kind def ∧ def_get def = None ∧ def_set def = None) defs →
  NoDup (localField <$> defs) →
  NoDup (belongsTo_keys defs) →
  (∀ k, k ∈ belongsTo_keys defs → k ∉ localField <$> defs) →
  ∀ (prototype : gmap string Descriptor) (s : store),
  (∀ k, k ∈ localField <$> defs ∨ k ∈ belongsTo_keys defs → redefinable prototype k) →
  ∃ prototype' s',
    DataStore.install_all self mapper name defs prototype s = Ok prototype' s'
    ∧ (props s' = props s ∧ links s' = links s ∧ added s' = added s
       ∧ collections s' = collections s
       ∧ (∀ k, is_Some (indexes s !! k) → indexes s' !! k = indexes s !! k)
       ∧ (∀ def, def ∈ defs → type def = belongsToType →
            is_Some (indexes s' !! (name, foreignKey def))))
    ∧ (∀ def, def ∈ defs →
         ∃ d, prototype' !! localField def = Some d
              ∧ d_get d = Some (λ this s, _get_link s this (localField def))
              ∧ d_set d = Some (link_setter mapper name def)
              ∧ d_enumerable d = default false (enumerable def)
              ∧ (prototype !! localField def = None → d = link_descriptor mapper name def))
    ∧ (∀ k, k ∉ localField <$> defs → k ∉ belongsTo_keys defs →
         prototype' !! k = prototype !! k)
    ∧ (∀ def, def ∈ defs → type def = belongsToType →
         prototype' !! foreignKey def
         = Some (wrapped_accessor getInverse getRelation mapper name def
                   (prototype !! foreignKey def))).
Proof.
  intros Hreg Hall. induction Hall as [|def defs (Hk & Hg & Hs) _ IH];
    intros Hnd HndK Hkeys prototype s Hre.
  { exists prototype, s. simpl. split; [done|].
    split; [repeat split; try done; by intros ? ?%elem_of_nil|].
    split; [by intros ? ?%elem_of_nil|]. split; [done|].
    by intros ? ?%elem_of_nil. }
  rewrite fmap_cons in Hnd, Hkeys, Hre. apply NoDup_cons in Hnd as [HLhead Hnd].
  rewrite belongsTo_keys_cons in Hkeys, HndK, Hre.
  assert (HLkeys : localField def ∉ belongsTo_keys defs).
  { intros Hin. apply (Hkeys (localField def)).
    - destruct (decide (type def = belongsToType)); [by right|done].
    - by left. }
  assert (Hhead : type def = belongsToType →
            foreignKey def ≠ localField def
            ∧ foreignKey def ∉ (localField <$> defs)
            ∧ foreignKey def ∉ belongsTo_keys defs
            ∧ NoDup (belongsTo_keys defs)).
  { intros Hty. rewrite decide_True in Hkeys, HndK by done.
    apply NoDup_cons in HndK as [? ?].
    assert (Hn := Hkeys (foreignKey def) (proj2 (elem_of_cons _ _ _) (or_introl eq_refl))).
    apply not_elem_of_cons in Hn as [? ?]. done. }
  assert (HndK' : NoDup (belongsTo_keys defs)).
  { destruct (decide (type def = belongsToType)) as [Hty|]; [|done].
    by apply Hhead. }
  destruct (install_builtin self mapper name def prototype s Hreg Hk Hg Hs)
    as (prototype1 & s1 & d1 & Hrun & (Hp1 & Hl1 & Ha1 & Hc1 & Hi1 & Hix1)
        & HL1 & Hd1 & HF1 & Hsame1).
  { intros Hty. split; [by apply Hhead|]. apply Hre. right.
    rewrite decide_True by done. by left. }
  { apply Hre. left. by left. }
  assert (Hkeep : ∀ k, k ∈ localField <$> defs ∨ k ∈ belongsTo_keys defs →
            prototype1 !! k = prototype !! k).
  { intros k Hk'. apply Hsame1.
    - intros ->. destruct Hk' as [?|?]; [by apply HLhead|by apply HLkeys].
    - intros Hty ->. destruct (Hhead Hty) as (_ & ? & ? & _).
      by destruct Hk'. }
  destruct (IH Hnd HndK') with (prototype := prototype1) (s := s1)
    as (prototype' & s' & Hrun' & (Hp & Hl & Ha & Hc & Hi & Hix) & Hlinks & Hsame & Hfk).
  { intros k Hk1 Hk2. apply (Hkeys k).
    - destruct (decide (type def = belongsToType)); [by right|done].
    - by right. }
  { intros k Hk' d0 Hd0. rewrite (Hkeep k Hk') in Hd0.
    apply (Hre k); [|done].
    destruct Hk' as [?|?]; [left; by right|right].
    destruct (decide (type def = belongsToType)); [by right|done]. }
  exists prototype', s'. split; [|split; [|split; [|split]]].
  - simpl. unfold mbind, M_bind. by rewrite Hrun.
  - rewrite Hp, Hl, Ha, Hc. repeat split; try done.
    + intros k Hk'. rewrite Hi; [by apply Hi1|]. by rewrite Hi1.
    + intros d [->|Hd]%elem_of_cons Hty; [|by apply Hix].
      rewrite Hi; by apply Hix1.
  - intros d [->|Hd]%elem_of_cons.
    + exists d1. by rewrite Hsame.
    + destruct (Hlinks d Hd) as (d' & Hd' & Hg' & Hs' & He' & Hnew').
      exists d'. repeat split; try done.
      intros Hnone. apply Hnew'. rewrite Hkeep; [done|].
      left. by apply list_elem_of_fmap_2.
  - intros k HkL Hkk. rewrite fmap_cons in HkL.
    apply not_elem_of_cons in HkL as [HkL1 HkL2].
    rewrite belongsTo_keys_cons in Hkk.
    rewrite Hsame; [|done|by destruct (decide (type def = belongsToType));
                             [apply not_elem_of_cons in Hkk as [_ ?]|]].
    apply Hsame1; [done|]. intros Hty. rewrite decide_True in Hkk by done.
    by apply not_elem_of_cons in Hkk as [? _].
  - intros d [->|Hd]%elem_of_cons Hty.
    + destruct (Hhead Hty) as (_ & ? & ? & _). rewrite Hsame by done. by apply HF1.
    + rewrite Hfk by done. rewrite Hkeep; [done|]. right.
      unfold belongsTo_keys. apply list_elem_of_fmap_2.
      by apply list_elem_of_filter.
Qed.

(** [defineMapper] when the mapper definition of [SimpleStore] has yielded
    the mapper and the prototype. *)
Lemma defineMapper_run (self : DataStore.t) (name : string) (opts : MapperOpts)
    (registry : option (gmap string DataStore.RelationshipType))
    (mapper : Mapper) (prototype0 prototype : gmap string Descriptor)
    (s s0 s' : store) :
  SimpleStore_defineMapper name opts
    (default (DataStore.relationshipTypes self) registry) s
    = Ok (mapper, prototype0) s0 →
  DataStore.install_all self mapper name (relationList mapper) prototype0 s0
    = Ok prototype s' →
  defineMapper self name opts registry s = Ok (mapper, prototype) s'.
Proof.
  intros Hbase Hrun. unfold DataStore.defineMapper. unfold mbind at 1. unfold M_bind.
  rewrite Hbase. cbn [fst snd]. unfold mbind, M_bind. by rewrite Hrun.
Qed.

(** X13. A store built by the constructor defines a mapper whose
    relations are BelongsTo and HasOne relations without [def.get] and
    [def.set], whose link fields and foreign keys of BelongsTo relations
    all differ, the record class having no property under these names but
    configurable ones: [defineMapper] completes, no record, link or
    collection is touched, and the prototype carries for every relation,
    under its link field, the getter that reads the stored link, the
    setter of its kind and the enumerability of the definition, [false]
    when it gives none. *)
Theorem defineMapper_installs_link_fields
    (types : option (gmap string DataStore.RelationshipType))
    (sopts : option (gmap string value)) (name : string) (opts : MapperOpts)
    (registry : option (gmap string DataStore.RelationshipType))
    (mapper : Mapper) (prototype0 : gmap string Descriptor) (s s0 : store) :
  SimpleStore_defineMapper name opts
    (default (DataStore.relationshipTypes (new types sopts)) registry) s
    = Ok (mapper, prototype0) s0 →
  Forall (λ def, builtin_kind def ∧ def_get def = None ∧ def_set def = None)
    (relationList mapper) →
  NoDup (localField <$> relationList mapper) →
  NoDup (belongsTo_keys (relationList mapper)) →
  (∀ k, k ∈ belongsTo_keys (relationList mapper) →
     k ∉ localField <$> relationList mapper) →
  (∀ k, k ∈ localField <$> relationList mapper
        ∨ k ∈ belongsTo_keys (relationList mapper) →
     redefinable prototype0 k) →
  ∃ prototype s',
    defineMapper (new types sopts) name opts registry s = Ok (mapper, prototype) s'
    ∧ props s' = props s0 ∧ links s' = links s0 ∧ added s' = added s0
    ∧ collections s' = collections s0
    ∧ ∀ def, def ∈ relationList mapper →
        ∃ d g,
          prototype !! localField def = Some d
          ∧ d_get d = Some g
          ∧ (∀ this st, g this st = _get_link st this (localField def))
          ∧ d_set d = Some (link_setter mapper name def)
          ∧ d_enumerable d = default false (enumerable def).
Proof.
  intros Hbase Hall Hnd HndK Hkeys Hre.
  destruct (install_all_builtin (new types sopts) mapper name (relationList mapper)
              (new_registers_builtins types sopts) Hall Hnd HndK Hkeys prototype0 s0 Hre)
    as (prototype & s' & Hrun & (Hp & Hl & Ha & Hc & _) & Hlinks & _).
  exists prototype, s'. split; [|split; [|split; [|split; [|split]]]]; try done.
  - by apply (defineMapper_run _ _ _ _ _ prototype0 _ _ s0).
  - intros def Hd. destruct (Hlinks def Hd) as (d & Hd' & Hg & Hs & He & _).
    exists d. eexists. split; [done|]. split; [exact Hg|]. done.
Qed.

(** X14. A store built by the constructor defines a mapper whose
    relations are BelongsTo and HasOne relations without [def.get] and
    [def.set], whose link fields differ from each other and from the
    foreign keys of the BelongsTo relations, these keys differing from each
    other and the record class having no accessor for them, and no
    property under a link field but a configurable one: [defineMapper]
    puts on the prototype, under the foreign key of every BelongsTo
    relation, an enumerable accessor whose getter reads the stored key and
    whose setter is the foreign-key setter, which throws nothing and
    yields [undefined]; afterwards the collection of the mapper has an
    index on each of these keys, and no index that existed before has
    changed. *)
Theorem defineMapper_installs_foreign_keys
    (types : option (gmap string DataStore.RelationshipType))
    (sopts : option (gmap string value)) (name : string) (opts : MapperOpts)
    (registry : option (gmap string DataStore.RelationshipType))
    (mapper : Mapper) (prototype0 : gmap string Descriptor) (s s0 : store) :
  SimpleStore_defineMapper name opts
    (default (DataStore.relationshipTypes (new types sopts)) registry) s
    = Ok (mapper, prototype0) s0 →
  Forall (λ def, builtin_kind def ∧ def_get def = None ∧ def_set def = None)
    (relationList mapper) →
  NoDup (localField <$> relationList mapper) →
  (∀ k, k ∈ belongsTo_keys (relationList mapper) →
     k ∉ localField <$> relationList mapper) →
  NoDup (belongsTo_keys (relationList mapper)) →
  (∀ k, k ∈ belongsTo_keys (relationList mapper) → prototype0 !! k = None) →
  (∀ k, k ∈ localField <$> relationList mapper → redefinable prototype0 k) →
  ∃ prototype s',
    defineMapper (new types sopts) name opts registry s = Ok (mapper, prototype) s'
    ∧ (∀ k, is_Some (indexes s0 !! k) → indexes s' !! k = indexes s0 !! k)
    ∧ ∀ def, def ∈ relationList mapper → type def = belongsToType →
        is_Some (indexes s' !! (name, foreignKey def))
        ∧ ∃ d g st,
            prototype !! foreignKey def = Some d
            ∧ d_get d = Some g ∧ d_set d = Some st ∧ d_enumerable d = true
            ∧ (∀ this s1, g this s1 = _get_prop s1 this (foreignKey def))
            ∧ (∀ this v s1,
                 st this v s1
                 = Ok VUndef
                     (final_store
                        (BelongsTo.foreignKey_assign getInverse getRelation mapper def
                           name this v s1))).
Proof.
  intros Hbase Hall Hnd Hkeys HndK Hnone Hre.
  destruct (install_all_builtin (new types sopts) mapper name (relationList mapper)
              (new_registers_builtins types sopts) Hall Hnd HndK Hkeys prototype0 s0)
    as (prototype & s' & Hrun & (_ & _ & _ & _ & Hi & Hix) & _ & _ & Hfk).
  { intros k [Hk|Hk]; [by apply Hre|]. intros d Hd. by rewrite (Hnone k Hk) in Hd. }
  exists prototype, s'. split; [|split; [done|]].
  - by apply (defineMapper_run _ _ _ _ _ prototype0 _ _ s0).
  - intros def Hd Hty. split; [by apply Hix|]. eexists _, _, _.
    split; [by apply Hfk|].
    rewrite (Hnone (foreignKey def)).
    2: { unfold belongsTo_keys. apply list_elem_of_fmap_2. by apply list_elem_of_filter. }
    cbn. split; [reflexivity|]. split; [reflexivity|]. split; [reflexivity|].
    split; [reflexivity|].
    intros this v s1. rewrite Forall_forall in Hall.
    destruct (Hall def Hd) as (_ & Hg & Hs).
    rewrite !foreignKey_set_plain by done.
    by rewrite foreignKey_assign_plain.
Qed.

(** X15. With [def.set] on a relation of a kind of the library, whose
    link field and, for BelongsTo, foreign key the language lets be
    defined on the prototype, the two differing: the setter [defineMapper]
    installs is the hook, called with a callback that runs the setter of
    the kind: on the value the hook passes, and on the record being
    assigned when the hook passes [undefined]. Through its callback a hook
    cannot unset the link while a record is assigned. *)
Theorem install_set_hook (self : DataStore.t) (mapper : Mapper) (name : string)
    (def : Relation) (hook : loc → value → (value → M value) → M value)
    (prototype : gmap string Descriptor) (s : store) :
  registers_builtins self →
  builtin_kind def →
  def_set def = Some hook →
  (type def = belongsToType →
     foreignKey def ≠ localField def ∧ redefinable prototype (foreignKey def)) →
  redefinable prototype (localField def) →
  ∃ prototype' s' d st,
    DataStore.install self mapper name def prototype s = Ok prototype' s'
    ∧ prototype' !! localField def = Some d
    ∧ d_set d = Some st
    ∧ ∀ this related,
        ∃ orig : value → M value,
          st this related = hook this related orig
          ∧ orig VUndef = link_setter mapper name def this related
          ∧ ∀ v, v ≠ VUndef → orig v = link_setter mapper name def this v.
Proof.
  intros [HB HO] Hk Hs Hkey Hlink. unfold DataStore.install.
  assert (belongsToType ≠ hasOneType) by done.
  destruct Hk as [Hk|Hk]; rewrite Hk.
  - destruct (Hkey Hk) as [Hne Hre].
    rewrite HB. cbn [DataStore.createDescriptor]. unfold mbind at 1. unfold M_bind.
    destruct (createDescriptor_redefinable mapper def name prototype s Hre)
      as (s' & Hrun & _).
    rewrite Hrun. cbn [fst snd d_get d_set d_configurable]. rewrite Hs.
    set (prototype1 := <[foreignKey def := _]> prototype).
    assert (Hlink1 : redefinable prototype1 (localField def)).
    { intros d0 Hd0. apply Hlink. subst prototype1.
      by rewrite lookup_insert_ne in Hd0. }
    match goal with
    | |- context [defineProperty prototype1 (localField def) ?d] =>
        destruct (defineProperty_redefinable prototype1 (localField def) d s' Hlink1)
          as (d' & Hdef & _ & Hs' & _)
    end.
    eexists _, s', d', _. split; [exact Hdef|].
    split; [by rewrite lookup_insert_eq|]. split; [rewrite Hs'; reflexivity|].
    intros this related. eexists. split; [reflexivity|].
    unfold link_setter. rewrite !decide_True by done.
    split; [reflexivity|].
    intros v Hv. by rewrite decide_False.
  - rewrite HO. cbn [DataStore.createDescriptor]. unfold mbind at 1. unfold M_bind.
    unfold HasOne.createDescriptor. cbn [fst snd d_get d_set d_configurable].
    rewrite Hs.
    match goal with
    | |- context [defineProperty prototype (localField def) ?d ?s1] =>
        destruct (defineProperty_redefinable prototype (localField def) d s1 Hlink)
          as (d' & Hdef & _ & Hs' & _)
    end.
    eexists _, _, d', _. split; [exact Hdef|].
    split; [by rewrite lookup_insert_eq|]. split; [rewrite Hs'; reflexivity|].
    intros this related. eexists. split; [reflexivity|].
    unfold link_setter. destruct (decide (type def = belongsToType)); [congruence|].
    split; [reflexivity|].
    intros v Hv. by rewrite decide_False.
Qed.

(** X21. A BelongsTo relation without [def.get] and [def.set] whose
    foreign key has a configurable accessor on the record class already,
    the link field having no property there but a configurable one: the
    accessor [defineMapper] installs keeps the enumerability of the old
    one and stays configurable; its getter is the old getter when there is
    one, and reads the stored key otherwise; its setter runs the old
    setter first, when there is one, and then the foreign-key setter on
    the store that left, or fails as the old setter failed, nothing else
    being written. *)
Theorem install_wraps_foreign_key_accessor (self : DataStore.t) (mapper : Mapper)
    (name : string) (def : Relation) (d0 : Descriptor)
    (prototype : gmap string Descriptor) (s : store) :
  registers_builtins self →
  type def = belongsToType → def_get def = None → def_set def = None →
  foreignKey def ≠ localField def →
  prototype !! foreignKey def = Some d0 →
  configurable d0 = true →
  redefinable prototype (localField def) →
  ∃ prototype' s' d g st,
    DataStore.install self mapper name def prototype s = Ok prototype' s'
    ∧ prototype' !! foreignKey def = Some d
    ∧ d_enumerable d = d_enumerable d0
    ∧ configurable d = true
    ∧ d_get d = Some g
    ∧ d_set d = Some st
    ∧ (∀ this s1,
         g this s1 = match d_get d0 with
                     | Some g0 => g0 this s1
                     | None => _get_prop s1 this (foreignKey def)
                     end)
    ∧ (∀ this v s1,
         st this v s1
         = match d_set d0 with
           | Some f0 =>
               match f0 this v s1 with
               | Ok _ s2 =>
                   Ok VUndef
                     (final_store
                        (BelongsTo.foreignKey_assign getInverse getRelation mapper def
                           name this v s2))
               | Throw e s2 => Throw e s2
               end
           | None =>
               Ok VUndef
                 (final_store
                    (BelongsTo.foreignKey_assign getInverse getRelation mapper def
                       name this v s1))
           end).
Proof.
  intros Hreg Hty Hg Hs Hne Hd0 Hc0 Hlink.
  destruct (install_builtin self mapper name def prototype s Hreg (or_introl Hty) Hg Hs)
    as (prototype' & s' & d & Hrun & _ & _ & _ & HF & _); [| done |].
  { intros _. split; [done|]. intros d1 Hd1. congruence. }
  specialize (HF Hty). rewrite Hd0 in HF.
  eexists prototype', s', _, _, _. split; [exact Hrun|].
  split; [exact HF|]. cbn.
  split; [reflexivity|]. split; [exact Hc0|]. split; [reflexivity|].
  split; [reflexivity|]. split.
  - intros this s1. unfold BelongsTo.foreignKey_get. by destruct (d_get d0).
  - intros this v s1. unfold BelongsTo.foreignKey_set.
    destruct (d_set d0) as [f0|].
    + unfold mbind, M_bind. destruct (f0 this v s1) as [r s2|]; [|done].
      by rewrite foreignKey_assign_plain.
    + unfold mbind, M_bind. by rewrite foreignKey_assign_plain.
Qed.

(** X22. Two BelongsTo relations of a mapper that name the same foreign
    key, for which the record class had no accessor: the turn of the first
    defines the accessor of the key, which is not configurable, and the
    turn of the second throws a [TypeError] when it defines it again;
    [defineMapper] stops there, with no record, link or collection
    touched. (The first relation without [def.get] and [def.set], its key
    differing from its link field, the link field having no property on
    the prototype but a configurable one.) *)
Theorem install_shared_foreign_key_throws (self : DataStore.t) (mapper : Mapper)
    (name : string) (def1 def2 : Relation) (rest : list Relation)
    (prototype : gmap string Descriptor) (s : store) :
  registers_builtins self →
  type def1 = belongsToType → def_get def1 = None → def_set def1 = None →
  type def2 = belongsToType →
  foreignKey def2 = foreignKey def1 →
  foreignKey def1 ≠ localField def1 →
  prototype !! foreignKey def1 = None →
  redefinable prototype (localField def1) →
  ∃ prototype1 s1 message s2,
    DataStore.install self mapper name def1 prototype s = Ok prototype1 s1
    ∧ DataStore.install self mapper name def2 prototype1 s1 = Throw (TypeError message) s2
    ∧ DataStore.install_all self mapper name (def1 :: def2 :: rest) prototype s
      = Throw (TypeError message) s2
    ∧ props s2 = props s ∧ links s2 = links s ∧ added s2 = added s
    ∧ collections s2 = collections s.
Proof.
  intros Hreg Hty1 Hg Hs Hty2 Hkey Hne Hnone Hlink.
  destruct (install_builtin self mapper name def1 prototype s Hreg (or_introl Hty1) Hg Hs)
    as (prototype1 & s1 & d & Hrun & (Hp & Hl & Ha & Hc & _ & Hix) & _ & _ & HF & _);
    [|done|].
  { intros _. split; [done|]. intros d1 Hd1. congruence. }
  specialize (HF Hty1). rewrite Hnone in HF.
  assert (Hlocked : ∃ message,
            DataStore.install self mapper name def2 prototype1 s1
            = Throw (TypeError message) s1).
  { unfold DataStore.install. destruct Hreg as [HB _]. rewrite Hty2, HB.
    cbn [DataStore.createDescriptor]. unfold mbind at 1. unfold M_bind.
    unfold BelongsTo.createDescriptor, mbind, M_bind, lift. rewrite Hkey.
    destruct (Hix Hty1) as [ix Hsome]. rewrite Hsome.
    match goal with
    | |- context [defineProperty prototype1 (foreignKey def1) ?fkd s1] =>
        destruct (defineProperty_locked prototype1 (foreignKey def1) fkd _ s1 HF eq_refl)
          as [message Hthrow]
    end.
    exists message. by rewrite Hthrow. }
  destruct Hlocked as [message Hthrow].
  exists prototype1, s1, message, s1. split; [done|]. split; [done|]. split; [|done].
  simpl. unfold mbind, M_bind. by rewrite Hrun, Hthrow.
Qed.

End DefineMapperFacts.

(** ** The unlink pass of [destroyAll] *)

Section UnlinkAllFacts.

Variable getInverse : Relation → Mapper → option Relation.
Variable getRelation : Relation → Mapper.
Variable SimpleStore_destroyAll : string → value → gmap string value → M value.
Variable getMapper : string → Mapper.
Variable recordClass_prototype : string → gmap string Descriptor.

Local Abbreviation installed := (installed getInverse getRelation).

Lemma unset_only_refl (T : loc → Prop) (rs : list loc) (fs : list string) (s : store) :
  unset_only T rs fs s s.
Proof. split; intros; auto. Qed.

Lemma unset_only_trans (T : loc → Prop) (rs : list loc) (fs : list string)
    (s1 s2 s3 : store) :
  unset_only T rs fs s1 s2 → unset_only T rs fs s2 s3 → unset_only T rs fs s1 s3.
Proof.
  intros [Hp1 Hl1] [Hp2 Hl2]. split.
  - intros t f Ht. by rewrite Hp2, Hp1.
  - intros t f Ht.
    destruct (Hl2 t f Ht) as [E2|?]; [|by right].
    destruct (Hl1 t f Ht) as [E1|(? & ? & E1)].
    + left. by rewrite E2.
    + right. split; [done|]. split; [done|]. unfold _get_link in *. by rewrite E2.
Qed.

Lemma unset_only_link (T : loc → Prop) (rs : list loc) (fs : list string)
    (s s' : store) (t : loc) (f : string) :
  unset_only T rs fs s s' → T t →
  _get_link s' t f = _get_link s t f ∨ _get_link s' t f = VUndef.
Proof.
  intros [_ Hl] Ht. destruct (Hl t f Ht) as [E|(_ & _ & E)]; [left|by right].
  unfold _get_link. by rewrite E.
Qed.

Lemma unset_only_apart (T : loc → Prop) (rs : list loc) (fs : list string)
    (s s' : store) :
  (∀ r, r ∈ rs → T r) →
  unset_only T rs fs s s' → apart_from T rs fs s → apart_from T rs fs s'.
Proof.
  intros Hsub Hu Ha r f t Hr Hf Ht.
  destruct (unset_only_link T rs fs s s' r f Hu (Hsub r Hr)) as [-> | ->]; [|done].
  by apply Ha.
Qed.

(** One assignment of the pass. *)
Lemma unlink_step (prototype : gmap string Descriptor) (mapper : Mapper) (name : string)
    (def : Relation) (T : loc → Prop) (rs : list loc) (fs : list string)
    (C : loc) (s : store) :
  installed prototype mapper name def →
  (∀ r, r ∈ rs → T r) →
  C ∈ rs → localField def ∈ fs →
  apart_from T rs fs s →
  ∃ s1,
    DataStore.utils_set prototype (VRef C) (localField def) VUndef s = Ok tt s1
    ∧ _get_link s1 C (localField def) = VUndef
    ∧ unset_only T rs fs s s1.
Proof.
  intros Hinst Hsub HC Hf Hap.
  destruct (unlink_one getInverse getRelation prototype mapper name def C s Hinst)
    as (s1 & Hrun & Hun & Hown & Hprops & Hothers).
  { apply Hap; auto. }
  exists s1. split; [done|]. split; [done|]. split.
  - intros t f Ht. destruct (decide (t = C)) as [->|n]; [done|].
    apply Hothers; [done|]. apply Hap; auto.
  - intros t f Ht. destruct (decide (t = C)) as [->|n].
    + destruct (decide (f = localField def)) as [->|nf]; [by right|].
      left. by apply Hown.
    + left. apply Hothers; [done|]. apply Hap; auto.
Qed.

(** The pass over the records, for one relation. *)
Lemma unlink_records (prototype : gmap string Descriptor) (mapper : Mapper)
    (name : string) (def : Relation) (T : loc → Prop) (rs : list loc)
    (fs : list string) (rs1 : list loc) (s : store) :
  installed prototype mapper name def →
  (∀ r, r ∈ rs → T r) →
  (∀ r, r ∈ rs1 → r ∈ rs) → localField def ∈ fs →
  apart_from T rs fs s →
  ∃ s',
    DataStore.forEach
      (λ record, DataStore.utils_set prototype (VRef record) (localField def) VUndef)
      rs1 s = Ok tt s'
    ∧ (∀ r, r ∈ rs1 → _get_link s' r (localField def) = VUndef)
    ∧ unset_only T rs fs s s'.
Proof.
  intros Hinst Hsub Hin Hf. revert s.
  induction rs1 as [|C rs1 IH]; intros s Hap.
  { exists s. split; [done|]. split; [by intros ? ?%elem_of_nil|].
    apply unset_only_refl. }
  destruct (unlink_step prototype mapper name def T rs fs C s Hinst Hsub)
    as (s1 & Hrun & Hun & Hu1); [apply Hin; by left|done|done|].
  destruct (IH (λ r Hr, Hin r (proj2 (elem_of_cons _ _ _) (or_intror Hr))) s1)
    as (s' & Hrun' & Hun' & Hu').
  { by apply (unset_only_apart T rs fs s). }
  exists s'. split; [by rewrite forEach_cons, Hrun|]. split.
  - intros r [->|Hr]%elem_of_cons; [|by apply Hun'].
    destruct (unset_only_link T rs fs s1 s' C (localField def) Hu') as [E|E];
      [apply Hsub, Hin; by left| |done].
    by rewrite E.
  - by apply (unset_only_trans T rs fs s s1 s').
Qed.

(** The pass over the relations. *)
Lemma unlink_relations (prototype : gmap string Descriptor) (mapper : Mapper)
    (name : string) (T : loc → Prop) (rs : list loc) (defs defs1 : list Relation)
    (s : store) :
  Forall (installed prototype mapper name) defs1 →
  (∀ r, r ∈ rs → T r) →
  (∀ def, def ∈ defs1 → def ∈ defs) →
  apart_from T rs (localField <$> defs) s →
  ∃ s',
    DataStore.forEach
      (λ def, DataStore.forEach
         (λ record, DataStore.utils_set prototype (VRef record) (localField def) VUndef)
         rs) defs1 s = Ok tt s'
    ∧ (∀ r def, r ∈ rs → def ∈ defs1 → _get_link s' r (localField def) = VUndef)
    ∧ unset_only T rs (localField <$> defs) s s'.
Proof.
  intros Hinst Hsub. revert s.
  induction Hinst as [|def defs1 Hdef _ IH]; intros s Hin Hap.
  { exists s. split; [done|]. split; [by intros ? ? ? ?%elem_of_nil|].
    apply unset_only_refl. }
  destruct (unlink_records prototype mapper name def T rs (localField <$> defs) rs s
              Hdef Hsub) as (s1 & Hrun & Hun & Hu1); [done| |done|].
  { apply list_elem_of_fmap_2, Hin. by left. }
  destruct (IH s1) as (s' & Hrun' & Hun' & Hu').
  { intros d Hd. apply Hin. by right. }
  { by apply (unset_only_apart T rs _ s). }
  exists s'. split; [by rewrite forEach_cons, Hrun|]. split.
  - intros r d Hr [->|Hd]%elem_of_cons; [|by apply Hun'].
    destruct (unset_only_link T rs _ s1 s' r (localField def) Hu') as [E|E];
      [by apply Hsub| |done].
    rewrite E. by apply Hun.
  - by apply (unset_only_trans T rs _ s s1 s').
Qed.

(** [destroyAll] with unlink-on-destroy enabled, where the persistence
    call yields the records [rs] in store [s] and [raw] is not set: the
    unlink pass runs on every record of [rs]. *)
Lemma destroyAll_pass (self : DataStore.t) (name : string) (query : value)
    (opts : option (gmap string value)) (rs : list loc) (s0 s : store) :
  let defs := relationList (getMapper name) in
  SimpleStore_destroyAll name query (default ∅ opts) s0 = Ok (VArr rs) s →
  truthy (default VUndef (default ∅ opts !! "raw")) = false →
  truthy (DataStore.unlinkOnDestroy self) = true →
  Forall (installed (recordClass_prototype name) (getMapper name) name) defs →
  (∀ r r' def, r ∈ rs → r' ∈ rs → def ∈ defs →
     _get_link s r (localField def) ≠ VRef r') →
  ∃ s',
    DataStore.destroyAll SimpleStore_destroyAll getMapper recordClass_prototype
      self name query opts s0 = Ok (VArr rs) s'
    ∧ (∀ r def, r ∈ rs → def ∈ defs → _get_link s' r (localField def) = VUndef)
    ∧ (∀ r f, r ∈ rs → props s' !! (r, f) = props s !! (r, f))
    ∧ (∀ l f, l ∉ rs →
         (∀ r def, r ∈ rs → def ∈ defs → _get_link s r (localField def) ≠ VRef l) →
         props s' !! (l, f) = props s !! (l, f)
         ∧ links s' !! (l, f) = links s !! (l, f)).
Proof.
  intros defs Hbase Hraw Hflag Hinst Hap.
  set (run := DataStore.forEach
         (λ def, DataStore.forEach
            (λ record, DataStore.utils_set (recordClass_prototype name) (VRef record)
                         (localField def) VUndef) rs) defs).
  assert (Hloop : ∀ T : loc → Prop,
            (∀ r, r ∈ rs → T r) →
            apart_from T rs (localField <$> defs) s →
            ∃ s', run s = Ok tt s'
              ∧ (∀ r def, r ∈ rs → def ∈ defs → _get_link s' r (localField def) = VUndef)
              ∧ unset_only T rs (localField <$> defs) s s').
  { intros T Hsub HapT.
    by apply (unlink_relations (recordClass_prototype name) (getMapper name) name
                T rs defs defs s Hinst Hsub). }
  destruct (Hloop (λ t, t ∈ rs)) as (s' & Hrun & Hun & Hp & _); [done| |].
  { intros r f t Hr [d [-> Hd]]%list_elem_of_fmap Ht. by apply Hap. }
  assert (Hdone : DataStore.destroyAll SimpleStore_destroyAll getMapper
                    recordClass_prototype self name query opts s0
                  = Ok (VArr rs) (if decide (rs = []) then s else s')).
  { unfold DataStore.destroyAll. unfold mbind at 1. unfold M_bind.
    rewrite Hbase. unfold mbind at 1. unfold M_bind. rewrite Hraw.
    unfold DataStore.unlinkAll, DataStore.forEachRelation. rewrite Hflag.
    fold defs. fold run. destruct rs as [|r rs']; [done|].
    simpl. unfold mbind, M_bind. by rewrite Hrun. }
  destruct (decide (rs = [])) as [->|Hne].
  { exists s. split; [done|]. split; [by intros ? ? ?%elem_of_nil|].
    split; [done|]. done. }
  exists s'. split; [done|]. split; [done|]. split; [done|].
  intros l f Hl Hfree.
  destruct (Hloop (λ t, t ∈ rs ∨ t = l)) as (s'' & Hrun' & _ & Hp' & Hl'); [by left| |].
  { intros r g t Hr [d [-> Hd]]%list_elem_of_fmap [Ht| ->]; [by apply Hap|by apply Hfree]. }
  rewrite Hrun in Hrun'. injection Hrun' as <-.
  split; [apply Hp'; by right|].
  destruct (Hl' l f) as [E|(Hin & _)]; [by right|done|done].
Qed.

(** X16. [destroyAll] with unlink-on-destroy enabled, where the
    persistence call yields the records [rs] in store [s], for a mapper
    whose relations are BelongsTo relations and HasOne relations with an
    inverse, each with its setter on the prototype, and no record of [rs]
    linked to a record of [rs]: [destroyAll] completes and yields [rs];
    every link field of every record of [rs] is unset; their scalar fields
    are as in [s]; and so are the scalar and link fields of every other
    record that no link field of a record of [rs] pointed to. *)
Theorem destroyAll_unlinks_all (self : DataStore.t) (name : string) (query : value)
    (opts : option (gmap string value)) (rs : list loc) (s0 s : store) :
  let defs := relationList (getMapper name) in
  SimpleStore_destroyAll name query (default ∅ opts) s0 = Ok (VArr rs) s →
  truthy (default VUndef (default ∅ opts !! "raw")) = false →
  truthy (DataStore.unlinkOnDestroy self) = true →
  Forall (installed (recordClass_prototype name) (getMapper name) name) defs →
  (∀ r r' def, r ∈ rs → r' ∈ rs → def ∈ defs →
     _get_link s r (localField def) ≠ VRef r') →
  ∃ s',
    DataStore.destroyAll SimpleStore_destroyAll getMapper recordClass_prototype
      self name query opts s0 = Ok (VArr rs) s'
    ∧ (∀ r def, r ∈ rs → def ∈ defs → _get_link s' r (localField def) = VUndef)
    ∧ (∀ r f, r ∈ rs → props s' !! (r, f) = props s !! (r, f))
    ∧ (∀ l f, l ∉ rs →
         (∀ r def, r ∈ rs → def ∈ defs → _get_link s r (localField def) ≠ VRef l) →
         props s' !! (l, f) = props s !! (l, f)
         ∧ links s' !! (l, f) = links s !! (l, f)).
Proof.
  intros defs Hbase Hraw Hflag Hinst Hap.
  by apply destroyAll_pass.
Qed.

End UnlinkAllFacts.

(** ** The unlink pass by default *)

Section UnlinkDefault.

Variable getInverse : Relation → Mapper → option Relation.
Variable getRelation : Relation → Mapper.
Variable createHasManyDescriptor : CreateDescriptor.
Variable SimpleStore_destroy : string → value → gmap string value → M value.
Variable SimpleStore_destroyAll : string → value → gmap string value → M value.
Variable getMapper : string → Mapper.
Variable recordClass_prototype : string → gmap string Descriptor.

Local Abbreviation new := (DataStore.DataStore getInverse getRelation createHasManyDescriptor).
Local Abbreviation destroy :=
  (DataStore.destroy SimpleStore_destroy getMapper recordClass_prototype).
Local Abbreviation destroyAll :=
  (DataStore.destroyAll SimpleStore_destroyAll getMapper recordClass_prototype).
Local Abbreviation installed := (installed getInverse getRelation).

(** C10. A store constructed with no [unlinkOnDestroy] option, or with no
    options at all, has the flag [true], and its [destroy] and
    [destroyAll] perform the unlink pass: for a mapper whose relations are
    BelongsTo relations and HasOne relations with an inverse, each with its
    setter on the prototype, with link fields that differ, when the
    persistence call yields a record that is not linked to itself, or
    records that are not linked to each other, they complete and every
    link field of what was destroyed reads [undefined] afterwards.
    Constructed with [unlinkOnDestroy: false] both are the persistence
    call alone, whatever it yields and whatever the store. *)
Theorem unlinkOnDestroy_default
    (types : option (gmap string DataStore.RelationshipType))
    (opts dopts : gmap string value) (name : string) :
  let ds := new types (Some (delete "unlinkOnDestroy" opts)) in
  let off := new types (Some (<["unlinkOnDestroy" := VBool false]> opts)) in
  let defs := relationList (getMapper name) in
  DataStore.unlinkOnDestroy ds = VBool true
  ∧ DataStore.unlinkOnDestroy (new types None) = VBool true
  ∧ (∀ self, self = ds ∨ self = new types None →
     truthy (default VUndef (dopts !! "raw")) = false →
     Forall (installed (recordClass_prototype name) (getMapper name) name) defs →
     NoDup (localField <$> defs) →
     (∀ id C s0 s,
        SimpleStore_destroy name id dopts s0 = Ok (VRef C) s →
        Forall (λ def, _get_link s C (localField def) ≠ VRef C) defs →
        ∃ s',
          destroy self name id (Some dopts) s0 = Ok (VRef C) s'
          ∧ Forall (λ def, _get_link s' C (localField def) = VUndef) defs)
     ∧ (∀ query rs s0 s,
          SimpleStore_destroyAll name query dopts s0 = Ok (VArr rs) s →
          (∀ r r' def, r ∈ rs → r' ∈ rs → def ∈ defs →
             _get_link s r (localField def) ≠ VRef r') →
          ∃ s',
            destroyAll self name query (Some dopts) s0 = Ok (VArr rs) s'
            ∧ ∀ r def, r ∈ rs → def ∈ defs → _get_link s' r (localField def) = VUndef))
  ∧ (∀ id s0, destroy off name id (Some dopts) s0 = SimpleStore_destroy name id dopts s0)
  ∧ (∀ query s0,
       destroyAll off name query (Some dopts) s0
       = SimpleStore_destroyAll name query dopts s0).
Proof.
  intros ds off defs.
  assert (Hds : DataStore.unlinkOnDestroy ds = VBool true)
    by apply unlinkOnDestroy_missing.
  assert (Hnone : DataStore.unlinkOnDestroy (new types None) = VBool true)
    by apply unlinkOnDestroy_no_options.
  assert (Hoff : DataStore.unlinkOnDestroy off = VBool false)
    by apply unlinkOnDestroy_false.
  split; [done|]. split; [done|]. split; [|split].
  - intros self Hself Hraw Hinst Hnd.
    assert (Hflag : truthy (DataStore.unlinkOnDestroy self) = true).
    { destruct Hself as [-> | ->]; [by rewrite Hds|by rewrite Hnone]. }
    split.
    + intros id C s0 s Hbase Hloop.
      destruct (destroy_scope getInverse getRelation SimpleStore_destroy getMapper
                  recordClass_prototype self name id (Some dopts) C s0 s)
        as (s' & Hrun & Hun & _); try done.
      by exists s'.
    + intros query rs s0 s Hbase Hap.
      destruct (destroyAll_pass getInverse getRelation SimpleStore_destroyAll getMapper
                  recordClass_prototype self name query (Some dopts) rs s0 s)
        as (s' & Hrun & Hun & _); try done.
      by exists s'.
  - intros id s0. unfold DataStore.destroy, DataStore.unlink.
    rewrite Hoff. simpl. unfold mbind, M_bind, mret, M_ret.
    destruct (SimpleStore_destroy name id dopts s0); [|done].
    by rewrite andb_false_r.
  - intros query s0. unfold DataStore.destroyAll, DataStore.unlinkAll.
    rewrite Hoff. simpl. unfold mbind, M_bind, mret, M_ret.
    destruct (SimpleStore_destroyAll name query dopts s0) as [result s'|]; [|done].
    destruct (if truthy _ then _ else _); try done.
    by rewrite andb_false_r.
Qed.

End UnlinkDefault.

(** ** [destroy] called with [raw] *)

Section DestroyRawFacts.

Variable getInverse : Relation → Mapper → option Relation.
Variable getRelation : Relation → Mapper.
Variable SimpleStore_destroy : string → value → gmap string value → M value.
Variable getMapper : string → Mapper.
Variable recordClass_prototype : string → gmap string Descriptor.

Local Abbreviation installed := (installed getInverse getRelation).

(** X17. [destroy] with the option [raw] and unlink-on-destroy enabled
    yields the result object of the persistence call as it is, and runs
    the unlink pass on the record that object holds as its [data]: for a
    mapper whose relations are BelongsTo relations and HasOne relations
    with an inverse, each with its setter on the prototype, and a record
    [C] not linked to itself, every link field of [C] is unset, its scalar
    fields are as the persistence call left them, and so is every record
    that no link field of [C] pointed to. *)
Theorem destroy_raw_unlinks_data (self : DataStore.t) (name : string) (id : value)
    (opts : option (gmap string value)) (result : value) (C : loc) (s0 s : store) :
  let defs := relationList (getMapper name) in
  SimpleStore_destroy name id (default ∅ opts) s0 = Ok result s →
  truthy (default VUndef (default ∅ opts !! "raw")) = true →
  utils_get s result "data" = VRef C →
  truthy (DataStore.unlinkOnDestroy self) = true →
  Forall (installed (recordClass_prototype name) (getMapper name) name) defs →
  NoDup (localField <$> defs) →
  Forall (λ def, _get_link s C (localField def) ≠ VRef C) defs →
  ∃ s',
    DataStore.destroy SimpleStore_destroy getMapper recordClass_prototype
      self name id opts s0 = Ok result s'
    ∧ Forall (λ def, _get_link s' C (localField def) = VUndef) defs
    ∧ (∀ f, props s' !! (C, f) = props s !! (C, f))
    ∧ (∀ l f, l ≠ C →
         Forall (λ def, _get_link s C (localField def) ≠ VRef l) defs →
         props s' !! (l, f) = props s !! (l, f)
         ∧ links s' !! (l, f) = links s !! (l, f)).
Proof.
  intros defs Hbase Hraw Hdata Hflag Hinst Hnd Hself.
  destruct (unlink_scope getInverse getRelation getMapper recordClass_prototype
              self name C s Hflag Hinst Hnd Hself) as (s' & Hrun & Hrest).
  exists s'. split; [|exact Hrest].
  unfold DataStore.destroy. unfold mbind at 1. unfold M_bind.
  rewrite Hbase. unfold mbind at 1. unfold M_bind. rewrite Hraw, Hdata.
  unfold mbind, M_bind. by rewrite Hrun.
Qed.

End DestroyRawFacts.

(** ** The two sides of a one-to-one relation *)

Section OneToOne.

Variable getInverse : Relation → Mapper → option Relation.
Variable getRelation : Relation → Mapper.

(** The owner's side: [ho], a HasOne relation of mapper [mU]; the child's
    side: [bt], the BelongsTo relation of mapper [mP] that is its inverse. *)
Variable mU mP : Mapper.
Variable ho bt : Relation.

(** X18. For a HasOne relation and the BelongsTo relation that is its
    inverse, on an owner [U] and a child [P] that are not linked yet and
    that are the records their collections hold under their identifiers,
    if they hold any: [U.child = P] through the HasOne setter and
    [P.owner = U] through the BelongsTo setter leave the same store.
    (Schema: the two relations name the same foreign key, and each reads
    the identifier field of the mapper of the other.) *)
Theorem one_to_one_sides_agree (U P : loc) (s : store) :
  getInverse ho mU = Some bt →
  getInverse bt mP = Some ho →
  type ho = hasOneType →
  foreignKey bt = foreignKey ho →
  idAttribute (getRelation ho) = idAttribute mP →
  idAttribute (getRelation bt) = idAttribute mU →
  P ≠ U →
  truthy (_get_link s U (localField ho)) = false →
  truthy (_get_link s P (localField bt)) = false →
  (∀ l, store_get s (relation ho) (utils_get s (VRef P) (idAttribute mP)) = VRef l → l = P) →
  (∀ l, store_get s (relation bt) (utils_get s (VRef U) (idAttribute mU)) = VRef l → l = U) →
  ∃ s',
    HasOne.set getInverse getRelation mU ho U (VRef P) s = Ok (VRef P) s'
    ∧ BelongsTo.set getInverse getRelation mP bt (relation ho) P (VRef U) s
      = (VRef U, s').
Proof.
  intros Hih Hib Hty Hfk HidP HidU HPU HcU HcP HcanP HcanU.
  assert (HneU : VRef P ≠ _get_link s U (localField ho)).
  { intros E. by rewrite <- E in HcU. }
  assert (HneP : VRef U ≠ _get_link s P (localField bt)).
  { intros E. by rewrite <- E in HcP. }
  assert (HprefP : ∀ x, js_or (store_get s (relation ho)
                            (utils_get s (VRef P) (idAttribute mP))) x
                        = (if truthy (store_get s (relation ho)
                                        (utils_get s (VRef P) (idAttribute mP)))
                           then VRef P else x)).
  { intros x. unfold js_or.
    destruct (store_get_cases s (relation ho) (utils_get s (VRef P) (idAttribute mP)))
      as [E|[l E]]; rewrite E; [done|]. simpl. f_equal. by apply HcanP. }
  assert (HprefU : BelongsTo.prefer_store_record getRelation bt P (VRef U) s = VRef U).
  { unfold BelongsTo.prefer_store_record. rewrite HidU.
    destruct (_ && _); [|done]. unfold js_or.
    destruct (store_get_cases s (relation bt) (utils_get s (VRef U) (idAttribute mU)))
      as [E|[l E]]; rewrite E; [done|]. simpl. f_equal. by apply HcanU. }
  rewrite (set_truthy getInverse getRelation mP bt (relation ho) P (VRef U) s HneP eq_refl).
  rewrite HprefU, HidU.
  unfold HasOne.set. rewrite decide_False by done. rewrite Hih.
  unfold HasOne.unset_inverse. rewrite HcU. rewrite HidP.
  cbn [truthy].
  assert ((if bool_decide (utils_get s (VRef P) (idAttribute mP) ≠ VUndef)
           then js_or (store_get s (relation ho) (utils_get s (VRef P) (idAttribute mP)))
                  (VRef P)
           else VRef P) = VRef P) as ->.
  { rewrite HprefP. by repeat case_match. }
  eexists. split; [reflexivity|]. f_equal.
  apply store_eq; cbn [props links added collections indexes];
    autorewrite with frames; try done.
  - unfold link_write. by rewrite Hfk.
  - unfold attach_links, teardown_links. rewrite Hib, HcP.
    rewrite decide_True by done. unfold link_write.
    apply insert_insert_ne. congruence.
  - rewrite Hfk. f_equal. unfold utils_get, _get_prop.
    autorewrite with frames. unfold link_write. by rewrite lookup_insert_eq.
Qed.

End OneToOne.

(** ** What [destroy] leaves of the parent of the record destroyed *)

Section DestroyParentFacts.

Variable getInverse : Relation → Mapper → option Relation.
Variable getRelation : Relation → Mapper.
Variable SimpleStore_destroy : string → value → gmap string value → M value.
Variable getMapper : string → Mapper.
Variable recordClass_prototype : string → gmap string Descriptor.

Local Abbreviation installed := (installed getInverse getRelation).

Lemma forEach_app {A : Type} (fn : A → M unit) (l1 l2 : list A) (s : store) :
  DataStore.forEach fn (l1 ++ l2) s
  = match DataStore.forEach fn l1 s with
    | Ok _ s1 => DataStore.forEach fn l2 s1
    | Throw e s1 => Throw e s1
    end.
Proof.
  revert s. induction l1 as [|x l1 IH]; intros s; [done|].
  rewrite <- app_comm_cons, !forEach_cons. destruct (fn x s); [apply IH|done].
Qed.

(** The data-model invariant on an inverse field reads the link fields of
    the parent and the scalar fields. *)
Lemma inverse_ok_ext (s s1 : store) (idAttr : string) (inv : Relation) (C P : loc) :
  (∀ f, links s1 !! (P, f) = links s !! (P, f)) →
  (∀ l f, props s1 !! (l, f) = props s !! (l, f)) →
  inverse_ok s idAttr inv C P → inverse_ok s1 idAttr inv C P.
Proof.
  intros Hl Hp [H|(H & a & Ha & Hc & Hu)]; [by left|right].
  split; [done|]. exists a. split; [|split; [done|]].
  - unfold children, _get_link in *. by rewrite Hl.
  - intros x Hx Ht. apply Hu; [done|].
    unfold child_test, utils_get, _get_prop in *. by rewrite !Hp in Ht.
Qed.

Lemma occ_lookup (m m' : gmap (loc * string) value) (f : string) (P C : loc) :
  m' !! (P, f) = m !! (P, f) → occ m' f P C = occ m f P C.
Proof. intros E. unfold occ. by rewrite E. Qed.

(** The pass over the relations of [C] in three parts: the relations
    before [def], the assignment for [def], and the relations after it;
    the other link fields of [C] hold no record. A record [P] other than
    [C] is as the assignment for [def] left it. *)
Lemma unlink_pass_split (prototype : gmap string Descriptor) (mapper : Mapper)
    (name : string) (defs : list Relation) (def : Relation) (C P : loc) (s : store) :
  Forall (installed prototype mapper name) defs →
  NoDup (localField <$> defs) →
  def ∈ defs →
  _get_link s C (localField def) ≠ VRef C →
  P ≠ C →
  (∀ d l, d ∈ defs → localField d ≠ localField def →
     _get_link s C (localField d) ≠ VRef l) →
  ∃ s1 s2 s',
    (∀ l f, props s1 !! (l, f) = props s !! (l, f))
    ∧ (∀ l f, l ≠ C → links s1 !! (l, f) = links s !! (l, f))
    ∧ _get_link s1 C (localField def) = _get_link s C (localField def)
    ∧ DataStore.utils_set prototype (VRef C) (localField def) VUndef s1 = Ok tt s2
    ∧ DataStore.forEach
        (λ d, DataStore.utils_set prototype (VRef C) (localField d) VUndef) defs s
      = Ok tt s'
    ∧ Forall (λ d, _get_link s' C (localField d) = VUndef) defs
    ∧ (∀ f, props s' !! (C, f) = props s !! (C, f))
    ∧ (∀ f, props s' !! (P, f) = props s2 !! (P, f))
    ∧ (∀ f, links s' !! (P, f) = links s2 !! (P, f)).
Proof.
  intros Hinst Hnd Hdef Hself HPC Hrest.
  destruct (unlink_each getInverse getRelation prototype mapper name C defs s Hinst Hnd)
    as (s' & Hrun & Hun & _ & Hprops & _).
  { rewrite Forall_forall. intros d Hd.
    destruct (decide (localField d = localField def)) as [->|n];
      [done|by apply Hrest]. }
  destruct (list_elem_of_split _ _ Hdef) as (pre & post & Hsplit).
  rewrite Hsplit in Hinst, Hnd, Hrun.
  apply Forall_app in Hinst as [Hpre Hinst]. apply Forall_cons in Hinst as [Hd Hpost].
  rewrite fmap_app, fmap_cons in Hnd.
  apply NoDup_app in Hnd as (Hnd1 & Hnd2 & Hnd3).
  apply NoDup_cons in Hnd3 as [Hnd3 Hnd4].
  assert (Hin : ∀ d, d ∈ pre ∨ d ∈ post →
            d ∈ defs ∧ localField d ≠ localField def).
  { intros d Hd'. split.
    - rewrite Hsplit. apply elem_of_app. destruct Hd'; [by left|]. right. by right.
    - intros E. destruct Hd' as [Hd'|Hd'].
      + apply (Hnd2 (localField def)); [|by left].
        rewrite <- E. by apply list_elem_of_fmap_2.
      + apply Hnd3. rewrite <- E. by apply list_elem_of_fmap_2. }
  destruct (unlink_each getInverse getRelation prototype mapper name C pre s Hpre Hnd1)
    as (s1 & Hrun1 & _ & Hown1 & Hprops1 & Hothers1).
  { rewrite Forall_forall. intros d Hd'. apply Hrest; by apply Hin; left. }
  assert (Hfree1 : ∀ l, Forall (λ d, _get_link s C (localField d) ≠ VRef l) pre).
  { intros l. rewrite Forall_forall. intros d Hd'. apply Hrest; by apply Hin; left. }
  assert (Hcur1 : _get_link s1 C (localField def) = _get_link s C (localField def)).
  { unfold _get_link. rewrite Hown1; [done|].
    intros Hf. apply (Hnd2 (localField def)); [done|by left]. }
  destruct (unlink_one getInverse getRelation prototype mapper name def C s1 Hd)
    as (s2 & Hrun2 & _ & Hown2 & _ & _); [by rewrite Hcur1|].
  assert (Hfree2 : Forall (λ d, _get_link s2 C (localField d) ≠ VRef P
                                ∧ _get_link s2 C (localField d) ≠ VRef C) post).
  { rewrite Forall_forall. intros d Hd'.
    destruct (Hin d (or_intror Hd')) as [Hd1 Hd2].
    unfold _get_link. rewrite Hown2 by done. rewrite Hown1.
    2: { intros Hf. apply (Hnd2 (localField d)); [done|].
         right. by apply list_elem_of_fmap_2. }
    split; by apply Hrest. }
  destruct (unlink_each getInverse getRelation prototype mapper name C post s2 Hpost Hnd4)
    as (s3 & Hrun3 & _ & _ & _ & Hothers3).
  { eapply Forall_impl; [exact Hfree2|]. by intros d [_ ?]. }
  assert (E : s' = s3).
  { rewrite forEach_app, Hrun1, forEach_cons in Hrun. cbn beta in Hrun.
    rewrite Hrun2, Hrun3 in Hrun. by injection Hrun. }
  exists s1, s2, s'. rewrite <- Hsplit in Hrun.
  split; [|split; [|split; [done|split; [done|split; [done|split; [|split; [done|]]]]]]].
  - intros l f. destruct (decide (l = C)) as [->|n]; [done|]. by apply Hothers1.
  - intros l f n. by apply Hothers1.
  - done.
  - rewrite E. split; intros f; apply Hothers3; try done;
      (eapply Forall_impl; [exact Hfree2|]; by intros d [? _]).
Qed.

(** The parent of the record destroyed. *)
Lemma destroy_parent_side (self : DataStore.t) (name : string)
    (id : value) (opts : option (gmap string value)) (def inv : Relation)
    (C P : loc) (s0 s : store) :
  let mapper := getMapper name in
  let defs := relationList mapper in
  SimpleStore_destroy name id (default ∅ opts) s0 = Ok (VRef C) s →
  truthy (default VUndef (default ∅ opts !! "raw")) = false →
  truthy (DataStore.unlinkOnDestroy self) = true →
  Forall (installed (recordClass_prototype name) mapper name) defs →
  NoDup (localField <$> defs) →
  def ∈ defs →
  type def = belongsToType →
  getInverse def mapper = Some inv →
  localField inv ≠ localField def →
  _get_link s C (localField def) = VRef P →
  P ≠ C →
  (∀ d l, d ∈ defs → localField d ≠ localField def →
     _get_link s C (localField d) ≠ VRef l) →
  inverse_ok s (idAttribute mapper) inv C P →
  ∃ s',
    DataStore.destroy SimpleStore_destroy getMapper recordClass_prototype
      self name id opts s0 = Ok (VRef C) s'
    ∧ occurrences s' (localField inv) P C = 0
    ∧ _get_link s' C (localField def) = VUndef
    ∧ utils_get s' (VRef C) (foreignKey def) = utils_get s (VRef C) (foreignKey def).
Proof.
  intros mapper defs Hbase Hraw Hflag Hinst Hnd Hdef Hty Hinv Hfa Hcur HPC Hrest Hok.
  set (proto := recordClass_prototype name) in *.
  destruct (unlink_pass_split proto mapper name defs def C P s Hinst Hnd Hdef)
    as (s1 & s2 & s' & Hp1 & Hl1 & Hcur1 & Hrun2 & Hrun & Hun & Hprops & _ & HlP);
    [rewrite Hcur; congruence|done|done|].
  rewrite Hcur in Hcur1.
  exists s'. split; [|split; [|split]].
  { unfold DataStore.destroy. unfold mbind at 1. unfold M_bind.
    rewrite Hbase. unfold mbind at 1. unfold M_bind. rewrite Hraw.
    unfold DataStore.unlink, DataStore.forEachRelation. rewrite Hflag.
    cbn [truthy andb]. unfold mbind, M_bind. fold mapper defs proto.
    by rewrite Hrun. }
  2: { rewrite Forall_forall in Hun. by apply Hun. }
  2: { unfold utils_get, _get_prop. by rewrite Hprops. }
  rewrite Forall_forall in Hinst. destruct (Hinst def Hdef) as (_ & d & Hlook & Hset).
  unfold DataStore.utils_set in Hrun2. rewrite Hlook, Hset in Hrun2.
  unfold link_setter in Hrun2. rewrite decide_True in Hrun2 by done.
  unfold mbind, M_bind in Hrun2. cbn beta zeta in Hrun2.
  rewrite set_falsy in Hrun2 by (rewrite ?Hcur1; done). cbn [fst snd] in Hrun2.
  rewrite Hcur1 in Hrun2. injection Hrun2 as <-.
  rewrite occurrences_occ, (occ_lookup _ _ _ _ _ (HlP _)). cbn [links].
  rewrite occ_insert_ne by congruence.
  apply teardown_links_occ; [done|].
  apply (inverse_ok_ext s); [intros f; by apply Hl1|done|done].
Qed.

(** X19. [destroy] with unlink-on-destroy enabled takes the record
    destroyed out of the inverse field of its parent. The persistence call
    yields the record [C] in store [s]; the relations of its mapper are
    BelongsTo relations and HasOne relations with an inverse, with their
    setters on the prototype and link fields that differ from each other;
    [def] is a BelongsTo relation among them, with an inverse whose link
    field is another one, and the link field of [C] for [def] holds the
    parent [P], whose inverse field satisfies the data-model invariant for
    [C]; the other link fields of [C] hold no record. Then [destroy]
    completes, the inverse field of [P] holds no occurrence of [C], the
    link field of [C] is unset and its foreign key is as in [s]. *)
Theorem destroy_removes_child_from_parent (self : DataStore.t) (name : string)
    (id : value) (opts : option (gmap string value)) (def inv : Relation)
    (C P : loc) (s0 s : store) :
  let mapper := getMapper name in
  let defs := relationList mapper in
  SimpleStore_destroy name id (default ∅ opts) s0 = Ok (VRef C) s →
  truthy (default VUndef (default ∅ opts !! "raw")) = false →
  truthy (DataStore.unlinkOnDestroy self) = true →
  Forall (installed (recordClass_prototype name) mapper name) defs →
  NoDup (localField <$> defs) →
  def ∈ defs →
  type def = belongsToType →
  getInverse def mapper = Some inv →
  localField inv ≠ localField def →
  _get_link s C (localField def) = VRef P →
  P ≠ C →
  (∀ d l, d ∈ defs → localField d ≠ localField def →
     _get_link s C (localField d) ≠ VRef l) →
  inverse_ok s (idAttribute mapper) inv C P →
  ∃ s',
    DataStore.destroy SimpleStore_destroy getMapper recordClass_prototype
      self name id opts s0 = Ok (VRef C) s'
    ∧ occurrences s' (localField inv) P C = 0
    ∧ _get_link s' C (localField def) = VUndef
    ∧ utils_get s' (VRef C) (foreignKey def) = utils_get s (VRef C) (foreignKey def).
Proof.
  intros mapper defs Hbase Hraw Hflag Hinst Hnd Hdef Hty Hinv Hfa Hcur HPC Hrest Hok.
  by apply (destroy_parent_side self name id opts def inv C P s0 s).
Qed.

(** The HasOne child of the record destroyed. *)
Lemma destroy_child_side (self : DataStore.t) (name : string)
    (id : value) (opts : option (gmap string value)) (def inv : Relation)
    (C Q : loc) (s0 s : store) :
  let mapper := getMapper name in
  let defs := relationList mapper in
  SimpleStore_destroy name id (default ∅ opts) s0 = Ok (VRef C) s →
  truthy (default VUndef (default ∅ opts !! "raw")) = false →
  truthy (DataStore.unlinkOnDestroy self) = true →
  Forall (installed (recordClass_prototype name) mapper name) defs →
  NoDup (localField <$> defs) →
  def ∈ defs →
  type def = hasOneType →
  getInverse def mapper = Some inv →
  _get_link s C (localField def) = VRef Q →
  Q ≠ C →
  (∀ d l, d ∈ defs → localField d ≠ localField def →
     _get_link s C (localField d) ≠ VRef l) →
  ∃ s',
    DataStore.destroy SimpleStore_destroy getMapper recordClass_prototype
      self name id opts s0 = Ok (VRef C) s'
    ∧ utils_get s' (VRef Q) (foreignKey def) = VUndef
    ∧ _get_link s' Q (localField inv) = VUndef
    ∧ _get_link s' C (localField def) = VUndef.
Proof.
  intros mapper defs Hbase Hraw Hflag Hinst Hnd Hdef Hty Hinv Hcur HQC Hrest.
  set (proto := recordClass_prototype name) in *.
  destruct (unlink_pass_split proto mapper name defs def C Q s Hinst Hnd Hdef)
    as (s1 & s2 & s' & Hp1 & Hl1 & Hcur1 & Hrun2 & Hrun & Hun & _ & HpQ & HlQ);
    [rewrite Hcur; congruence|done|done|].
  rewrite Hcur in Hcur1.
  exists s'. split; [|split; [|split]].
  { unfold DataStore.destroy. unfold mbind at 1. unfold M_bind.
    rewrite Hbase. unfold mbind at 1. unfold M_bind. rewrite Hraw.
    unfold DataStore.unlink, DataStore.forEachRelation. rewrite Hflag.
    cbn [truthy andb]. unfold mbind, M_bind. fold mapper defs proto.
    by rewrite Hrun. }
  3: { rewrite Forall_forall in Hun. by apply Hun. }
  all: rewrite Forall_forall in Hinst; destruct (Hinst def Hdef) as (_ & d & Hlook & Hset).
  all: unfold DataStore.utils_set in Hrun2; rewrite Hlook, Hset in Hrun2.
  all: unfold link_setter in Hrun2.
  all: assert (belongsToType ≠ hasOneType) by done.
  all: rewrite decide_False in Hrun2 by congruence.
  all: unfold mbind, M_bind in Hrun2.
  all: destruct (hasOne_set_changes getInverse getRelation mapper def inv C VUndef s1 Hinv)
         as (s2' & Hset2 & _ & _ & Hp2 & Hl2); [by rewrite Hcur1|].
  all: rewrite Hset2 in Hrun2; injection Hrun2 as <-.
  all: cbn [truthy] in Hp2, Hl2; rewrite Hcur1 in Hp2, Hl2.
  - unfold utils_get, _get_prop. rewrite HpQ, Hp2. unfold link_write.
    by rewrite lookup_insert_eq.
  - unfold _get_link. rewrite HlQ, Hl2.
    rewrite lookup_insert_ne by congruence. unfold link_write.
    by rewrite lookup_insert_eq.
Qed.

(** X20. [destroy] with unlink-on-destroy enabled releases the HasOne
    child of the record destroyed. With the relations as above, [def] a
    HasOne relation among them with inverse [inv], the link field of the
    record [C] for [def] holding the child [Q], and the other link fields
    of [C] holding no record: [destroy] completes, the foreign key and the
    inverse link field of [Q] are [undefined], and the link field of [C] is
    unset. *)
Theorem destroy_releases_hasOne_child (self : DataStore.t) (name : string)
    (id : value) (opts : option (gmap string value)) (def inv : Relation)
    (C Q : loc) (s0 s : store) :
  let mapper := getMapper name in
  let defs := relationList mapper in
  SimpleStore_destroy name id (default ∅ opts) s0 = Ok (VRef C) s →
  truthy (default VUndef (default ∅ opts !! "raw")) = false →
  truthy (DataStore.unlinkOnDestroy self) = true →
  Forall (installed (recordClass_prototype name) mapper name) defs →
  NoDup (localField <$> defs) →
  def ∈ defs →
  type def = hasOneType →
  getInverse def mapper = Some inv →
  _get_link s C (localField def) = VRef Q →
  Q ≠ C →
  (∀ d l, d ∈ defs → localField d ≠ localField def →
     _get_link s C (localField d) ≠ VRef l) →
  ∃ s',
    DataStore.destroy SimpleStore_destroy getMapper recordClass_prototype
      self name id opts s0 = Ok (VRef C) s'
    ∧ utils_get s' (VRef Q) (foreignKey def) = VUndef
    ∧ _get_link s' Q (localField inv) = VUndef
    ∧ _get_link s' C (localField def) = VUndef.
Proof.
  intros mapper defs Hbase Hraw Hflag Hinst Hnd Hdef Hty Hinv Hcur HQC Hrest.
  by apply (destroy_child_side self name id opts def inv C Q s0 s).
Qed.

(** C6, as amended. [destroy] with unlink-on-destroy enabled, where the
    persistence call yields the destroyed record [C] in store [s], for a
    mapper whose relations are BelongsTo relations and HasOne relations
    with an inverse, each with the setter of its kind on the prototype,
    with link fields that differ from each other, and [C] not linked to
    itself: [destroy] completes and yields [C]; every link field of [C] is
    unset; the scalar fields of [C], its foreign keys among them, are as
    in [s]; and so are the scalar and link fields of every record that no
    link field of [C] pointed to. The records [C] was linked to are
    changed. When one link field of [C] holds a record and the others hold
    none: the parent a BelongsTo link field pointed to, its inverse field
    being another field and satisfying the data-model invariant for [C],
    holds no occurrence of [C] in that field any more; the child a HasOne
    link field pointed to has lost its foreign key and its link back. *)
Theorem destroy_unlink_scope (self : DataStore.t) (name : string) (id : value)
    (opts : option (gmap string value)) (C : loc) (s0 s : store) :
  let mapper := getMapper name in
  let defs := relationList mapper in
  SimpleStore_destroy name id (default ∅ opts) s0 = Ok (VRef C) s →
  truthy (default VUndef (default ∅ opts !! "raw")) = false →
  truthy (DataStore.unlinkOnDestroy self) = true →
  Forall (installed (recordClass_prototype name) mapper name) defs →
  NoDup (localField <$> defs) →
  Forall (λ def, _get_link s C (localField def) ≠ VRef C) defs →
  ∃ s',
    DataStore.destroy SimpleStore_destroy getMapper recordClass_prototype
      self name id opts s0 = Ok (VRef C) s'
    ∧ Forall (λ def, _get_link s' C (localField def) = VUndef) defs
    ∧ (∀ f, props s' !! (C, f) = props s !! (C, f))
    ∧ (∀ l f, l ≠ C →
         Forall (λ def, _get_link s C (localField def) ≠ VRef l) defs →
         props s' !! (l, f) = props s !! (l, f)
         ∧ links s' !! (l, f) = links s !! (l, f))
    ∧ (∀ def inv P,
         def ∈ defs → type def = belongsToType →
         getInverse def mapper = Some inv →
         localField inv ≠ localField def →
         _get_link s C (localField def) = VRef P →
         (∀ d l, d ∈ defs → localField d ≠ localField def →
            _get_link s C (localField d) ≠ VRef l) →
         inverse_ok s (idAttribute mapper) inv C P →
         occurrences s' (localField inv) P C = 0)
    ∧ (∀ def inv Q,
         def ∈ defs → type def = hasOneType →
         getInverse def mapper = Some inv →
         _get_link s C (localField def) = VRef Q →
         (∀ d l, d ∈ defs → localField d ≠ localField def →
            _get_link s C (localField d) ≠ VRef l) →
         utils_get s' (VRef Q) (foreignKey def) = VUndef
         ∧ _get_link s' Q (localField inv) = VUndef).
Proof.
  intros mapper defs Hbase Hraw Hflag Hinst Hnd Hself.
  destruct (destroy_scope getInverse getRelation SimpleStore_destroy getMapper
              recordClass_prototype self name id opts C s0 s)
    as (s' & Hrun & Hun & Hown & Hothers); try done.
  assert (Hnot : ∀ def l, def ∈ defs → _get_link s C (localField def) = VRef l → l ≠ C).
  { intros def l Hdef Hcur ->. rewrite Forall_forall in Hself. by apply (Hself def). }
  exists s'. split; [done|]. split; [done|]. split; [done|]. split; [done|]. split.
  - intros def inv P Hdef Hty Hinv Hfa Hcur Hrest Hok.
    destruct (destroy_parent_side self name id opts def inv C P s0 s)
      as (s'' & Hrun' & Hocc & _); try done; [by apply (Hnot def)|].
    rewrite Hrun in Hrun'. by injection Hrun' as <-.
  - intros def inv Q Hdef Hty Hinv Hcur Hrest.
    destruct (destroy_child_side self name id opts def inv C Q s0 s)
      as (s'' & Hrun' & Hfk & Hback & _); try done; [by apply (Hnot def)|].
    rewrite Hrun in Hrun'. by injection Hrun' as <-.
Qed.

End DestroyParentFacts.

Lemma destroy_unlink_scope_witness :
  let s0 := final_store (Scenario.setProfile Scenario.user1 (VRef Scenario.profile1)
                           Scenario.s0) in
  let s := final_store (Scenario.SimpleStore_destroy "user" (VNum 5) ∅ s0) in
  ∃ s',
    Scenario.destroy "user" (VNum 5) s0 = Ok (VRef Scenario.user1) s'
    ∧ _get_link s Scenario.user1 "profile" = VRef Scenario.profile1
    ∧ _get_link s' Scenario.user1 "profile" = VUndef
    ∧ (∀ f, props s' !! (Scenario.user1, f) = props s !! (Scenario.user1, f))
    ∧ (∀ f, props s' !! (Scenario.post1, f) = props s !! (Scenario.post1, f)
            ∧ links s' !! (Scenario.post1, f) = links s !! (Scenario.post1, f))
    ∧ utils_get s' (VRef Scenario.profile1) "userId" = VUndef
    ∧ _get_link s' Scenario.profile1 "user" = VUndef.
Proof.
  intros s0 s.
  destruct (destroy_unlink_scope Scenario.getInverse Scenario.getRelation
              Scenario.SimpleStore_destroy Scenario.getMapper Scenario.prototypes
              Scenario.theStore "user" (VNum 5) None Scenario.user1 s0 s)
    as (s' & Hrun & Hun & Hown & Hothers & _ & Hchild).
  - vm_compute. reflexivity.
  - vm_compute. reflexivity.
  - vm_compute. reflexivity.
  - constructor; [|constructor]. split.
    + right. split; [reflexivity|]. vm_compute. by eexists.
    + eexists. split; reflexivity.
  - vm_compute. repeat constructor; set_solver.
  - repeat constructor. vm_compute. discriminate.
  - exists s'. split; [exact Hrun|]. split; [vm_compute; reflexivity|].
    split; [by apply Forall_cons in Hun as [H _]|].
    split; [exact Hown|]. split.
    + intros f. apply Hothers; [discriminate|].
      repeat constructor. vm_compute. discriminate.
    + apply (Hchild Scenario.userProfile Scenario.profileUser Scenario.profile1).
      * by left.
      * reflexivity.
      * reflexivity.
      * vm_compute. reflexivity.
      * intros d l Hd Hne. apply list_elem_of_singleton in Hd. subst d.
        by destruct Hne.
Defined.

(** C6 as stated fails:
    - destroying user 5, who has profile 7, clears the foreign key and the
      link field of the profile, a record other than the destroyed one;
    - with no inverse declared for [user.profile], destroying user 5, who
      holds profile 7 in that field, throws a [TypeError] in the unlink
      pass, and the link field is not unset;
    - with a [def.set] that never unlinks, destroying comment 10, linked
      to post 1, completes and leaves the link field on post 1. *)
Lemma destroy_unlink_scope_counterexample :
  (let s := final_store (Scenario.setProfile Scenario.user1 (VRef Scenario.profile1)
                           Scenario.s0) in
   let s' := final_store (Scenario.destroy "user" (VNum 5) s) in
   truthy (DataStore.unlinkOnDestroy Scenario.theStore) = true
   ∧ Scenario.profile1 ≠ Scenario.user1
   ∧ _get_prop s Scenario.profile1 "userId" = VNum 5
   ∧ _get_link s Scenario.profile1 "user" = VRef Scenario.user1
   ∧ _get_prop s' Scenario.profile1 "userId" = VUndef
   ∧ _get_link s' Scenario.profile1 "user" = VUndef)
  ∧ (∃ message s',
       DataStore.destroy Scenario.SimpleStore_destroy Scenario.getMapper
         Examples.prototypesNoInverse Scenario.theStore "user" (VNum 5) None Examples.s3
       = Throw (TypeError message) s'
       ∧ _get_link s' Scenario.user1 "profile" = VRef Scenario.profile1)
  ∧ (let s := final_store
                (BelongsTo.utils_set_link Scenario.getInverse Scenario.getRelation
                   Examples.KeptComment Examples.keptPost "comment" Scenario.comment1
                   (VRef Scenario.post1) Scenario.s0) in
     ∃ s',
       DataStore.destroy Scenario.SimpleStore_destroy Examples.getKeptMapper
         Examples.keptPrototypes Scenario.theStore "comment" (VNum 10) None s
       = Ok (VRef Scenario.comment1) s'
       ∧ _get_link s' Scenario.comment1 "post" = VRef Scenario.post1).
Proof.
  split; [vm_compute; repeat split; (reflexivity || discriminate)|].
  split.
  - eexists _, _. split; vm_compute; reflexivity.
  - eexists. split; vm_compute; reflexivity.
Qed.

(** Destroying user 5 after [user1.profile = profile1], with a store
    constructed without options and with a store constructed with
    [unlinkOnDestroy: false]. *)
Lemma unlinkOnDestroy_default_witness :
  let s0 := final_store (Scenario.setProfile Scenario.user1 (VRef Scenario.profile1)
                           Scenario.s0) in
  let s := final_store (Scenario.SimpleStore_destroy "user" (VNum 5) ∅ s0) in
  let off := DataStore.DataStore Scenario.getInverse Scenario.getRelation
               Scenario.createHasManyDescriptor None
               (Some {[ "unlinkOnDestroy" := VBool false ]}) in
  DataStore.unlinkOnDestroy Scenario.theStore = VBool true
  ∧ _get_link s Scenario.user1 "profile" = VRef Scenario.profile1
  ∧ (∃ s',
       DataStore.destroy Scenario.SimpleStore_destroy Scenario.getMapper
         Scenario.prototypes Scenario.theStore "user" (VNum 5) (Some ∅) s0
       = Ok (VRef Scenario.user1) s'
       ∧ _get_link s' Scenario.user1 "profile" = VUndef)
  ∧ (∃ s',
       DataStore.destroyAll Examples.SimpleStore_destroyAll Scenario.getMapper
         Scenario.prototypes Scenario.theStore "user" VUndef (Some ∅) s0
       = Ok (VArr [Scenario.user1]) s'
       ∧ _get_link s' Scenario.user1 "profile" = VUndef)
  ∧ DataStore.destroy Scenario.SimpleStore_destroy Scenario.getMapper
      Scenario.prototypes off "user" (VNum 5) (Some ∅) s0
    = Ok (VRef Scenario.user1) s.
Proof.
  intros s0 s off.
  destruct (unlinkOnDestroy_default Scenario.getInverse Scenario.getRelation
              Scenario.createHasManyDescriptor Scenario.SimpleStore_destroy
              Examples.SimpleStore_destroyAll Scenario.getMapper Scenario.prototypes
              None ∅ ∅ "user") as (_ & Hflag & Hpass & Hoff & _).
  split; [exact Hflag|]. split; [vm_compute; reflexivity|].
  destruct (Hpass Scenario.theStore) as [Hdestroy HdestroyAll].
  - by right.
  - reflexivity.
  - constructor; [|constructor]. split.
    + right. split; [reflexivity|]. vm_compute. by eexists.
    + eexists. split; reflexivity.
  - vm_compute. repeat constructor; set_solver.
  - split; [|split].
    + destruct (Hdestroy (VNum 5) Scenario.user1 s0 s) as (s' & Hrun & Hun).
      * vm_compute. reflexivity.
      * repeat constructor. vm_compute. discriminate.
      * exists s'. split; [exact Hrun|]. by apply Forall_cons in Hun as [H _].
    + destruct (HdestroyAll VUndef [Scenario.user1] s0
                  (final_store (Examples.SimpleStore_destroyAll "user" VUndef ∅ s0)))
        as (s' & Hrun & Hun).
      * vm_compute. reflexivity.
      * intros r r' def ->%list_elem_of_singleton ->%list_elem_of_singleton
          ->%list_elem_of_singleton. vm_compute. discriminate.
      * exists s'. split; [exact Hrun|].
        apply (Hun Scenario.user1 Scenario.userProfile); by left.
    + etransitivity; [apply Hoff|]. vm_compute. reflexivity.
Defined.


(** ** The properties at the records of the scenario *)

Lemma scenario_fields_apart (inv : Relation) :
  Scenario.getInverse Scenario.commentPost Scenario.Comment = Some inv →
  localField inv ≠ localField Scenario.commentPost.
Proof. vm_compute. by intros [= <-]. Qed.

(** [comment1.post = null] after [comment1.post = post1]. *)
Lemma set_falsy_keeps_foreign_key_witness :
  let s := Scenario.setLink Scenario.comment1 (VRef Scenario.post1) Scenario.s0 in
  let r := BelongsTo.set Scenario.getInverse Scenario.getRelation Scenario.Comment
             Scenario.commentPost "comment" Scenario.comment1 VNull s in
  r.1 = VNull
  ∧ _get_link r.2 Scenario.comment1 "post" = VUndef
  ∧ props r.2 = props s
  ∧ utils_get r.2 (VRef Scenario.comment1) "postId" = VNum 1.
Proof.
  intros s r.
  destruct (set_falsy_keeps_foreign_key Scenario.getInverse Scenario.getRelation
              Scenario.Comment Scenario.commentPost "comment" Scenario.comment1 VNull s
              eq_refl) as (H1 & _ & H3 & H4 & _).
  split; [exact H1|]. split; [apply H3; vm_compute; discriminate|].
  split; [exact H4|]. unfold utils_get, _get_prop. subst r. rewrite H4.
  vm_compute. reflexivity.
Defined.

(** [comment2.post = post1_copy] for the comment the store does not hold. *)
Lemma set_truthy_result_witness :
  let r := BelongsTo.set Scenario.getInverse Scenario.getRelation Scenario.Comment
             Scenario.commentPost "comment" Scenario.comment2
             (VRef Scenario.post1_copy) Scenario.s0 in
  _get_link r.2 Scenario.comment2 "post" = r.1
  ∧ utils_get r.2 (VRef Scenario.comment2) "postId" = VNum 1
  ∧ r.1 = VRef Scenario.post1_copy.
Proof.
  intros r.
  destruct (set_truthy_result Scenario.getInverse Scenario.getRelation
              Scenario.Comment Scenario.commentPost "comment" scenario_fields_apart
              Scenario.comment2 (VRef Scenario.post1_copy) Scenario.s0 eq_refl)
    as (H1 & H2 & H3).
  { vm_compute. discriminate. }
  split; [exact H1|]. split; [exact H2|]. apply H3. vm_compute. reflexivity.
Defined.

(** [comment1.postId = 99] after [comment1.post = post1]: no post 99. *)
Lemma foreignKey_set_unresolved_witness :
  let s := Scenario.setLink Scenario.comment1 (VRef Scenario.post1) Scenario.s0 in
  let s' := Scenario.setForeignKey Scenario.comment1 (VNum 99) s in
  utils_get s' (VRef Scenario.comment1) "postId" = VNum 99
  ∧ _get_link s' Scenario.comment1 "post" = VRef Scenario.post1
  ∧ occurrences s "comments" Scenario.post1 Scenario.comment1 = 1
  ∧ occurrences s' "comments" Scenario.post1 Scenario.comment1 = 0.
Proof.
  intros s s'.
  destruct (foreignKey_set_unresolved Scenario.getInverse Scenario.getRelation
              Scenario.Comment Scenario.commentPost "comment" scenario_fields_apart
              Scenario.comment1 (VNum 99) s eq_refl eq_refl) as (H1 & _ & H3 & H4).
  { discriminate. }
  { discriminate. }
  { right. vm_compute. reflexivity. }
  split; [exact H1|].
  split; [etransitivity; [exact H3|vm_compute; reflexivity]|].
  split; [vm_compute; reflexivity|].
  apply (H4 Scenario.post1 Scenario.postComments).
  - reflexivity.
  - vm_compute. reflexivity.
  - vm_compute. discriminate.
  - vm_compute. discriminate.
  - right. split; [reflexivity|]. exists [Scenario.comment1].
    split; [vm_compute; reflexivity|]. split; [vm_compute; lia|].
    intros x [<-|[]] _. reflexivity.
Defined.

(** [comment1.postId = null] after [comment1.post = post1]. *)
Lemma foreignKey_set_nullish_witness :
  let s := Scenario.setLink Scenario.comment1 (VRef Scenario.post1) Scenario.s0 in
  let s' := Scenario.setForeignKey Scenario.comment1 VNull s in
  utils_get s' (VRef Scenario.comment1) "postId" = VNull
  ∧ _get_link s' Scenario.comment1 "post" = VUndef.
Proof.
  intros s s'.
  destruct (foreignKey_set_nullish Scenario.getInverse Scenario.getRelation
              Scenario.Comment Scenario.commentPost "comment"
              Scenario.comment1 VNull s eq_refl eq_refl) as (H1 & H2 & _).
  { by right. }
  split; [exact H1|]. apply H2. vm_compute. discriminate.
Defined.

(** [comment1.postId = 2], then reading [comment1.postId]. *)
Lemma foreignKey_get_after_set_witness :
  BelongsTo.foreignKey_get Scenario.commentPost None Scenario.comment1
    (Scenario.setForeignKey Scenario.comment1 (VNum 2) Scenario.s0) = VNum 2.
Proof.
  apply (foreignKey_get_after_set Scenario.getInverse Scenario.getRelation
           Scenario.Comment Scenario.commentPost "comment");
    [reflexivity|reflexivity|].
  apply (scenario_invariant Scenario.comment1).
Defined.

(** [user1.profile = profile1]. *)
Lemma hasOne_set_links_both_sides_witness :
  ∃ r s',
    Scenario.setProfile Scenario.user1 (VRef Scenario.profile1) Scenario.s0 = Ok r s'
    ∧ _get_link s' Scenario.user1 "profile" = r
    ∧ ∀ P, r = VRef P →
        utils_get s' (VRef P) "userId" = utils_get s' (VRef Scenario.user1) "id"
        ∧ _get_link s' P "user" = VRef Scenario.user1.
Proof.
  apply (hasOne_set_links_both_sides Scenario.getInverse Scenario.getRelation
           Scenario.User Scenario.userProfile Scenario.profileUser).
  - reflexivity.
  - reflexivity.
  - vm_compute. discriminate.
Defined.

(** [user1.profile = undefined] after [user1.profile = profile1]. *)
Lemma hasOne_set_releases_old_child_witness :
  let s := final_store (Scenario.setProfile Scenario.user1 (VRef Scenario.profile1)
                          Scenario.s0) in
  let s' := final_store (Scenario.setProfile Scenario.user1 VUndef s) in
  utils_get s (VRef Scenario.profile1) "userId" = VNum 5
  ∧ utils_get s' (VRef Scenario.profile1) "userId" = VUndef
  ∧ _get_link s' Scenario.profile1 "user" = VUndef.
Proof.
  intros s s'. split; [vm_compute; reflexivity|].
  apply (hasOne_set_releases_old_child Scenario.getInverse Scenario.getRelation
           Scenario.User Scenario.userProfile Scenario.profileUser
           Scenario.user1 Scenario.profile1 VUndef VUndef s s').
  - reflexivity.
  - vm_compute. reflexivity.
  - vm_compute. reflexivity.
  - discriminate.
  - discriminate.
  - discriminate.
Defined.

(** [user1.profile = profile1_copy], a detached object with the identifier
    of profile 7. *)
Lemma hasOne_set_canonical_witness :
  ∃ s',
    HasOne.set Scenario.getInverse Scenario.getRelation Scenario.User
      Scenario.userProfile Scenario.user1 (VRef Examples.profile1_copy) Examples.s1
    = Ok (VRef Scenario.profile1) s'
    ∧ _get_link s' Scenario.user1 "profile" = VRef Scenario.profile1.
Proof.
  apply (hasOne_set_canonical Scenario.getInverse Scenario.getRelation
           Scenario.User Scenario.userProfile Scenario.profileUser).
  - reflexivity.
  - vm_compute. discriminate.
  - vm_compute. reflexivity.
Defined.

(** [user1.profile = profile1]: the posts and comments are as before. *)
Lemma hasOne_set_writes_only_witness :
  let s' := final_store (Scenario.setProfile Scenario.user1 (VRef Scenario.profile1)
                           Scenario.s0) in
  added s' = added Scenario.s0
  ∧ collections s' = collections Scenario.s0
  ∧ (∀ f, props s' !! (Scenario.comment1, f) = props Scenario.s0 !! (Scenario.comment1, f))
  ∧ (∀ f, links s' !! (Scenario.comment1, f) = links Scenario.s0 !! (Scenario.comment1, f)).
Proof.
  intros s'.
  destruct (hasOne_set_writes_only Scenario.getInverse Scenario.getRelation
              Scenario.User Scenario.userProfile Scenario.user1 (VRef Scenario.profile1)
              (VRef Scenario.profile1) Scenario.s0 s')
    as (H1 & H2 & H3 & H4).
  { vm_compute. reflexivity. }
  split; [exact H1|]. split; [exact H2|]. split.
  - intros f. apply H3. right. split; [vm_compute; discriminate|discriminate].
  - intros f. apply H4; [discriminate|].
    intros inv _. right. split; [vm_compute; discriminate|discriminate].
Defined.

(** Defining the mapper of comments on the store of the scenario. *)
Lemma defineMapper_installs_link_fields_witness :
  ∃ prototype s',
    DataStore.defineMapper Mapper Scenario.newMapper Scenario.theStore
      "comment" Scenario.Comment None Scenario.s0 = Ok (Scenario.Comment, prototype) s'
    ∧ props s' = props Scenario.s0 ∧ links s' = links Scenario.s0
    ∧ added s' = added Scenario.s0 ∧ collections s' = collections Scenario.s0
    ∧ ∀ def, def ∈ relationList Scenario.Comment →
        ∃ d g,
          prototype !! localField def = Some d
          ∧ d_get d = Some g
          ∧ (∀ this st, g this st = _get_link st this (localField def))
          ∧ d_set d = Some (link_setter Scenario.getInverse Scenario.getRelation
                              Scenario.Comment "comment" def)
          ∧ d_enumerable d = default false (enumerable def).
Proof.
  apply (defineMapper_installs_link_fields Scenario.getInverse Scenario.getRelation
           Scenario.createHasManyDescriptor Mapper Scenario.newMapper
           None None "comment" Scenario.Comment None Scenario.Comment ∅
           Scenario.s0 Scenario.s0).
  - reflexivity.
  - repeat constructor.
  - repeat constructor. apply not_elem_of_nil.
  - repeat constructor. apply not_elem_of_nil.
  - intros k Hk. apply list_elem_of_singleton in Hk. subst k.
    apply not_elem_of_cons. split; [done|apply not_elem_of_nil].
  - intros k _ d Hd. by rewrite lookup_empty in Hd.
Defined.

Lemma defineMapper_installs_foreign_keys_witness :
  ∃ prototype s',
    DataStore.defineMapper Mapper Scenario.newMapper Scenario.theStore
      "comment" Scenario.Comment None Scenario.s0 = Ok (Scenario.Comment, prototype) s'
    ∧ (∀ k, is_Some (indexes Scenario.s0 !! k) → indexes s' !! k = indexes Scenario.s0 !! k)
    ∧ ∀ def, def ∈ relationList Scenario.Comment → type def = belongsToType →
        is_Some (indexes s' !! ("comment", foreignKey def))
        ∧ ∃ d g st,
            prototype !! foreignKey def = Some d
            ∧ d_get d = Some g ∧ d_set d = Some st ∧ d_enumerable d = true
            ∧ (∀ this s1, g this s1 = _get_prop s1 this (foreignKey def))
            ∧ (∀ this v s1,
                 st this v s1
                 = Ok VUndef
                     (final_store
                        (BelongsTo.foreignKey_assign Scenario.getInverse
                           Scenario.getRelation Scenario.Comment def "comment"
                           this v s1))).
Proof.
  apply (defineMapper_installs_foreign_keys Scenario.getInverse Scenario.getRelation
           Scenario.createHasManyDescriptor Mapper Scenario.newMapper
           None None "comment" Scenario.Comment None Scenario.Comment ∅
           Scenario.s0 Scenario.s0).
  - reflexivity.
  - repeat constructor.
  - repeat constructor. apply not_elem_of_nil.
  - intros k Hk. apply list_elem_of_singleton in Hk. subst k.
    apply not_elem_of_cons. split; [done|apply not_elem_of_nil].
  - repeat constructor. apply not_elem_of_nil.
  - intros k _. apply lookup_empty.
  - intros k _ d Hd. by rewrite lookup_empty in Hd.
Defined.

(** The link field of a relation with a [def.set] that calls its callback
    with nothing. *)
Lemma install_set_hook_witness :
  ∃ prototype' s' d st,
    DataStore.install Scenario.theStore Scenario.Comment "comment" Examples.hookedPost
      ∅ Scenario.s0 = Ok prototype' s'
    ∧ prototype' !! "post" = Some d
    ∧ d_set d = Some st
    ∧ ∀ this related,
        ∃ orig : value → M value,
          st this related = orig VUndef
          ∧ orig VUndef
            = link_setter Scenario.getInverse Scenario.getRelation Scenario.Comment
                "comment" Examples.hookedPost this related
          ∧ ∀ v, v ≠ VUndef →
              orig v
              = link_setter Scenario.getInverse Scenario.getRelation Scenario.Comment
                  "comment" Examples.hookedPost this v.
Proof.
  apply (install_set_hook Scenario.getInverse Scenario.getRelation
           Scenario.theStore Scenario.Comment "comment" Examples.hookedPost
           (λ this related orig, orig VUndef) ∅ Scenario.s0).
  - apply new_registers_builtins.
  - by left.
  - reflexivity.
  - intros _. split; [discriminate|]. intros d Hd. by rewrite lookup_empty in Hd.
  - intros d Hd. by rewrite lookup_empty in Hd.
Defined.

(** Destroying every user after [user1.profile = profile1]. *)
Lemma destroyAll_unlinks_all_witness :
  let s0 := final_store (Scenario.setProfile Scenario.user1 (VRef Scenario.profile1)
                           Scenario.s0) in
  let s := final_store (Examples.SimpleStore_destroyAll "user" VUndef ∅ s0) in
  ∃ s',
    DataStore.destroyAll Examples.SimpleStore_destroyAll Scenario.getMapper
      Scenario.prototypes Scenario.theStore "user" VUndef None s0
    = Ok (VArr [Scenario.user1]) s'
    ∧ _get_link s Scenario.user1 "profile" = VRef Scenario.profile1
    ∧ _get_link s' Scenario.user1 "profile" = VUndef
    ∧ (∀ f, props s' !! (Scenario.user1, f) = props s !! (Scenario.user1, f))
    ∧ (∀ f, props s' !! (Scenario.post1, f) = props s !! (Scenario.post1, f)
            ∧ links s' !! (Scenario.post1, f) = links s !! (Scenario.post1, f)).
Proof.
  intros s0 s.
  destruct (destroyAll_unlinks_all Scenario.getInverse Scenario.getRelation
              Examples.SimpleStore_destroyAll Scenario.getMapper Scenario.prototypes
              Scenario.theStore "user" VUndef None [Scenario.user1] s0 s)
    as (s' & Hrun & Hun & Hp & Ho).
  - vm_compute. reflexivity.
  - vm_compute. reflexivity.
  - vm_compute. reflexivity.
  - constructor; [|constructor]. split.
    + right. split; [reflexivity|]. vm_compute. by eexists.
    + eexists. split; reflexivity.
  - intros r r' def ->%list_elem_of_singleton ->%list_elem_of_singleton
      ->%list_elem_of_singleton. vm_compute. discriminate.
  - exists s'. split; [exact Hrun|]. split; [vm_compute; reflexivity|].
    split; [apply (Hun Scenario.user1 Scenario.userProfile); by left|].
    split; [intros f; apply Hp; by left|].
    intros f. apply Ho.
    + intros E%list_elem_of_singleton. discriminate E.
    + intros r def ->%list_elem_of_singleton ->%list_elem_of_singleton.
      vm_compute. discriminate.
Defined.

(** [_setForeignKey (comment1, post2)] with the accessors of the comment
    class. *)
Lemma setForeignKey_then_find_witness :
  ∃ s',
    BelongsToRelation._setForeignKey Scenario.getRelation Scenario.commentPost
      Examples.commentPrototype (VRef Scenario.comment1) (VRef Scenario.post2) Scenario.s0
    = Ok tt s'
    ∧ BelongsToRelation.getForeignKey Scenario.commentPost (VRef Scenario.comment1) s'
      = VNum 2
    ∧ BelongsToRelation.findExistingLinksFor Scenario.commentPost
        (VRef Scenario.comment1) s' = VRef Scenario.post2
    ∧ _get_link s' Scenario.comment1 "post" = VRef Scenario.post2.
Proof.
  destruct (setForeignKey_then_find Scenario.getInverse Scenario.getRelation
              Scenario.Comment Scenario.commentPost "comment" scenario_fields_apart
              Examples.commentPrototype
              (foreignKey_accessor Scenario.getInverse Scenario.getRelation
                 Scenario.Comment "comment" Scenario.commentPost)
              Scenario.comment1 Scenario.post2 Scenario.s0)
    as (s' & H1 & H2 & H3 & H4).
  - reflexivity.
  - reflexivity.
  - reflexivity.
  - reflexivity.
  - apply (scenario_invariant Scenario.comment1).
  - vm_compute. reflexivity.
  - exists s'. split; [exact H1|]. split; [exact H2|]. split; [exact H3|].
    apply H4. vm_compute. reflexivity.
Defined.

(** Destroying user 5 with [raw] after [user1.profile = profile1]. *)
Lemma destroy_raw_unlinks_data_witness :
  let s0 := final_store (Scenario.setProfile Scenario.user1 (VRef Scenario.profile1)
                           Scenario.s0) in
  let s := final_store (Examples.SimpleStore_destroy_raw "user" (VNum 5)
                          {[ "raw" := VBool true ]} s0) in
  ∃ s',
    DataStore.destroy Examples.SimpleStore_destroy_raw Scenario.getMapper
      Scenario.prototypes Scenario.theStore "user" (VNum 5)
      (Some {[ "raw" := VBool true ]}) s0
    = Ok (VRef Examples.rawResult) s'
    ∧ _get_link s Scenario.user1 "profile" = VRef Scenario.profile1
    ∧ _get_link s' Scenario.user1 "profile" = VUndef
    ∧ (∀ f, props s' !! (Scenario.user1, f) = props s !! (Scenario.user1, f)).
Proof.
  intros s0 s.
  destruct (destroy_raw_unlinks_data Scenario.getInverse Scenario.getRelation
              Examples.SimpleStore_destroy_raw Scenario.getMapper Scenario.prototypes
              Scenario.theStore "user" (VNum 5) (Some {[ "raw" := VBool true ]})
              (VRef Examples.rawResult) Scenario.user1 s0 s)
    as (s' & Hrun & Hun & Hp & _).
  - vm_compute. reflexivity.
  - vm_compute. reflexivity.
  - vm_compute. reflexivity.
  - vm_compute. reflexivity.
  - constructor; [|constructor]. split.
    + right. split; [reflexivity|]. vm_compute. by eexists.
    + eexists. split; reflexivity.
  - vm_compute. repeat constructor; set_solver.
  - repeat constructor. vm_compute. discriminate.
  - exists s'. split; [exact Hrun|]. split; [vm_compute; reflexivity|].
    split; [|exact Hp].
    apply Forall_cons in Hun as [H _]. exact H.
Defined.

(** [user1.profile = profile1] and [profile1.user = user1]. *)
Lemma one_to_one_sides_agree_witness :
  ∃ s',
    Scenario.setProfile Scenario.user1 (VRef Scenario.profile1) Scenario.s0
    = Ok (VRef Scenario.profile1) s'
    ∧ BelongsTo.set Scenario.getInverse Scenario.getRelation Scenario.Profile
        Scenario.profileUser "profile" Scenario.profile1 (VRef Scenario.user1) Scenario.s0
      = (VRef Scenario.user1, s').
Proof.
  apply (one_to_one_sides_agree Scenario.getInverse Scenario.getRelation
           Scenario.User Scenario.Profile Scenario.userProfile Scenario.profileUser
           Scenario.user1 Scenario.profile1 Scenario.s0).
  - reflexivity.
  - reflexivity.
  - reflexivity.
  - reflexivity.
  - reflexivity.
  - reflexivity.
  - discriminate.
  - vm_compute. reflexivity.
  - vm_compute. reflexivity.
  - intros l. vm_compute. by intros [= <-].
  - intros l. vm_compute. by intros [= <-].
Defined.

(** Destroying comment 10 after [comment1.post = post1]. *)
Lemma destroy_removes_child_from_parent_witness :
  let s0 := Scenario.setLink Scenario.comment1 (VRef Scenario.post1) Scenario.s0 in
  let s := final_store (Scenario.SimpleStore_destroy "comment" (VNum 10) ∅ s0) in
  ∃ s',
    DataStore.destroy Scenario.SimpleStore_destroy Scenario.getMapper Examples.prototypes
      Scenario.theStore "comment" (VNum 10) None s0 = Ok (VRef Scenario.comment1) s'
    ∧ occurrences s "comments" Scenario.post1 Scenario.comment1 = 1
    ∧ occurrences s' "comments" Scenario.post1 Scenario.comment1 = 0
    ∧ _get_link s' Scenario.comment1 "post" = VUndef
    ∧ utils_get s' (VRef Scenario.comment1) "postId" = VNum 1.
Proof.
  intros s0 s.
  destruct (destroy_removes_child_from_parent Scenario.getInverse Scenario.getRelation
              Scenario.SimpleStore_destroy Scenario.getMapper Examples.prototypes
              Scenario.theStore "comment" (VNum 10) None Scenario.commentPost
              Scenario.postComments Scenario.comment1 Scenario.post1 s0 s)
    as (s' & H1 & H2 & H3 & H4).
  - vm_compute. reflexivity.
  - vm_compute. reflexivity.
  - vm_compute. reflexivity.
  - constructor; [|constructor]. split.
    + by left.
    + eexists. split; reflexivity.
  - repeat constructor. apply not_elem_of_nil.
  - by left.
  - reflexivity.
  - reflexivity.
  - discriminate.
  - vm_compute. reflexivity.
  - discriminate.
  - intros d l Hd Hne. apply list_elem_of_singleton in Hd. subst d. by destruct Hne.
  - right. split; [reflexivity|]. exists [Scenario.comment1].
    split; [vm_compute; reflexivity|]. split; [vm_compute; lia|].
    intros x [<-|[]] _. reflexivity.
  - exists s'. split; [exact H1|]. split; [vm_compute; reflexivity|].
    split; [exact H2|]. split; [exact H3|].
    etransitivity; [exact H4|]. vm_compute. reflexivity.
Defined.

(** Destroying user 5 after [user1.profile = profile1]. *)
Lemma destroy_releases_hasOne_child_witness :
  let s0 := final_store (Scenario.setProfile Scenario.user1 (VRef Scenario.profile1)
                           Scenario.s0) in
  ∃ s',
    Scenario.destroy "user" (VNum 5) s0 = Ok (VRef Scenario.user1) s'
    ∧ utils_get s0 (VRef Scenario.profile1) "userId" = VNum 5
    ∧ utils_get s' (VRef Scenario.profile1) "userId" = VUndef
    ∧ _get_link s' Scenario.profile1 "user" = VUndef
    ∧ _get_link s' Scenario.user1 "profile" = VUndef.
Proof.
  intros s0.
  destruct (destroy_releases_hasOne_child Scenario.getInverse Scenario.getRelation
              Scenario.SimpleStore_destroy Scenario.getMapper Scenario.prototypes
              Scenario.theStore "user" (VNum 5) None Scenario.userProfile
              Scenario.profileUser Scenario.user1 Scenario.profile1 s0
              (final_store (Scenario.SimpleStore_destroy "user" (VNum 5) ∅ s0)))
    as (s' & H1 & H2 & H3 & H4).
  - vm_compute. reflexivity.
  - vm_compute. reflexivity.
  - vm_compute. reflexivity.
  - constructor; [|constructor]. split.
    + right. split; [reflexivity|]. vm_compute. by eexists.
    + eexists. split; reflexivity.
  - repeat constructor. apply not_elem_of_nil.
  - by left.
  - reflexivity.
  - reflexivity.
  - vm_compute. reflexivity.
  - discriminate.
  - intros d l Hd Hne. apply list_elem_of_singleton in Hd. subst d. by destruct Hne.
  - exists s'. split; [exact H1|]. split; [vm_compute; reflexivity|].
    split; [exact H2|]. split; [exact H3|exact H4].
Defined.

(** Installing [comment.post] on a record class that tracks [postId]. *)
Lemma install_wraps_foreign_key_accessor_witness :
  ∃ prototype' s' d g st,
    DataStore.install Scenario.theStore Scenario.Comment "comment" Scenario.commentPost
      Examples.trackedPrototype Scenario.s0 = Ok prototype' s'
    ∧ prototype' !! "postId" = Some d
    ∧ d_enumerable d = false
    ∧ configurable d = true
    ∧ d_get d = Some g
    ∧ d_set d = Some st
    ∧ (∀ this s1, g this s1 = _get_prop s1 this "postId")
    ∧ (∀ this v s1,
         st this v s1
         = Ok VUndef
             (final_store
                (BelongsTo.foreignKey_assign Scenario.getInverse Scenario.getRelation
                   Scenario.Comment Scenario.commentPost "comment" this v
                   (with_props <[(this, "changed") := VBool true]> s1)))).
Proof.
  apply (install_wraps_foreign_key_accessor Scenario.getInverse Scenario.getRelation
           Scenario.theStore Scenario.Comment "comment" Scenario.commentPost
           Examples.tracked Examples.trackedPrototype Scenario.s0).
  - apply new_registers_builtins.
  - reflexivity.
  - reflexivity.
  - reflexivity.
  - discriminate.
  - reflexivity.
  - reflexivity.
  - intros d Hd. unfold Examples.trackedPrototype in Hd.
    by rewrite lookup_singleton_ne in Hd.
Defined.

(** Installing [comment.post] and [comment.topic], both through [postId]. *)
Lemma install_shared_foreign_key_throws_witness :
  ∃ message s2,
    DataStore.install_all Scenario.theStore Scenario.Comment "comment"
      [Scenario.commentPost; Examples.commentTopic] ∅ Scenario.s0
    = Throw (TypeError message) s2
    ∧ props s2 = props Scenario.s0 ∧ links s2 = links Scenario.s0.
Proof.
  destruct (install_shared_foreign_key_throws Scenario.getInverse Scenario.getRelation
              Scenario.theStore Scenario.Comment "comment" Scenario.commentPost
              Examples.commentTopic [] ∅ Scenario.s0)
    as (prototype1 & s1 & message & s2 & _ & _ & Hrun & Hp & Hl & _).
  - apply new_registers_builtins.
  - reflexivity.
  - reflexivity.
  - reflexivity.
  - reflexivity.
  - reflexivity.
  - discriminate.
  - apply lookup_empty.
  - intros d Hd. by rewrite lookup_empty in Hd.
  - by exists message, s2.
Defined.
